(** * The multipeer session core of the Mixed Reality Extension SDK

    A shallow embedding of
    - [protocols/protocol.ts]   (class [Protocol]: send, receive, middlewares,
      reply correlation, reply timeout, rejection of outstanding replies on
      close),
    - the multipeer [Client] class (construction order, phase, the
      [authoritative] getter, the queue of held-back messages),
    - the multipeer [Session] class (client set, election, routing of client
      messages, the sync cache: actors, assets, asset creators, and the
      views of the actor cache),
    the properties of these that the specification states, and further
    properties that the code itself shows.

    JavaScript objects used as dictionaries are finite maps ([gmap string _]);
    JSON payloads are a tree of such maps; a property that reads as
    [undefined] is [None]; an exception that leaves a function is an explicit
    [Throw] completion carrying the state reached so far. *)

From stdpp Require Import gmap strings list fin_maps.
From Stdlib Require Import ZArith DecimalString.

#[local] Set Warnings "-register-all".
#[local] Open Scope string_scope.

(** * JSON values *)

Module Json.

(** A payload value as it travels in a message.  Numbers are atoms of the
    merge (no arithmetic is ever done on them by the session core); [Z] is
    their carrier here.  A key whose value is [undefined] does not survive
    serialisation, so an absent key and [undefined] are the same thing. *)
Inductive value : Type :=
  | VNull
  | VBool (b : bool)
  | VNum (n : Z)
  | VStr (s : string)
  | VArr (l : list value)
  | VObj (m : gmap string value).

Fixpoint value_size (v : value) : nat :=
  match v with
  | VObj m => S (map_fold (fun _ x acc => value_size x + acc) 0 m)
  | VArr l => S (foldr (fun x acc => value_size x + acc) 0 l)
  | _ => 1
  end.

(** JavaScript truthiness, as tested by [a && b] and [if (a)];
    [None] is [undefined]. *)
Definition truthy (o : option value) : bool :=
  match o with
  | None | Some VNull | Some (VBool false) | Some (VStr EmptyString) => false
  | Some (VNum n) => negb (n =? 0)%Z
  | Some _ => true
  end.

(** [v.k] on a value that is known not to be [undefined]/[null]: a property
    of an object, [undefined] on anything else. *)
Definition get (k : string) (v : value) : option value :=
  match v with
  | VObj m => m !! k
  | _ => None
  end.

(** [o.k] guarded by [o && o.k]: reading through [undefined] gives [undefined]. *)
Definition oget (k : string) (o : option value) : option value :=
  o ≫= get k.

(** [delete v.k] *)
Definition del (k : string) (v : value) : value :=
  match v with
  | VObj m => VObj (delete k m)
  | _ => v
  end.

(** In-place change of the object stored under [k] (aliasing: [const t = v.k;
    ... mutate t ...]). *)
Definition under (k : string) (f : value -> value) (v : value) : value :=
  match v with
  | VObj m => VObj (alter f k m)
  | _ => v
  end.

(** [String(v)], the conversion behind template literals and property keys
    (integers print in decimal; an array joins its elements with commas, a
    [null] element printing as nothing). *)
Fixpoint to_string (v : value) : string :=
  match v with
  | VNull => "null"
  | VBool true => "true"
  | VBool false => "false"
  | VNum n => NilZero.string_of_int (Z.to_int n)
  | VStr s => s
  | VArr l =>
      (fix join (l : list value) : string :=
         match l with
         | [] => ""
         | x :: l' =>
             let e := match x with VNull => "" | _ => to_string x end in
             match l' with
             | [] => e
             | _ => e ++ "," ++ join l'
             end
         end) l
  | VObj _ => "[object Object]"
  end.

(** [v.length]: the length of a string or an array, a member of an object *)
Definition length_of (v : value) : option value :=
  match v with
  | VStr s => Some (VNum (Z.of_nat (String.length s)))
  | VArr l => Some (VNum (Z.of_nat (List.length l)))
  | VObj m => m !! "length"
  | _ => None
  end.

(** The property key of [obj[x]] *)
Definition key (o : option value) : string :=
  match o with
  | None => "undefined"
  | Some v => to_string v
  end.

(** [x === s] for a string [s] *)
Definition is_str (o : option value) (s : string) : bool :=
  match o with
  | Some (VStr s') => bool_decide (s' = s)
  | _ => false
  end.

(** Modelled from the spec: [deepmerge] is the npm package imported by the
    session; its source is not part of the repository.  Spec, section 4.5:
    "for objects, keys from the update overlay existing keys; nested objects
    recurse; arrays in the update replace arrays in the target.  Primitive
    values in the update overwrite."  Section 9: "undefined does not
    clobber" - a key the update does not carry keeps the target's value.
    The result is a fresh value (the session also uses it to clone). *)
Fixpoint deepmerge (target source : value) {struct source} : value :=
  match target, source with
  | VObj mt, VObj ms =>
      VObj (map_imap (fun k sv => Some (match mt !! k with
                                        | Some tv => deepmerge tv sv
                                        | None => sv
                                        end)) ms ∪ mt)
  | _, _ => source
  end.

(** [deepmerge(t, s)] where [t] was read from a property that may be
    missing: there is nothing to overlay, the result is (a copy of) [s]. *)
Definition deepmerge_into (t : option value) (s : value) : value :=
  match t with
  | Some t => deepmerge t s
  | None => s
  end.

(** [v.k1.k2...], [undefined] as soon as a step is missing *)
Definition path (ks : list string) (v : value) : option value :=
  foldl (fun o k => oget k o) (Some v) ks.

(** [absorbs x u]: merging [u] into [x] changes nothing, as after a first
    merge of [u]. *)
Definition absorbs (x u : value) : Prop := deepmerge x u = x.

End Json.

(** * Messages *)

Module Message.

(** The envelope [{id, replyToId?, payload: {type, ...}}].  The payload is an
    object; its members are read by key. *)
Record t := mk {
  id : option string;
  replyToId : option string;
  payload : gmap string Json.value
}.

(** [message.payload.type] *)
Definition type (m : t) : option Json.value := payload m !! "type".

Definition set_id (i : option string) (m : t) : t :=
  mk i (replyToId m) (payload m).

Definition set_payload (p : gmap string Json.value) (m : t) : t :=
  mk (id m) (replyToId m) p.

End Message.

(** A string used as a property key: [obj[undefined]] is [obj["undefined"]]. *)
Definition prop_key (o : option string) : string := default "undefined" o.

(** How a function body ends: by returning, or by letting an exception
    (a [TypeError] on reading a property of [undefined]) escape.  Either way
    the mutations made so far stay. *)
Inductive Completion (A : Type) : Type :=
  | Normal (a : A)
  | Throw (a : A).
Arguments Normal {A} a.
Arguments Throw {A} a.

Definition state_of {A} (c : Completion A) : A :=
  match c with Normal a | Throw a => a end.

(** Sequencing of statements: what follows a statement that threw is skipped. *)
Definition and_then {A} (c : Completion A) (f : A -> Completion A) : Completion A :=
  match c with
  | Normal a => f a
  | Throw a => Throw a
  end.

(** * The protocol base class ([protocols/protocol.ts]) *)

Module Protocol.
Import Json.

(** A callback handed to the protocol, named by a tag; calling it is recorded
    in the run-time's [calls]. *)
Inductive callback := Callback (tag : nat).

(** Modelled from the spec: [ExportedPromise] (utils/exportedPromise) is not
    under src; spec, section 3: an outstanding reply is
    [{onResolve, onReject, timeoutHandle?}].  [reject] is optional here
    because [sendMessage] and [rejectPromiseForMessage] test it before use. *)
Record ExportedPromise := {
  resolve : callback;
  reject : option callback
}.

(** An entry of [conn.promises] *)
Record QueuedPromise := {
  promise : ExportedPromise;
  timeout : option nat
}.

Inductive call :=
  | Resolved (cb : callback) (payload : gmap string value) (message : Message.t)
  | Rejected (cb : callback) (reason : option string).

(** The closure given to [setTimeout] by [setReplyTimeout]: it captures the
    protocol ([this.name], [this.conn]) and the message variable. *)
Inductive TimerTask :=
  | ReplyTimeout (name : string) (message : Message.t).

(** Modelled from the spec: the [Middleware] interface (./middleware) is not
    under src; spec, section 4.1: an ordered "beforeSend chain (each may
    rewrite or drop the message)" and "beforeRecv middleware". *)
Record Middleware := {
  beforeSend : option (Message.t -> option ExportedPromise -> option Message.t);
  beforeRecv : option (Message.t -> option Message.t)
}.

(** A [Protocol] object: [constructor.name], the middlewares in use order,
    and whether [onReceive]/[onClose] are attached to the connection. *)
Record t := {
  name : string;
  middlewares : list Middleware;
  listening : bool
}.

(** The connection a protocol talks through ([promises], what was handed to
    [send], whether [close] was called) together with the part of the event
    loop the protocol uses (pending timers, the UUID generator's position,
    the callbacks called so far). *)
Record Runtime := {
  promises : gmap string QueuedPromise;
  sent : list Message.t;
  closed : bool;
  timers : gmap nat (TimerTask * Z);
  nextTimer : nat;
  uuidCount : nat;
  calls : list call
}.

Definition initial : Runtime :=
  {| promises := ∅; sent := []; closed := false; timers := ∅;
     nextTimer := 0; uuidCount := 0; calls := [] |}.

Definition set_promises (f : gmap string QueuedPromise -> gmap string QueuedPromise)
    (w : Runtime) : Runtime :=
  {| promises := f (promises w); sent := sent w; closed := closed w;
     timers := timers w; nextTimer := nextTimer w; uuidCount := uuidCount w;
     calls := calls w |}.

Definition set_timers (f : gmap nat (TimerTask * Z) -> gmap nat (TimerTask * Z))
    (w : Runtime) : Runtime :=
  {| promises := promises w; sent := sent w; closed := closed w;
     timers := f (timers w); nextTimer := nextTimer w; uuidCount := uuidCount w;
     calls := calls w |}.

Definition record_call (c : call) (w : Runtime) : Runtime :=
  {| promises := promises w; sent := sent w; closed := closed w;
     timers := timers w; nextTimer := nextTimer w; uuidCount := uuidCount w;
     calls := calls w ++ [c] |}.

(** [conn.send(message)] *)
Definition send (m : Message.t) (w : Runtime) : Runtime :=
  {| promises := promises w; sent := sent w ++ [m]; closed := closed w;
     timers := timers w; nextTimer := nextTimer w; uuidCount := uuidCount w;
     calls := calls w |}.

(** [conn.close()] *)
Definition close (w : Runtime) : Runtime :=
  {| promises := promises w; sent := sent w; closed := true;
     timers := timers w; nextTimer := nextTimer w; uuidCount := uuidCount w;
     calls := calls w |}.

(** [setTimeout(task, ms)] returns the handle of the new timer. *)
Definition setTimeout (task : TimerTask) (ms : Z) (w : Runtime) : nat * Runtime :=
  (nextTimer w,
   {| promises := promises w; sent := sent w; closed := closed w;
      timers := <[nextTimer w := (task, ms)]> (timers w);
      nextTimer := S (nextTimer w); uuidCount := uuidCount w;
      calls := calls w |}).

(** [clearTimeout(handle)]; [clearTimeout(undefined)] does nothing. *)
Definition clearTimeout (h : option nat) (w : Runtime) : Runtime :=
  match h with
  | Some h => set_timers (delete h) w
  | None => w
  end.

(** The generator behind [UUID()] (package uuid/v4): the n-th identifier it
    hands out. *)
Class UuidSource := UUID : nat -> string.

Definition fresh_uuid `{UuidSource} (w : Runtime) : string * Runtime :=
  (UUID (uuidCount w),
   {| promises := promises w; sent := sent w; closed := closed w;
      timers := timers w; nextTimer := nextTimer w;
      uuidCount := S (uuidCount w); calls := calls w |}).

(** What a template literal prints for [${x}] *)
Definition template (o : option value) : string :=
  match o with
  | None => "undefined"
  | Some v => to_string v
  end.

(** The middleware loop of [sendMessage]: [None] as soon as one
    [beforeSend] drops the message. *)
Fixpoint run_beforeSend (ms : list Middleware) (message : Message.t)
    (promise : option ExportedPromise) : option Message.t :=
  match ms with
  | [] => Some message
  | middleware :: ms =>
      match beforeSend middleware with
      | Some f =>
          match f message promise with
          | Some message => run_beforeSend ms message promise
          | None => None
          end
      | None => run_beforeSend ms message promise
      end
  end.

(** The reason of a reply timeout:
    [`${this.name} timed out awaiting response for ${message.payload.type}, id:${message.id}.`] *)
Definition timeout_reason (name : string) (message : Message.t) : string :=
  name ++ " timed out awaiting response for " ++ template (Message.type message)
       ++ ", id:" ++ prop_key (Message.id message) ++ ".".

(** [setReplyTimeout()] inside [sendMessage] *)
Definition setReplyTimeout (p : t) (message : Message.t) (timeoutSeconds : option Z)
    (w : Runtime) : option nat * Runtime :=
  match timeoutSeconds with
  | Some secs =>
      if (0 <? secs)%Z then
        let '(h, w) := setTimeout (ReplyTimeout (name p) message) (secs * 1000) w in
        (Some h, w)
      else (None, w)
  | None => (None, w)
  end.

(** [message.id = message.id || UUID()] *)
Definition ensure_id `{UuidSource} (message : Message.t) (w : Runtime)
    : Message.t * Runtime :=
  match Message.id message with
  | Some (String _ _) => (message, w)
  | _ => let '(u, w) := fresh_uuid w in (Message.set_id (Some u) message, w)
  end.

(** [Protocol.sendMessage(message, promise?, timeoutSeconds?)].  The log
    line before [conn.send] evaluates [message.id.substr(0, 8)]: when a
    middleware has returned a message without id, a [TypeError] leaves the
    function there, with the reply entry and the timer already stored and
    nothing handed to the connection. *)
Definition sendMessage `{UuidSource} (p : t) (message : Message.t)
    (promise : option ExportedPromise) (timeoutSeconds : option Z)
    (w : Runtime) : Completion Runtime :=
  let '(message, w) := ensure_id message w in
  match run_beforeSend (middlewares p) message promise with
  | None =>
      Normal
        match promise with
        | Some pr =>
            match reject pr with
            | Some rj => record_call (Rejected rj None) w
            | None => w
            end
        | None => w
        end
  | Some message =>
      let w :=
        match promise with
        | Some pr =>
            let '(h, w) := setReplyTimeout p message timeoutSeconds w in
            set_promises
              <[prop_key (Message.id message) := {| promise := pr; timeout := h |}]> w
        | None => w
        end in
      match Message.id message with
      | Some _ => Normal (send message w)
      | None => Throw w
      end
  end.

(** [Protocol.sendPayload(payload, promise?)] *)
Definition sendPayload `{UuidSource} (p : t) (payload : gmap string value)
    (promise : option ExportedPromise) (w : Runtime) : Completion Runtime :=
  sendMessage p (Message.mk None None payload) promise None w.

(** [Protocol.handleReplyMessage(message)]; a reply nobody waits for is only
    logged. *)
Definition handleReplyMessage (message : Message.t) (w : Runtime) : Runtime :=
  match promises w !! prop_key (Message.replyToId message) with
  | None => w
  | Some queuedPromise =>
      let w := set_promises (delete (prop_key (Message.replyToId message))) w in
      let w := clearTimeout (timeout queuedPromise) w in
      record_call (Resolved (resolve (promise queuedPromise))
                            (Message.payload message) message) w
  end.

(** [Protocol.rejectPromiseForMessage(messageId, reason?)] *)
Definition rejectPromiseForMessage (messageId : option string)
    (reason : option string) (w : Runtime) : Runtime :=
  match promises w !! prop_key messageId with
  | Some queuedPromise =>
      match reject (promise queuedPromise) with
      | Some rj =>
          let w := clearTimeout (timeout queuedPromise) w in
          let w := set_promises (delete (prop_key messageId)) w in
          record_call (Rejected rj reason) w
      | None => w
      end
  | None => w
  end.

(** [Protocol.onClose]: [Object.keys(this.promises).map(key => ...)] works on
    the keys present when the handler starts. *)
Definition onClose (w : Runtime) : Runtime :=
  foldl (fun w key => rejectPromiseForMessage (Some key) (Some "Connection closed.") w)
        w (map fst (map_to_list (promises w))).

(** The connection emits [close]: the handler runs if the protocol is
    attached ([startListening] without a later [stopListening]). *)
Definition emit_close (p : t) (w : Runtime) : Runtime :=
  if listening p then onClose w else w.

(** The event loop runs the callback of a pending timer. *)
Definition fire_timer (h : nat) (w : Runtime) : Runtime :=
  match timers w !! h with
  | Some (ReplyTimeout name message, _) =>
      let w := set_timers (delete h) w in
      let reason := timeout_reason name message in
      let w := rejectPromiseForMessage (Message.id message) (Some reason) w in
      close w
  | None => w
  end.

Definition startListening (p : t) : t :=
  {| name := name p; middlewares := middlewares p; listening := true |}.

Definition stopListening (p : t) : t :=
  {| name := name p; middlewares := middlewares p; listening := false |}.

(** [Protocol.use(middleware)] *)
Definition use (middleware : Middleware) (p : t) : t :=
  {| name := name p; middlewares := middlewares p ++ [middleware];
     listening := listening p |}.

(** The middleware loop of [recvMessage]: [None] as soon as one
    [beforeRecv] drops the message. *)
Fixpoint run_beforeRecv (ms : list Middleware) (message : Message.t)
    : option Message.t :=
  match ms with
  | [] => Some message
  | middleware :: ms =>
      match beforeRecv middleware with
      | Some f =>
          match f message with
          | Some message => run_beforeRecv ms message
          | None => None
          end
      | None => run_beforeRecv ms message
      end
  end.

Section Receive.
Context {World : Type}.

(** A handler [recv-<type>]: a method of a protocol subclass.  It is code
    of the program: it may do anything to the connection and to the rest of
    the program (the [World]), and it may throw. *)
Definition handler : Type :=
  gmap string value -> Runtime * World -> Completion (Runtime * World).

(** [Protocol.recvPayload(payload)]; [handlers] gives the members
    [this['recv-...']] that exist, the methods of the protocol subclass.  A
    payload without handler, or without a type, is logged. *)
Definition recvPayload (handlers : string -> option handler)
    (payload : gmap string value) (now : Runtime * World)
    : Completion (Runtime * World) :=
  (* payload && payload.type && payload.type.length *)
  if truthy (payload !! "type") && truthy ((payload !! "type") ≫= length_of) then
    match handlers ("recv-" ++ template (payload !! "type")) with
    | Some handle => handle payload now
    | None => Normal now
    end
  else Normal now.

(** [Protocol.recvMessage(message)].  The log line that opens it evaluates
    [message.id.substr(0, 8)]: a message without id raises a [TypeError]
    before anything is done. *)
Definition recvMessage (p : t) (handlers : string -> option handler)
    (message : Message.t) (now : Runtime * World)
    : Completion (Runtime * World) :=
  match Message.id message with
  | None => Throw now
  | Some _ =>
      match run_beforeRecv (middlewares p) message with
      | None => Normal now
      | Some message =>
          match Message.replyToId message with
          | Some (String _ _) => Normal (handleReplyMessage message now.1, now.2)
          | _ => recvPayload handlers (Message.payload message) now
          end
      end
  end.

End Receive.

(** ** Vocabulary of the properties *)

(** Timer handles are not reused: the handle [setTimeout] gives next, and
    every later one, is not pending. *)
Definition handles_fresh (w : Runtime) : Prop :=
  forall h, nextTimer w <= h -> timers w !! h = None.

(** [t] contains [s] *)
Definition contains (t s : string) : Prop :=
  exists pre post, t = pre ++ s ++ post.

(** An entry can be rejected when its promise has the [reject] member that
    [rejectPromiseForMessage] tests ([ExportedPromise] declares it). *)
Definition rejectable (w : Runtime) : Prop :=
  map_Forall (fun _ qp => is_Some (reject (promise qp))) (promises w).

(** What is left of entry [k] once [rejectPromiseForMessage] has seen it. *)
Definition after_reject (w : Runtime) (k : string) : option QueuedPromise :=
  match promises w !! k with
  | Some qp => match reject (promise qp) with Some _ => None | None => Some qp end
  | None => None
  end.

End Protocol.

(** * The multipeer client *)

Module Client.

(** The protocol object a client currently runs ([protocol.constructor.name]) *)
Inductive phase := ClientHandshake | ClientSync | ClientExecution.

(** [order] is [Client.orderSequence++] at construction; [session] is the
    back-reference set by [join] (the id of the session stands for the
    reference) and cleared by [leave]. *)
Record t := mk {
  id : string;
  order : Z;
  userId : option string;
  protocol : option phase;
  session : option string
}.

(** The synchronous part of [Client.join(session)] *)
Definition join (sessionId : string) (c : t) : t :=
  mk (id c) (order c) (userId c) (Some ClientHandshake) (Some sessionId).

(** [Client.leave()], up to the [close] event it emits *)
Definition leave (c : t) : t :=
  mk (id c) (order c) (userId c) None None.

Definition set_protocol (p : option phase) (c : t) : t :=
  mk (id c) (order c) (userId c) p (session c).

Definition set_userId (u : option string) (c : t) : t :=
  mk (id c) (order c) u (protocol c) (session c).

(** The test of [joinedOrLeft]:
    [this.protocol.constructor.name === "ClientExecution"] *)
Definition in_execution (c : t) : bool :=
  match protocol c with
  | Some ClientExecution => true
  | _ => false
  end.

(** [clients.sort((a, b) => a.order - b.order)]: a stable sort by [order] *)
Fixpoint insert_by_order (c : t) (l : list t) : list t :=
  match l with
  | [] => [c]
  | d :: l' =>
      if (order c <=? order d)%Z then c :: d :: l' else d :: insert_by_order c l'
  end.

Definition sort_by_order (l : list t) : list t :=
  foldr insert_by_order [] l.

(** Every client is at most as old as the clients after it. *)
Fixpoint ordered (l : list t) : Prop :=
  match l with
  | [] => True
  | c :: l' => (forall d, d ∈ l' -> (order c <= order d)%Z) /\ ordered l'
  end.

(** [new Client(conn)]: [_id = UUID()] (the identifier drawn is [i]),
    [_order = Client.orderSequence++].  The static counter is threaded:
    the result is the new client and the counter after the call. *)
Definition create (i : string) (orderSequence : Z) : t * Z :=
  (mk i orderSequence None None None, (orderSequence + 1)%Z).

(** Constructor calls one after the other, one per identifier drawn *)
Fixpoint create_all (ids : list string) (orderSequence : Z) : list t * Z :=
  match ids with
  | [] => ([], orderSequence)
  | i :: ids =>
      let '(c, orderSequence) := create i orderSequence in
      let '(cs, orderSequence) := create_all ids orderSequence in
      (c :: cs, orderSequence)
  end.

End Client.

(** [Array.prototype.findIndex] *)
Fixpoint findIndex {A} (f : A -> bool) (l : list A) : Z :=
  match l with
  | [] => -1
  | x :: l' =>
      if f x then 0%Z
      else match findIndex f l' with
           | Zneg _ => -1
           | i => i + 1
           end%Z
  end.

(** [Array.prototype.find] with a predicate that may throw: the outer [None]
    is the exception, met before any element satisfied the predicate. *)
Fixpoint find_throwing {A} (f : A -> option bool) (l : list A) : option (option A) :=
  match l with
  | [] => Some None
  | x :: l' =>
      match f x with
      | None => None
      | Some true => Some (Some x)
      | Some false => find_throwing f l'
      end
  end.

(** * The session *)

Module Session.
Import Json.

(** [SyncActor], the members the session core itself reads and writes;
    [initialization] is [initialization.message]. *)
Record SyncActor := {
  actorId : option value;
  exclusiveToUser : option value;
  initialization : Message.t
}.

Record SyncAsset := {
  id : option value;
  duration : option Z;
  creatorMessageId : option string;
  update : option Message.t
}.

Record t := {
  sessionId : string;
  peerAuthoritative : bool;
  clientSet : gmap string Client.t;
  actorSet : gmap string SyncActor;
  assetSet : gmap string SyncAsset;
  assetCreatorSet : gmap string Message.t;
  protocol : option Protocol.t;
  conn : Protocol.Runtime
}.

(** [new Session(conn, sessionId, peerAuthoritative)] *)
Definition create (sessionId : string) (peerAuthoritative : bool) : t :=
  {| sessionId := sessionId; peerAuthoritative := peerAuthoritative;
     clientSet := ∅; actorSet := ∅; assetSet := ∅; assetCreatorSet := ∅;
     protocol := None; conn := Protocol.initial |}.

Definition set_clientSet (f : gmap string Client.t -> gmap string Client.t) (s : t) : t :=
  {| sessionId := sessionId s; peerAuthoritative := peerAuthoritative s;
     clientSet := f (clientSet s); actorSet := actorSet s; assetSet := assetSet s;
     assetCreatorSet := assetCreatorSet s; protocol := protocol s; conn := conn s |}.

Definition set_actorSet (f : gmap string SyncActor -> gmap string SyncActor) (s : t) : t :=
  {| sessionId := sessionId s; peerAuthoritative := peerAuthoritative s;
     clientSet := clientSet s; actorSet := f (actorSet s); assetSet := assetSet s;
     assetCreatorSet := assetCreatorSet s; protocol := protocol s; conn := conn s |}.

Definition set_assetSet (f : gmap string SyncAsset -> gmap string SyncAsset) (s : t) : t :=
  {| sessionId := sessionId s; peerAuthoritative := peerAuthoritative s;
     clientSet := clientSet s; actorSet := actorSet s; assetSet := f (assetSet s);
     assetCreatorSet := assetCreatorSet s; protocol := protocol s; conn := conn s |}.

Definition set_assetCreatorSet (f : gmap string Message.t -> gmap string Message.t)
    (s : t) : t :=
  {| sessionId := sessionId s; peerAuthoritative := peerAuthoritative s;
     clientSet := clientSet s; actorSet := actorSet s; assetSet := assetSet s;
     assetCreatorSet := f (assetCreatorSet s); protocol := protocol s; conn := conn s |}.

Definition set_protocol (p : option Protocol.t) (s : t) : t :=
  {| sessionId := sessionId s; peerAuthoritative := peerAuthoritative s;
     clientSet := clientSet s; actorSet := actorSet s; assetSet := assetSet s;
     assetCreatorSet := assetCreatorSet s; protocol := p; conn := conn s |}.

Definition set_conn (f : Protocol.Runtime -> Protocol.Runtime) (s : t) : t :=
  {| sessionId := sessionId s; peerAuthoritative := peerAuthoritative s;
     clientSet := clientSet s; actorSet := actorSet s; assetSet := assetSet s;
     assetCreatorSet := assetCreatorSet s; protocol := protocol s; conn := f (conn s) |}.

Definition set_initialization (m : Message.t) (a : SyncActor) : SyncActor :=
  {| actorId := actorId a; exclusiveToUser := exclusiveToUser a; initialization := m |}.

Definition set_creatorMessageId (c : option string) (a : SyncAsset) : SyncAsset :=
  {| id := id a; duration := duration a; creatorMessageId := c; update := update a |}.

Definition set_update (u : option Message.t) (a : SyncAsset) : SyncAsset :=
  {| id := id a; duration := duration a; creatorMessageId := creatorMessageId a;
     update := u |}.

(** A rule of the [Rules] table: the two session-side hooks.  A hook gets the
    session and may change it; it returns the message to pass on, or nothing
    to drop it. *)
Record Rule := {
  beforeReceiveFromApp : option (t -> Message.t -> t * option Message.t);
  beforeReceiveFromClient :
    option (t -> Client.t -> Message.t -> t * option Message.t)
}.

(** What the session uses and src does not define: the [Rules] table with its
    default [MissingRule] (module [rules]), and the two members of [Client]
    that [Session] calls but the [Client] class under src does not have,
    [isJoined()] and [setAuthoritative(value)]. *)
Class Externals := {
  Rules : string -> option Rule;
  MissingRule : Rule;
  isJoined : Client.t -> bool;
  setAuthoritative : bool -> Client.t -> Client.t
}.

(** [get clients()]: [Object.values(this._clientSet)] sorted by [order] *)
Definition clients (s : t) : list Client.t :=
  Client.sort_by_order (map snd (map_to_list (clientSet s))).

Definition actors (s : t) : list SyncActor := map snd (map_to_list (actorSet s)).
Definition assets (s : t) : list SyncAsset := map snd (map_to_list (assetSet s)).
Definition assetCreators (s : t) : list Message.t :=
  map snd (map_to_list (assetCreatorSet s)).

(** [Client.authoritative] (a getter of [Client]; [s] is the session that
    [this.session] refers to):
    [0 === this.session.clients.sort(...).findIndex(client => client.id === this.id)].
    Reading [clients] of a missing session throws. *)
Definition authoritative (s : t) (c : Client.t) : option bool :=
  match Client.session c with
  | None => None
  | Some _ =>
      Some (0 =? findIndex (fun client => bool_decide (Client.id client = Client.id c))
                           (Client.sort_by_order (clients s)))%Z
  end.

(** [get authoritativeClient()] *)
Definition authoritativeClient (s : t) : option (option Client.t) :=
  find_throwing (authoritative s) (clients s).

(** A call made on the app connection: an exception that leaves the call
    leaves the caller too, with what the call had done to the connection. *)
Definition on_conn (call : Protocol.Runtime -> Completion Protocol.Runtime) (s : t)
    : Completion t :=
  match call (conn s) with
  | Normal w => Normal (set_conn (fun _ => w) s)
  | Throw w => Throw (set_conn (fun _ => w) s)
  end.

Section WithExternals.
Context `{Externals} `{Protocol.UuidSource}.

(** [Session.setAuthoritativeClient(clientId)].  The stats forwarding at its
    end touches only the stats trackers of the connections, which are not
    part of the state kept here. *)
Definition setAuthoritativeClient (clientId : string) (s : t) : Completion t :=
  match authoritativeClient s with
  | None => Throw s
  | Some oldAuthority =>
      match clientSet s !! clientId with
      | None => Throw s
      | Some newAuthority =>
          let s := set_clientSet (alter (setAuthoritative true) clientId) s in
          Normal (set_clientSet
                    (map_imap (fun k client =>
                       Some (if bool_decide (k = clientId) then client
                             else setAuthoritative false client))) s)
      end
  end.

(** The synchronous start of [Session.join(client)], up to the [await] *)
Definition join_begin (client : Client.t) (s : t) : t :=
  set_clientSet <[Client.id client := Client.join (sessionId s) client]> s.

(** The body of the [try] of [Session.leave(clientId)] *)
Definition leave_try (clientId : string) (s : t) : Completion t :=
  let client := clientSet s !! clientId in
  let s := set_clientSet (delete clientId) s in
  and_then
    match client with
    | Some client =>
        and_then
          match Client.userId client with
          | Some (String _ _ as userId) =>
              match protocol s with
              | Some p =>
                  on_conn (Protocol.sendPayload p
                             {[ "type" := VStr "user-left"; "userId" := VStr userId ]}
                             None) s
              | None => Throw s
              end
          | _ => Normal s
          end
          (fun s =>
             match authoritative s client with
             | None => Throw s
             | Some true =>
                 match find isJoined (clients s) with
                 | Some nextClient => setAuthoritativeClient (Client.id nextClient) s
                 | None => Normal s
                 end
             | Some false => Normal s
             end)
    | None => Normal s
    end
    (fun s =>
       match clients s with
       | [] => Normal (set_conn Protocol.close s)
       | _ => Normal s
       end).

(** [Session.leave(clientId)]: [try { ... } catch { }] *)
Definition leave (clientId : string) (s : t) : t :=
  state_of (leave_try clientId s).

(** [Session.join(client)] after [await client.join(this)] has resolved *)
Definition join_resume (clientId : string) (s : t) : t :=
  match authoritativeClient s with
  | None => leave clientId s
  | Some (Some _) => s
  | Some None =>
      match setAuthoritativeClient clientId s with
      | Normal s => s
      | Throw s => leave clientId s
      end
  end.

(** The [close] handler installed by [join]: the client has run
    [Client.leave()], then [this.leave(client.id)] runs. *)
Definition client_closed (clientId : string) (s : t) : t :=
  leave clientId (set_clientSet (alter Client.leave clientId) s).

(** [Session.sendToApp(message)] *)
Definition sendToApp (message : Message.t) (s : t) : Completion t :=
  match protocol s with
  | Some p => on_conn (Protocol.sendMessage p message None None) s
  | None => Throw s
  end.

(** [Session.preprocessFromApp(message)] *)
Definition preprocessFromApp (message : Message.t) (s : t) : t * option Message.t :=
  let rule := default MissingRule (Rules (key (Message.type message))) in
  match beforeReceiveFromApp rule with
  | Some hook => hook s message
  | None => (s, Some message)
  end.

(** [Session.preprocessFromClient(client, message)] *)
Definition preprocessFromClient (client : Client.t) (message : Message.t) (s : t)
    : t * option Message.t :=
  match clientSet s !! Client.id client with
  | None => (s, None)
  | Some _ =>
      (* message.payload && message.payload.type && message.payload.type.length *)
      if truthy (Message.type message)
         && truthy (Message.type message ≫= length_of) then
        let rule := default MissingRule (Rules (key (Message.type message))) in
        match beforeReceiveFromClient rule with
        | Some hook => hook s client message
        | None => (s, Some message)
        end
      else (s, Some message)
  end.

(** [Session.recvFromClient(client, message)] *)
Definition recvFromClient (client : Client.t) (message : Message.t) (s : t)
    : Completion t :=
  let '(s, message) := preprocessFromClient client message s in
  match message with
  | Some message => sendToApp message s
  | None => Normal s
  end.

End WithExternals.

(** ** The sync cache *)

(** [message.payload.actor], on which [.id] is then read: reading a property
    of [undefined] or [null] throws. *)
Definition payload_actor (message : Message.t) : option value :=
  match Message.payload message !! "actor" with
  | Some VNull => None
  | o => o
  end.

(** [{ ...message.payload, actor: a }]; a member set to [undefined] reads as
    a missing one. *)
Definition with_actor (a : option value) (payload : gmap string value)
    : gmap string value :=
  match a with
  | Some a => <["actor" := a]> payload
  | None => delete "actor" payload
  end.

(** [deepmerge({ message }, {})]: a copy of the message, member by member *)
Definition clone_message (message : Message.t) : Message.t :=
  Message.set_payload
    (match deepmerge (VObj ∅) (VObj (Message.payload message)) with
     | VObj p => p
     | _ => Message.payload message
     end) message.

(** [a || b] *)
Definition js_or (a b : option value) : option value :=
  if truthy a then a else b.

(** [Session.cacheInitializeActorMessage(message)].  The incoming message
    object is changed in place in the reserved case, so it is returned with
    the session. *)
Definition cacheInitializeActorMessage (message : Message.t) (s : t)
    : Completion (t * Message.t) :=
  match payload_actor message with
  | None => Throw (s, message)
  | Some actor =>
      match actorSet s !! key (get "id" actor) with
      | None =>
          let parent := actorSet s !! key (get "parentId" actor) in
          let syncActor :=
            {| actorId := get "id" actor;
               exclusiveToUser :=
                 js_or (parent ≫= exclusiveToUser) (get "exclusiveToUser" actor);
               initialization := clone_message message |} in
          Normal (set_actorSet <[key (get "id" actor) := syncActor]> s, message)
      | Some syncActor =>
          if is_str (Message.type (initialization syncActor)) "x-reserve-actor" then
            let message :=
              Message.set_payload
                (with_actor (Message.payload (initialization syncActor) !! "actor")
                            (Message.payload message)) message in
            Normal (set_actorSet
                      <[key (get "id" actor) := set_initialization message syncActor]> s,
                    message)
          else Normal (s, message)
      end
  end.

(** [delete l.position; delete l.rotation] *)
Definition drop_position_rotation (l : value) : value :=
  del "rotation" (del "position" l).

(** The two [delete]s of the first branch, on the object [cacheTransform.local] *)
Definition strip_local (cacheTransform : value) : value :=
  under "local" drop_position_rotation cacheTransform.

(** "strip out transform data that wasn't updated": what
    [cacheActorUpdateMessage] does to the merged actor, given the patch.
    [None] when a property of a missing [cacheTransform] is read. *)
Definition strip_transform (patch merged : value) : option value :=
  let cacheTransform := get "transform" merged in
  let patchTransform := get "transform" patch in
  if truthy patchTransform && truthy (oget "app" patchTransform) then
    match cacheTransform with
    | None | Some VNull => None
    | Some ct =>
        if truthy (get "local" ct) then
          Some (under "transform" strip_local merged)
        else if truthy (oget "local" patchTransform) then
          Some (under "transform" (del "app") merged)
        else Some merged
    end
  else if truthy patchTransform && truthy (oget "local" patchTransform) then
    match cacheTransform with
    | None | Some VNull => None
    | Some _ => Some (under "transform" (del "app") merged)
    end
  else Some merged.

(** [Session.cacheActorUpdateMessage(message)] *)
Definition cacheActorUpdateMessage (message : Message.t) (s : t) : Completion t :=
  match payload_actor message with
  | None => Throw s
  | Some patch =>
      match actorSet s !! key (get "id" patch) with
      | Some syncActor =>
          let init := initialization syncActor in
          let merged := deepmerge_into (Message.payload init !! "actor") patch in
          let store actor :=
            set_actorSet
              <[key (get "id" patch) :=
                  set_initialization
                    (Message.set_payload (<["actor" := actor]> (Message.payload init)) init)
                    syncActor]> s in
          match strip_transform patch merged with
          | Some actor => Normal (store actor)
          | None => Throw (store merged)
          end
      | None => Normal s
      end
  end.

(** [Session.cacheAssetCreationRequest(message)] *)
Definition cacheAssetCreationRequest (message : Message.t) (s : t) : t :=
  set_assetCreatorSet <[prop_key (Message.id message) := message]> s.

(** [creator.payload.definition = deepmerge(creator.payload.definition, asset)] *)
Definition merge_definition (asset : option value) (creator : Message.t) : Message.t :=
  match asset with
  | Some asset =>
      Message.set_payload
        (<["definition" :=
             deepmerge_into (Message.payload creator !! "definition") asset]>
           (Message.payload creator)) creator
  | None => creator
  end.

(** [Session.cacheAssetCreation(assetId, creatorId, duration?)] *)
Definition cacheAssetCreation (assetId creatorId : string) (duration : option Z)
    (s : t) : Completion t :=
  (* const syncAsset = this.assetSet[assetId] = { id: assetId, duration } *)
  let syncAsset :=
    {| id := Some (VStr assetId); duration := duration;
       creatorMessageId := None; update := None |} in
  let creator := assetCreatorSet s !! creatorId in
  let syncAsset := set_creatorMessageId (Some creatorId) syncAsset in
  let s := set_assetSet <[assetId := syncAsset]> s in
  match creator with
  | None => Throw s
  | Some creator =>
      (* if (creator.payload.type === 'create-asset' && syncAsset.update) *)
      if is_str (Message.type creator) "create-asset" then
        match update syncAsset with
        | Some upd =>
            let s :=
              set_assetCreatorSet
                <[creatorId := merge_definition (Message.payload upd !! "asset") creator]>
                s in
            Normal (set_assetSet <[assetId := set_update None syncAsset]> s)
        | None => Normal s
        end
      else Normal s
  end.

(** [update.payload.asset], on which [.id] is then read *)
Definition payload_asset (message : Message.t) : option value :=
  match Message.payload message !! "asset" with
  | Some VNull => None
  | o => o
  end.

(** [Session.cacheAssetUpdate(update)] *)
Definition cacheAssetUpdate (upd : Message.t) (s : t) : Completion t :=
  match payload_asset upd with
  | None => Throw s
  | Some asset =>
      let k := key (get "id" asset) in
      let syncAsset :=
        default {| id := get "id" asset; duration := None;
                   creatorMessageId := None; update := None |}
                (assetSet s !! k) in
      let s := set_assetSet <[k := syncAsset]> s in
      let ck := prop_key (creatorMessageId syncAsset) in
      let otherwise :=
        match update syncAsset with
        | Some prev =>
            (* merge with previous update message *)
            let prev' :=
              Message.set_payload
                (<["asset" := deepmerge_into (Message.payload prev !! "asset") asset]>
                   (Message.payload prev)) prev in
            Normal (set_assetSet <[k := set_update (Some prev') syncAsset]> s)
        | None =>
            (* just save it *)
            Normal (set_assetSet <[k := set_update (Some upd) syncAsset]> s)
        end in
      match assetCreatorSet s !! ck with
      | Some creator =>
          if is_str (Message.type creator) "create-asset" then
            (* roll update into creation message *)
            Normal (set_assetCreatorSet <[ck := merge_definition (Some asset) creator]> s)
          else otherwise
      | None => otherwise
      end
  end.

(** The inner loop of [cacheAssetUnload]: un-cache the assets a creator made *)
Definition unload_assets_of (creator : Message.t) (s : t) : t :=
  let made :=
    filter (fun a => creatorMessageId a = Message.id creator) (assets s) in
  foldl (fun s asset => set_assetSet (delete (key (id asset))) s) s made.

(** One turn of the outer loop of [cacheAssetUnload] *)
Definition unload_creator (s : t) (creator : Message.t) : t :=
  unload_assets_of creator
    (set_assetCreatorSet (delete (prop_key (Message.id creator))) s).

(** [c.payload.containerId === containerId] *)
Definition in_container (containerId : string) (c : Message.t) : bool :=
  is_str (Message.payload c !! "containerId") containerId.

(** [Session.cacheAssetUnload(containerId)] *)
Definition cacheAssetUnload (containerId : string) (s : t) : t :=
  let creators :=
    filter (fun c => in_container containerId c = true) (assetCreators s) in
  foldl unload_creator s creators.

(** ** Looking the cache up *)

(** [Array.prototype.filter] with a predicate that may throw: [None] is the
    exception. *)
Fixpoint filter_throwing {A} (f : A -> option bool) (l : list A) : option (list A) :=
  match l with
  | [] => Some []
  | x :: l' =>
      match f x with
      | None => None
      | Some keep =>
          match filter_throwing f l' with
          | None => None
          | Some kept => Some (if keep then x :: kept else kept)
          end
      end
  end.

(** [actor.initialization.message.payload.actor.parentId]; reading it
    throws when the payload has no actor. *)
Definition parentId (a : SyncActor) : option (option value) :=
  get "parentId" <$> payload_actor (initialization a).

(** [get rootActors()] *)
Definition rootActors (s : t) : option (list SyncActor) :=
  filter_throwing
    (fun actor =>
       match actorSet s !! key (actorId actor) with
       | Some a => (fun p => negb (truthy p)) <$> parentId a
       | None => None
       end)
    (actors s).

(** [Session.childrenOf(parentId)] *)
Definition childrenOf (parent : string) (s : t) : option (list SyncActor) :=
  filter_throwing (fun actor => (fun p => is_str p parent) <$> parentId actor)
                  (actors s).

(** [Session.creatableChildrenOf(parentId)] *)
Definition creatableChildrenOf (parent : string) (s : t) : option (list SyncActor) :=
  filter_throwing
    (fun actor =>
       (fun p => is_str p parent && truthy (Message.type (initialization actor)))
         <$> parentId actor)
    (actors s).

(** ** Runs of a session *)

(** What happens to a session, one synchronous turn of the event loop at a
    time.  The hooks of the [Rules] table act on the session through the
    cache operations, which appear here as events of their own. *)
Inductive event :=
  | Connected (p : Protocol.t)
  | JoinBegins (client : Client.t)
  | HandshakeComplete (clientId : string)
  | SyncComplete (clientId : string)
  | UserKnown (clientId userId : string)
  | JoinResumes (clientId : string)
  | JoinFails (clientId : string)
  | ClientCloses (clientId : string)
  | InitializeActor (message : Message.t)
  | ActorUpdate (message : Message.t)
  | AssetCreationRequest (message : Message.t)
  | AssetCreation (assetId creatorId : string) (duration : option Z)
  | AssetUpdate (message : Message.t)
  | AssetUnload (containerId : string)
  | ToApp (message : Message.t).

Section Runs.
Context `{Externals} `{Protocol.UuidSource}.

Definition apply_event (s : t) (e : event) : t :=
  match e with
  | Connected p => set_protocol (Some p) s
  | JoinBegins client => join_begin client s
  | HandshakeComplete clientId =>
      set_clientSet (alter (Client.set_protocol (Some Client.ClientSync)) clientId) s
  | SyncComplete clientId =>
      set_clientSet (alter (Client.set_protocol (Some Client.ClientExecution)) clientId) s
  | UserKnown clientId userId =>
      set_clientSet (alter (Client.set_userId (Some userId)) clientId) s
  | JoinResumes clientId => join_resume clientId s
  | JoinFails clientId => leave clientId s
  | ClientCloses clientId => client_closed clientId s
  | InitializeActor message => fst (state_of (cacheInitializeActorMessage message s))
  | ActorUpdate message => state_of (cacheActorUpdateMessage message s)
  | AssetCreationRequest message => cacheAssetCreationRequest message s
  | AssetCreation assetId creatorId duration =>
      state_of (cacheAssetCreation assetId creatorId duration s)
  | AssetUpdate message => state_of (cacheAssetUpdate message s)
  | AssetUnload containerId => cacheAssetUnload containerId s
  | ToApp message => state_of (sendToApp message s)
  end.

Definition run (events : list event) (s : t) : t := foldl apply_event s events.

(** The states a session can be in *)
Definition reachable (s : t) : Prop :=
  exists sessionId peerAuthoritative events,
    s = run events (create sessionId peerAuthoritative).

End Runs.

(** ** Vocabulary of the properties *)

(** What the update carries, as [cacheActorUpdateMessage] tests it:
    [patchTransform && patchTransform.app], [patchTransform && patchTransform.local]. *)
Definition contains_app (patch : value) : bool :=
  truthy (oget "app" (get "transform" patch)).

Definition contains_local (patch : value) : bool :=
  truthy (oget "local" (get "transform" patch)).

(** The cached actor state of an actor, [initialization.message.payload.actor] *)
Definition cached_actor (a : SyncActor) : option value :=
  Message.payload (initialization a) !! "actor".

(** Every creator is cached under its message id
    ([cacheAssetCreationRequest]: [assetCreatorSet[message.id] = message]). *)
Definition creators_keyed (s : t) : Prop :=
  map_Forall (fun k c => Message.id c = Some k) (assetCreatorSet s).

(** Every asset is cached under its id ([cacheAssetCreation],
    [cacheAssetUpdate]). *)
Definition assets_keyed (s : t) : Prop :=
  map_Forall (fun k a => key (id a) = k) (assetSet s).

(** [a.creatorMessageId === c.id] for one of the creators [cs] *)
Definition created_by_any (cs : list Message.t) (a : SyncAsset) : bool :=
  existsb (fun c => bool_decide (creatorMessageId a = Message.id c)) cs.

(** The creators that [cacheAssetUnload] selects *)
Definition unloaded (containerId : string) (s : t) : list Message.t :=
  filter (fun c => in_container containerId c = true) (assetCreators s).

(** Every client is stored under its id ([join]:
    [this._clientSet[client.id] = client]). *)
Definition clients_keyed (s : t) : Prop :=
  forall k c, clientSet s !! k = Some c -> Client.id c = k.

(** Every client of the set refers back to the session ([client.join(this)]
    sets it; a client that has run [Client.leave()] is removed at once). *)
Definition clients_attached (s : t) : Prop :=
  forall k c, clientSet s !! k = Some c -> is_Some (Client.session c).

Definition client_invariant (s : t) : Prop :=
  clients_keyed s /\ clients_attached s.

(** The payload [leave] sends to the app for a client that has a user *)
Definition user_left (userId : string) : gmap string value :=
  {[ "type" := VStr "user-left"; "userId" := VStr userId ]}.

(** The last statement of [leave]:
    [if (!this.clients.length) { this._conn.close(); }] *)
Definition close_if_last (s : t) : t :=
  match clients s with
  | [] => set_conn Protocol.close s
  | _ => s
  end.

(** Clients in a list, each strictly older than those after it *)
Fixpoint by_age (l : list Client.t) : Prop :=
  match l with
  | [] => True
  | c :: l' => (forall d, d ∈ l' -> (Client.order c < Client.order d)%Z) /\ by_age l'
  end.

(** Every actor is cached under its id and its initialization carries an
    actor ([cacheInitializeActorMessage] stores it so, the updates keep it). *)
Definition actors_formed (s : t) : Prop :=
  map_Forall (fun (k : string) (a : SyncActor) =>
                key (actorId a) = k /\ is_Some (payload_actor (initialization a)))
             (actorSet s).

(** The caches and the app-side protocol of [s'] are those of [s]: at most
    the client set and the app connection differ. *)
Definition same_caches (s s' : t) : Prop :=
  actorSet s' = actorSet s /\ assetSet s' = assetSet s /\
  assetCreatorSet s' = assetCreatorSet s /\ protocol s' = protocol s /\
  sessionId s' = sessionId s /\ peerAuthoritative s' = peerAuthoritative s.

(** An asset-creation request that carries its message id (every message
    that went through [sendMessage] does). *)
Definition identified (e : event) : Prop :=
  match e with
  | AssetCreationRequest message => is_Some (Message.id message)
  | _ => True
  end.

End Session.

(** * The messages a client holds back while it is synchronised *)

Module ClientQueue.
Import Json.

(** [QueuedMessage] *)
Record QueuedMessage := {
  message : Message.t;
  promise : option Protocol.ExportedPromise
}.

(** The client-side hook of a rule,
    [rule.client.beforeQueueMessageForClient(session, client, message, promise)].
    It gets the session and the live client, whose queue is public
    ([queuedMessages], [filterQueuedMessages]): it may change the session
    (the client's record is in its client set) and the client's queue.  It
    returns the message to queue, or nothing. *)
Definition hook : Type :=
  Session.t -> Client.t -> list QueuedMessage -> Message.t ->
  option Protocol.ExportedPromise ->
  Session.t * list QueuedMessage * option Message.t.

(** The client part of the rules (module [rules], not under src), by the
    payload type whose rule [Rules] holds; [None] is [MissingRule]. *)
Class ClientRules := beforeQueueMessageForClient : option string -> option hook.

Section WithRules.
Context `{Session.Externals} `{ClientRules}.

(** [Client.queueMessage(message, promise?)], for a client attached to
    session [s] and holding the queue [queuedMessages] *)
Definition queueMessage (client : Client.t) (m : Message.t)
    (pr : option Protocol.ExportedPromise)
    (s : Session.t) (queuedMessages : list QueuedMessage)
    : Session.t * list QueuedMessage :=
  (* const rule = Rules[message.payload.type] || MissingRule *)
  let rule :=
    match Session.Rules (key (Message.type m)) with
    | Some _ => Some (key (Message.type m))
    | None => None
    end in
  let '(s, queuedMessages, m) :=
    match beforeQueueMessageForClient rule with
    | Some beforeQueue => beforeQueue s client queuedMessages m pr
    | None => (s, queuedMessages, Some m)
    end in
  (* this.queuedMessages.push({ message, promise }), on the queue as the hook
     left it *)
  match m with
  | Some m => (s, (queuedMessages ++ [{| message := m; promise := pr |}])%list)
  | None => (s, queuedMessages)
  end.

(** The hooks of the rules leave the queue of the client as they find it. *)
Definition hooks_keep_queue : Prop :=
  forall rule beforeQueue s client queuedMessages m pr,
    beforeQueueMessageForClient rule = Some beforeQueue ->
    (beforeQueue s client queuedMessages m pr).1.2 = queuedMessages.

End WithRules.

(** [Client.filterQueuedMessages(callbackfn)]: the messages taken out
    ([filteredMessages]) and the queue that is left. *)
Definition filterQueuedMessages (callbackfn : QueuedMessage -> bool)
    (queuedMessages : list QueuedMessage)
    : list QueuedMessage * list QueuedMessage :=
  foldl (fun '(filteredMessages, kept) value =>
           if callbackfn value then ((filteredMessages ++ [value])%list, kept)
           else (filteredMessages, (kept ++ [value])%list))
        ([], []) queuedMessages.

End ClientQueue.

(** * The scenarios of the specification: their data *)

Module Fixtures.
Import Json Session.

(** No rules, and the two missing members of [Client] read as their names
    say: joined means running the execution protocol. *)
#[export] Instance plain_externals : Externals :=
  {| Rules := fun _ => None;
     MissingRule := {| beforeReceiveFromApp := None; beforeReceiveFromClient := None |};
     isJoined := Client.in_execution;
     setAuthoritative := fun _ c => c |}.

#[export] Instance counting_uuid : Protocol.UuidSource :=
  fun n => "uuid-" ++ NilZero.string_of_uint (Nat.to_uint n).

Definition obj (l : list (string * value)) : value := VObj (list_to_map l).

Definition message (id : string) (payload : list (string * value)) : Message.t :=
  Message.mk (Some id) None (list_to_map payload).

(** ** Transform-space conflict (scenario 3) *)

Definition actor_with_local : value :=
  obj [("id", VStr "A1");
       ("transform",
        obj [("local", obj [("position", obj [("x", VNum 1)]);
                            ("rotation", obj [("w", VNum 1)]);
                            ("scale", obj [("x", VNum 2)])])])].

Definition patch_with_app : value :=
  obj [("id", VStr "A1");
       ("transform",
        obj [("app", obj [("position", obj [("x", VNum 5)]);
                          ("rotation", obj [("w", VNum 0)])])])].

Definition cached_A1 : SyncActor :=
  {| actorId := Some (VStr "A1"); exclusiveToUser := None;
     initialization :=
       message "m1" [("type", VStr "create-actor"); ("actor", actor_with_local)] |}.

Definition session_with_A1 : t :=
  set_actorSet <["A1" := cached_A1]> (create "session" true).

Definition update_A1 : Message.t :=
  message "m2" [("type", VStr "actor-update"); ("actor", patch_with_app)].

(** ** Reserve-then-initialize (scenario 2) *)

Definition reserved_A1 : SyncActor :=
  {| actorId := Some (VStr "A1"); exclusiveToUser := Some (VStr "U1");
     initialization :=
       message "r1" [("type", VStr "x-reserve-actor");
                     ("actor", obj [("id", VStr "A1");
                                    ("exclusiveToUser", VStr "U1")])] |}.

Definition session_with_reserved : t :=
  set_actorSet <["A1" := reserved_A1]> (create "session" true).

Definition create_A1 : Message.t :=
  message "m1" [("type", VStr "create-actor");
                ("actor", obj [("id", VStr "A1"); ("name", VStr "cube")])].

(** ** Create-then-update asset collapse (scenario 5) *)

Definition create_asset_M1 : Message.t :=
  message "M1" [("type", VStr "create-asset"); ("containerId", VStr "CT1");
                ("definition", obj [("id", VStr "X"); ("name", VStr "wood")])].

Definition update_X : Message.t :=
  message "U1" [("type", VStr "asset-update");
                ("asset", obj [("id", VStr "X"); ("name", VStr "steel")])].

Definition update_buffered : t :=
  run [AssetCreationRequest create_asset_M1; AssetUpdate update_X]
      (create "session" true).

(** ** Asset unload cascade (scenario 6) *)

Definition loader (id container : string) : Message.t :=
  message id [("type", VStr "load-assets"); ("containerId", VStr container)].

Definition two_containers : t :=
  run [AssetCreationRequest (loader "M1" "CT1");
       AssetCreationRequest (loader "M2" "CT1");
       AssetCreationRequest (loader "M3" "CT2");
       AssetCreation "A" "M1" None; AssetCreation "B" "M1" None;
       AssetCreation "C" "M2" None; AssetCreation "D" "M3" None]
      (create "session" true).

(** ** Authoritative handoff (scenario 4) *)

Definition new_client (id : string) (order : Z) : Client.t :=
  Client.mk id order None None None.

(** Three clients join in order; [c0] and [c2] reach the execution phase,
    [c1] is still being synchronised. *)
Definition three_clients : t :=
  run [JoinBegins (new_client "c0" 0); JoinBegins (new_client "c1" 1);
       JoinBegins (new_client "c2" 2);
       HandshakeComplete "c0"; SyncComplete "c0"; JoinResumes "c0";
       HandshakeComplete "c2"; SyncComplete "c2"; JoinResumes "c2";
       HandshakeComplete "c1"]
      (create "session" true).

Definition joined (id : string) (order : Z) (ph : Client.phase) : Client.t :=
  Client.mk id order None (Some ph) (Some "session").

(** ** Handshake timeout (scenario 1) *)

Definition handshake_protocol : Protocol.t :=
  {| Protocol.name := "ClientHandshake"; Protocol.middlewares := [];
     Protocol.listening := true |}.

Definition handshake : Message.t := message "h1" [("type", VStr "handshake")].

Definition handshake_promise : Protocol.ExportedPromise :=
  {| Protocol.resolve := Protocol.Callback 1;
     Protocol.reject := Some (Protocol.Callback 2) |}.

Definition awaiting_handshake : Protocol.Runtime :=
  state_of (Protocol.sendMessage handshake_protocol handshake (Some handshake_promise)
              (Some 5%Z) Protocol.initial).

(** ** Close with replies outstanding *)

Definition two_outstanding : Protocol.Runtime :=
  state_of (Protocol.sendMessage handshake_protocol
              (message "h2" [("type", VStr "heartbeat")])
              (Some {| Protocol.resolve := Protocol.Callback 3;
                       Protocol.reject := Some (Protocol.Callback 4) |})
              None awaiting_handshake).

End Fixtures.

(** * Further sample data *)

Module Samples.
Import Json Session Fixtures.

(** No client-side hooks *)
#[export] Instance no_client_hooks : ClientQueue.ClientRules := fun _ => None.

(** ** Replies and drops *)

Definition handshake_reply : Message.t :=
  Message.mk (Some "r1") (Some "h1")
    (list_to_map [("type", VStr "handshake-reply")]).

(** A middleware that lets everything through but payloads of type [secret] *)
Definition censor : Protocol.Middleware :=
  {| Protocol.beforeSend :=
       Some (fun m _ => if is_str (Message.type m) "secret" then None else Some m);
     Protocol.beforeRecv :=
       Some (fun m => if is_str (Message.type m) "secret" then None else Some m) |}.

Definition censoring_protocol : Protocol.t := Protocol.use censor handshake_protocol.

Definition secret : Message.t := message "s1" [("type", VStr "secret")].

(** The handlers of a protocol that understands heartbeats only; the rest of
    the program is the list of payloads handled.  [recv-heartbeat] answers
    through the connection and notes the payload. *)
Definition heartbeat_reply : Message.t :=
  Message.mk (Some "b2") (Some "b1") (list_to_map [("type", VStr "heartbeat-reply")]).

Definition recv_heartbeat : @Protocol.handler (list (gmap string value)) :=
  fun payload now =>
    Normal (Protocol.send heartbeat_reply now.1, (now.2 ++ [payload])%list).

Definition heartbeat_only (member : string)
    : option (@Protocol.handler (list (gmap string value))) :=
  if bool_decide (member = "recv-heartbeat") then Some recv_heartbeat else None.

Definition heartbeat : Message.t := message "b1" [("type", VStr "heartbeat")].

(** ** A session with the app connected and one client, who has a user *)

Definition execution_protocol : Protocol.t :=
  {| Protocol.name := "SessionExecution"; Protocol.middlewares := [];
     Protocol.listening := true |}.

Definition one_user : t :=
  run [Connected execution_protocol; JoinBegins (new_client "c0" 0);
       UserKnown "c0" "U1"]
      (create "session" true).

Definition two_users : t :=
  run [JoinBegins (new_client "c1" 1); UserKnown "c1" "U2"] one_user.

(** The same session behind a middleware that returns outgoing messages
    without their id *)
Definition unidentify : Protocol.Middleware :=
  {| Protocol.beforeSend := Some (fun m _ => Some (Message.set_id None m));
     Protocol.beforeRecv := None |}.

Definition unidentifying_protocol : Protocol.t :=
  Protocol.use unidentify execution_protocol.

Definition one_user_unidentified : t :=
  run [Connected unidentifying_protocol; JoinBegins (new_client "c0" 0);
       UserKnown "c0" "U1"]
      (create "session" true).

(** ** Queued messages *)

Definition queued (i : string) : ClientQueue.QueuedMessage :=
  {| ClientQueue.message := message i [("type", VStr "actor-update")];
     ClientQueue.promise := None |}.

(** Client-side hooks that drop the message [q2] and leave the queue alone *)
Definition dropping_hooks : ClientQueue.ClientRules :=
  fun _ => Some (fun s _ queuedMessages m _ =>
                   (s, queuedMessages,
                    if bool_decide (Message.id m = Some "q2") then None else Some m)).

(** ** A parent and its child *)

Definition create_child : Message.t :=
  message "m3" [("type", VStr "create-actor");
                ("actor", obj [("id", VStr "A2"); ("parentId", VStr "A1")])].

Definition family : t :=
  run [InitializeActor create_A1; InitializeActor create_child]
      (create "session" true).

(** ** A second update for asset [X] *)

Definition update_X_colour : Message.t :=
  message "U2" [("type", VStr "asset-update");
                ("asset", obj [("id", VStr "X"); ("colour", VStr "red")])].

End Samples.

(** * Facts about JSON values and the merge *)

Module JsonFacts.
Import Json.

(** ** Induction over nested objects *)

Lemma value_size_lookup (m : gmap string value) k v :
  m !! k = Some v -> value_size v < value_size (VObj m).
Proof.
  intros H. simpl.
  rewrite <- (insert_delete_id m k v H).
  rewrite map_fold_insert_L.
  - lia.
  - intros. lia.
  - apply lookup_delete_eq.
Qed.

Lemma value_obj_ind (P : value -> Prop) :
  P VNull -> (forall b, P (VBool b)) -> (forall n, P (VNum n)) ->
  (forall s, P (VStr s)) -> (forall l, P (VArr l)) ->
  (forall m : gmap string value, map_Forall (fun _ v => P v) m -> P (VObj m)) ->
  forall v, P v.
Proof.
  intros HN HB HZ HS HA HO v.
  remember (value_size v) as n eqn:Hn.
  revert v Hn. induction n as [n IH] using lt_wf_ind. intros v ->.
  destruct v; auto.
  apply HO. intros k v Hk.
  apply (IH (value_size v)); [by eapply value_size_lookup | reflexivity].
Qed.

(** ** Equations of the merge *)

Lemma deepmerge_lookup mt ms k :
  get k (deepmerge (VObj mt) (VObj ms)) =
  match ms !! k, mt !! k with
  | Some sv, Some tv => Some (deepmerge tv sv)
  | Some sv, None => Some sv
  | None, o => o
  end.
Proof.
  simpl. rewrite lookup_union, map_lookup_imap.
  destruct (ms !! k) as [sv|], (mt !! k) as [tv|]; reflexivity.
Qed.

Lemma deepmerge_nonobj_source t s :
  (forall m, s <> VObj m) -> deepmerge t s = s.
Proof. intros H. destruct t, s; try reflexivity. by destruct (H m0). Qed.

Lemma deepmerge_nonobj_target t s :
  (forall m, t <> VObj m) -> deepmerge t s = s.
Proof.
  intros H. destruct t, s; try reflexivity. by destruct (H m).
Qed.

Lemma deepmerge_is_obj t ms : exists m, deepmerge t (VObj ms) = VObj m.
Proof.
  destruct t; try (exists ms; reflexivity).
  eexists. reflexivity.
Qed.

Lemma deepmerge_self v : deepmerge v v = v.
Proof.
  induction v as [| | | | |m IH] using value_obj_ind; try reflexivity.
  simpl. f_equal. apply map_eq. intros k.
  rewrite lookup_union, map_lookup_imap.
  destruct (m !! k) as [v|] eqn:E; simpl; [|reflexivity].
  by rewrite (IH k v E).
Qed.

(** Merging the same update a second time changes nothing. *)
Lemma deepmerge_idem s : forall t, deepmerge (deepmerge t s) s = deepmerge t s.
Proof.
  induction s as [| | | | |ms IH] using value_obj_ind; intros t;
    try (destruct t; reflexivity).
  destruct t as [| | | | |mt]; try apply deepmerge_self.
  simpl. f_equal. apply map_eq. intros k.
  rewrite !lookup_union, !map_lookup_imap, !lookup_union, !map_lookup_imap.
  destruct (ms !! k) as [sv|] eqn:E; simpl.
  - destruct (mt !! k) as [tv|] eqn:Et; simpl.
    + by rewrite (IH k sv E).
    + by rewrite deepmerge_self.
  - by destruct (mt !! k).
Qed.

Lemma deepmerge_obj_ext mt ms (m : gmap string value) :
  (forall j, get j (deepmerge (VObj mt) (VObj ms)) = m !! j) ->
  deepmerge (VObj mt) (VObj ms) = VObj m.
Proof.
  intros Hj. destruct (deepmerge_is_obj (VObj mt) ms) as [m' E].
  rewrite E in *. f_equal. apply map_eq, Hj.
Qed.

#[local] Arguments deepmerge : simpl never.

(** Cloning ([deepmerge({}, v)] on the members of a fresh object) is the
    identity on values. *)
Lemma deepmerge_empty_target ms : deepmerge (VObj ∅) (VObj ms) = VObj ms.
Proof.
  apply (f_equal VObj), map_eq. intros k.
  rewrite lookup_union, map_lookup_imap, lookup_empty.
  destruct (ms !! k); reflexivity.
Qed.

Lemma deepmerge_empty_source mt : deepmerge (VObj mt) (VObj ∅) = VObj mt.
Proof.
  apply (f_equal VObj), map_eq. intros k.
  rewrite lookup_union, map_lookup_imap, lookup_empty.
  by destruct (mt !! k).
Qed.

(** ** Reading through [under] and [del] *)

Lemma get_under k f v : get k (under k f v) = f <$> get k v.
Proof. destruct v; try reflexivity. simpl. by rewrite lookup_alter_eq. Qed.

Lemma get_under_ne k k' f v : k <> k' -> get k' (under k f v) = get k' v.
Proof. intros. destruct v; try reflexivity. simpl. by rewrite lookup_alter_ne. Qed.

Lemma get_del k v : get k (del k v) = None.
Proof. destruct v; try reflexivity. simpl. by rewrite lookup_delete_eq. Qed.

Lemma get_del_ne k k' v : k <> k' -> get k' (del k v) = get k' v.
Proof. intros. destruct v; try reflexivity. simpl. by rewrite lookup_delete_ne. Qed.

Lemma truthy_obj m : truthy (Some (VObj m)) = true.
Proof. reflexivity. Qed.

Lemma truthy_get_obj k v : truthy (get k v) = true -> exists m, v = VObj m.
Proof. destruct v; try discriminate. eauto. Qed.

Lemma truthy_del k v : truthy (Some (del k v)) = truthy (Some v).
Proof. by destruct v. Qed.

(** ** A merged value absorbs a second merge of the same update *)

Lemma absorbs_merge t u : absorbs (deepmerge t u) u.
Proof. apply deepmerge_idem. Qed.

Lemma absorbs_merge_into t u : absorbs (deepmerge_into t u) u.
Proof. destruct t; [apply deepmerge_idem | apply deepmerge_self]. Qed.

Lemma absorbs_nonobj x u : (forall m, u <> VObj m) -> absorbs x u -> x = u.
Proof. intros Hu Hx. unfold absorbs in Hx. by rewrite deepmerge_nonobj_source in Hx. Qed.

Lemma absorbs_obj x mu : absorbs x (VObj mu) -> exists mx, x = VObj mx.
Proof.
  intros Hx. destruct (deepmerge_is_obj x mu) as [m Hm].
  unfold absorbs in Hx. rewrite Hm in Hx. eauto.
Qed.

(** Under a key of the update, the merged value holds a value that absorbs
    the update's. *)
Lemma absorbs_get mx mu k uk :
  absorbs (VObj mx) (VObj mu) -> mu !! k = Some uk ->
  exists xk, mx !! k = Some xk /\ absorbs xk uk.
Proof.
  intros Hx Hk. pose proof (deepmerge_lookup mx mu k) as L.
  rewrite Hx, Hk in L. simpl in L.
  destruct (mx !! k) as [xk|] eqn:E; [|discriminate].
  exists xk. split; [reflexivity|]. unfold absorbs. congruence.
Qed.

(** Merging the update again after one member of the merged value was
    changed: only that member is merged. *)
Lemma deepmerge_after_change mx mu k x' :
  absorbs (VObj mx) (VObj mu) ->
  deepmerge (VObj (<[k := x']> mx)) (VObj mu) =
  VObj (<[k := match mu !! k with
               | Some uk => deepmerge x' uk
               | None => x'
               end]> mx).
Proof.
  intros Hx. apply deepmerge_obj_ext. intros j.
  pose proof (deepmerge_lookup mx mu j) as L. rewrite Hx in L. cbn [get] in L.
  rewrite deepmerge_lookup.
  destruct (decide (k = j)) as [->|Hne].
  - rewrite !lookup_insert_eq. by destruct (mu !! j).
  - rewrite !lookup_insert_ne by done.
    destruct (mu !! j), (mx !! j); simpl in *; congruence.
Qed.

(** Deleting members, merging the update again and deleting the same members
    again gives what the first deletion gave. *)
Lemma delete_merge_delete (g : value -> value) (D : string -> bool) :
  (forall m, exists m', g (VObj m) = VObj m' /\
     forall j, m' !! j = if D j then None else m !! j) ->
  (forall v, (forall m, v <> VObj m) -> g v = v) ->
  forall x u, absorbs x u -> g (deepmerge (g x) u) = g x.
Proof.
  intros Hobj Hother x u Hx.
  destruct u as [| | | | |mu];
    try (rewrite deepmerge_nonobj_source by (intros ? [=]);
         apply absorbs_nonobj in Hx; [|intros ? [=]]; subst x;
         rewrite !Hother by (intros ? [=]); reflexivity).
  destruct (absorbs_obj _ _ Hx) as [mx ->].
  destruct (Hobj mx) as (m1 & E1 & L1). rewrite E1.
  destruct (deepmerge_is_obj (VObj m1) mu) as [m2 E2].
  pose proof (fun j => deepmerge_lookup m1 mu j) as L2. rewrite E2 in L2.
  simpl in L2. rewrite E2.
  destruct (Hobj m2) as (m3 & E3 & L3). rewrite E3.
  apply (f_equal VObj), map_eq. intros j. rewrite L3, (L1 j).
  destruct (D j) eqn:Dj; [reflexivity|].
  rewrite L2, L1, Dj.
  pose proof (deepmerge_lookup mx mu j) as L. rewrite Hx in L. simpl in L.
  destruct (mu !! j), (mx !! j); simpl in *; congruence.
Qed.

End JsonFacts.

(** * Facts about the protocol base class *)

Module ProtocolFacts.
Import Json Protocol.

Lemma append_assoc (a b c : string) : (a ++ b) ++ c = a ++ (b ++ c).
Proof.
  induction a as [|x a IH]; [reflexivity|].
  change (String x ((a ++ b) ++ c) = String x (a ++ (b ++ c))). by rewrite IH.
Qed.

Lemma timeout_reason_contains_type name message :
  contains (timeout_reason name message) (template (Message.type message)).
Proof.
  exists (name ++ " timed out awaiting response for "),
         (", id:" ++ prop_key (Message.id message) ++ ".").
  unfold timeout_reason. by rewrite append_assoc.
Qed.

Lemma rejectPromiseForMessage_promises k reason w j :
  promises (rejectPromiseForMessage (Some k) reason w) !! j =
  if bool_decide (j = k) then after_reject w k else promises w !! j.
Proof.
  unfold rejectPromiseForMessage, after_reject.
  change (prop_key (Some k)) with k.
  destruct (promises w !! k) as [qp|] eqn:Ek.
  - destruct (reject (promise qp)) as [rj|].
    + assert (forall w0, promises (clearTimeout (timeout qp) w0) = promises w0)
        as Hclear by (intros; by destruct (timeout qp)).
      cbn [promises record_call]. unfold set_promises. cbn [promises].
      rewrite Hclear, lookup_delete.
      case_decide; case_bool_decide; congruence.
    + case_bool_decide; congruence.
  - case_bool_decide; congruence.
Qed.

Lemma rejectPromiseForMessage_calls k reason w :
  calls (rejectPromiseForMessage (Some k) reason w) =
  match promises w !! k with
  | Some qp =>
      match reject (promise qp) with
      | Some rj => (calls w ++ [Rejected rj reason])%list
      | None => calls w
      end
  | None => calls w
  end.
Proof.
  unfold rejectPromiseForMessage. change (prop_key (Some k)) with k.
  destruct (promises w !! k) as [qp|]; [|reflexivity].
  destruct (reject (promise qp)); [|reflexivity]. by destruct (timeout qp).
Qed.

Lemma rejectPromiseForMessage_conn k reason w :
  sent (rejectPromiseForMessage k reason w) = sent w /\
  closed (rejectPromiseForMessage k reason w) = closed w.
Proof.
  unfold rejectPromiseForMessage.
  destruct (promises w !! prop_key k) as [qp|]; [|done].
  destruct (reject (promise qp)); [|done]. by destruct (timeout qp).
Qed.

Lemma after_reject_twice k reason w :
  after_reject (rejectPromiseForMessage (Some k) reason w) k = after_reject w k.
Proof.
  unfold after_reject at 1. rewrite rejectPromiseForMessage_promises.
  rewrite bool_decide_eq_true_2 by done. unfold after_reject.
  destruct (promises w !! k) as [qp|]; [|reflexivity].
  destruct (reject (promise qp)) eqn:E; [reflexivity|]. by rewrite E.
Qed.

Lemma after_reject_other k j reason w :
  j <> k ->
  after_reject (rejectPromiseForMessage (Some k) reason w) j = after_reject w j.
Proof.
  intros Hne. unfold after_reject. rewrite rejectPromiseForMessage_promises.
  by rewrite bool_decide_eq_false_2.
Qed.

(** The sweep of [onClose] over any list of keys. *)
Lemma sweep_promises reason (ks : list string) (w : Runtime) j :
  promises (foldl (fun w key => rejectPromiseForMessage (Some key) reason w) w ks) !! j
  = if bool_decide (j ∈ ks) then after_reject w j else promises w !! j.
Proof.
  revert w. induction ks as [|k ks IH]; intros w; [reflexivity|].
  cbn [foldl]. rewrite IH.
  destruct (decide (j = k)) as [->|Hne].
  - rewrite (bool_decide_eq_true_2 (k ∈ k :: ks)) by apply list_elem_of_here.
    rewrite after_reject_twice, rejectPromiseForMessage_promises.
    rewrite (bool_decide_eq_true_2 (k = k)) by done. by case_bool_decide.
  - rewrite after_reject_other, rejectPromiseForMessage_promises by done.
    rewrite (bool_decide_eq_false_2 (j = k)) by done.
    case_bool_decide as H1; case_bool_decide as H2; try reflexivity.
    + destruct H2. by apply list_elem_of_further.
    + apply elem_of_cons in H2 as [?|?]; done.
Qed.

Lemma sweep_calls_mono reason (ks : list string) (w : Runtime) c :
  c ∈ calls w ->
  c ∈ calls (foldl (fun w key => rejectPromiseForMessage (Some key) reason w) w ks).
Proof.
  revert w. induction ks as [|k ks IH]; intros w Hc; [exact Hc|].
  cbn [foldl]. apply IH. rewrite rejectPromiseForMessage_calls.
  destruct (promises w !! k) as [qp|]; [|exact Hc].
  destruct (reject (promise qp)); [|exact Hc].
  apply elem_of_app. by left.
Qed.

Lemma sweep_rejects reason (ks : list string) (w : Runtime) k qp rj :
  k ∈ ks -> promises w !! k = Some qp -> reject (promise qp) = Some rj ->
  Rejected rj reason
    ∈ calls (foldl (fun w key => rejectPromiseForMessage (Some key) reason w) w ks).
Proof.
  revert w. induction ks as [|k0 ks IH]; intros w Hin Hk Hrj.
  - by apply elem_of_nil in Hin.
  - cbn [foldl]. destruct (decide (k = k0)) as [<-|Hne].
    + apply sweep_calls_mono. rewrite rejectPromiseForMessage_calls, Hk, Hrj.
      apply elem_of_app. right. apply list_elem_of_here.
    + apply elem_of_cons in Hin as [?|Hin]; [done|].
      apply IH; [exact Hin| |exact Hrj].
      rewrite rejectPromiseForMessage_promises.
      by rewrite bool_decide_eq_false_2.
Qed.

Lemma sweep_conn reason (ks : list string) (w : Runtime) :
  sent (foldl (fun w key => rejectPromiseForMessage (Some key) reason w) w ks)
    = sent w.
Proof.
  revert w. induction ks as [|k ks IH]; intros w; [reflexivity|].
  cbn [foldl]. rewrite IH. apply rejectPromiseForMessage_conn.
Qed.

(** [onClose] is attached to the connection's [close] event from
    [startListening] to [stopListening]. *)
Lemma emit_close_listening (p : t) (w : Runtime) :
  emit_close (startListening p) w = onClose w /\
  emit_close (stopListening p) w = w.
Proof. done. Qed.

(** C5. When the connection emits [close], [onClose] rejects every
    outstanding reply with reason ["Connection closed."] and removes it;
    afterwards the outstanding-reply map is empty, and nothing was sent. *)
Theorem onClose_rejects_all (w : Runtime) :
  rejectable w ->
  promises (onClose w) = ∅ /\
  (forall k qp, promises w !! k = Some qp ->
     exists rj, reject (promise qp) = Some rj /\
       Rejected rj (Some "Connection closed.") ∈ calls (onClose w)) /\
  sent (onClose w) = sent w.
Proof.
  intros Hrej. unfold onClose. repeat split.
  - apply map_eq. intros j. rewrite sweep_promises, lookup_empty.
    unfold after_reject.
    destruct (promises w !! j) as [qp|] eqn:Ej; [|by case_bool_decide].
    destruct (Hrej _ _ Ej) as [rj Hrj]. rewrite Hrj.
    case_bool_decide as Hin; [reflexivity|]. destruct Hin.
    apply list_elem_of_fmap. exists (j, qp). split; [reflexivity|].
    by apply elem_of_map_to_list.
  - intros k qp Hk. destruct (Hrej _ _ Hk) as [rj Hrj]. exists rj.
    split; [exact Hrj|]. eapply sweep_rejects; [|exact Hk|exact Hrj].
    apply list_elem_of_fmap. exists (k, qp). split; [reflexivity|].
    by apply elem_of_map_to_list.
  - apply sweep_conn.
Qed.

(** ** The reply timeout *)

Section ReplyTimeout.
Context `{UuidSource}.

(** A reply that arrives first takes the entry out and clears the timer:
    the timeout can no longer fire. *)
Lemma reply_cancels_timeout (w : Runtime) (reply : Message.t) pr h :
  promises w !! prop_key (Message.replyToId reply)
    = Some {| promise := pr; timeout := Some h |} ->
  timers (handleReplyMessage reply w) !! h = None /\
  fire_timer h (handleReplyMessage reply w) = handleReplyMessage reply w.
Proof.
  intros Hk. unfold handleReplyMessage. rewrite Hk.
  cbn [timeout clearTimeout].
  assert (timers (record_call
            (Resolved (resolve (promise {| promise := pr; timeout := Some h |}))
               (Message.payload reply) reply)
            (set_timers (delete h)
               (set_promises (delete (prop_key (Message.replyToId reply))) w))) !! h
          = None) as Hgone by apply lookup_delete_eq.
  split; [exact Hgone|]. unfold fire_timer. by rewrite Hgone.
Qed.

(** C4. A message sent by [sendMessage] with a reply promise and
    [timeoutSeconds > 0] leaves an entry in the outstanding-reply map and a
    pending timer.  If that timer fires while the entry is still there (no
    reply was received), the promise is rejected with a reason that contains
    the message's payload type, the entry is removed, and the connection is
    closed.  The message itself is handed to the connection when it has an
    id; when a middleware took the id away, [sendMessage] throws on its log
    line after the entry and the timer were stored, and what is said about
    the timeout holds all the same. *)
Theorem reply_timeout_rejects (p : t) (message : Message.t)
    (pr : ExportedPromise) (rj : callback) (secs : Z) (w : Runtime)
    (message' : Message.t) :
  (0 < secs)%Z ->
  reject pr = Some rj ->
  run_beforeSend (middlewares p) (ensure_id message w).1 (Some pr) = Some message' ->
  let w1 := state_of (sendMessage p message (Some pr) (Some secs) w) in
  let k := prop_key (Message.id message') in
  exists h,
    promises w1 !! k = Some {| promise := pr; timeout := Some h |} /\
    timers w1 !! h = Some (ReplyTimeout (name p) message', (secs * 1000)%Z) /\
    sent w1 = (sent w ++ match Message.id message' with
                         | Some _ => [message']
                         | None => []
                         end)%list /\
    (is_Some (Message.id message') <->
     exists w', sendMessage p message (Some pr) (Some secs) w = Normal w') /\
    forall w2,
      promises w2 !! k = Some {| promise := pr; timeout := Some h |} ->
      timers w2 !! h = Some (ReplyTimeout (name p) message', (secs * 1000)%Z) ->
      let w3 := fire_timer h w2 in
      (exists reason,
         calls w3 = (calls w2 ++ [Rejected rj (Some reason)])%list /\
         contains reason (template (Message.type message'))) /\
      promises w3 !! k = None /\
      closed w3 = true /\
      timers w3 !! h = None.
Proof.
  intros Hsecs Hrj Hrun w1 k. subst w1 k. unfold sendMessage.
  destruct (ensure_id message w) as [m0 w0] eqn:Hid. cbn [fst] in Hrun.
  rewrite Hrun. unfold setReplyTimeout.
  rewrite (proj2 (Z.ltb_lt 0 secs) Hsecs). cbn [setTimeout].
  assert (sent w0 = sent w) as Hsent.
  { unfold ensure_id in Hid. destruct (Message.id message) as [[|? ?]|];
      injection Hid as <- <-; reflexivity. }
  exists (nextTimer w0).
  split; [destruct (Message.id message'); apply lookup_insert_eq|].
  split; [destruct (Message.id message'); apply lookup_insert_eq|].
  split; [destruct (Message.id message'); cbn; by rewrite Hsent, ?app_nil_r|].
  split.
  { destruct (Message.id message') as [i|]; split.
    - intros _. eexists. reflexivity.
    - intros _. by exists i.
    - intros [i Hi]. discriminate.
    - intros [w' Hw']. discriminate. }
  intros w2 Hentry Htimer.
  assert (fire_timer (nextTimer w0) w2 =
          close (record_call
                   (Rejected rj (Some (timeout_reason (name p) message')))
                   (set_promises (delete (prop_key (Message.id message')))
                      (set_timers (delete (nextTimer w0))
                         (set_timers (delete (nextTimer w0)) w2))))) as ->.
  { unfold fire_timer. rewrite Htimer. unfold rejectPromiseForMessage.
    cbn [promises set_timers]. rewrite Hentry. cbn [promise timeout]. by rewrite Hrj. }
  repeat split.
  - exists (timeout_reason (name p) message'). split; [reflexivity|].
    apply timeout_reason_contains_type.
  - cbn. apply lookup_delete_eq.
  - cbn. apply lookup_delete_eq.
Qed.

End ReplyTimeout.

End ProtocolFacts.

(** * Facts about the actor cache *)

Module ActorCacheFacts.
Import Json JsonFacts Session.

#[local] Arguments deepmerge : simpl never.

Lemma guard_redundant k (pt : option value) :
  truthy pt && truthy (oget k pt) = truthy (oget k pt).
Proof.
  destruct pt as [[| | | | |m]|]; try reflexivity.
  - by destruct b.
  - simpl. by destruct (n =? 0)%Z.
  - by destruct s.
Qed.

Lemma truthy_oget_obj k (o : option value) :
  truthy (oget k o) = true -> exists m x, o = Some (VObj m) /\ m !! k = Some x
                                          /\ truthy (Some x) = true.
Proof.
  destruct o as [[| | | | |m]|]; try discriminate.
  simpl. destruct (m !! k) as [x|] eqn:E; [|discriminate]. eauto.
Qed.

Lemma alter_known {A} (f : A -> A) k (m : gmap string A) x :
  m !! k = Some x -> alter f k m = <[k := f x]> m.
Proof.
  intros Hk. apply map_eq. intros j. destruct (decide (k = j)) as [->|].
  - by rewrite lookup_alter_eq, lookup_insert_eq, Hk.
  - by rewrite lookup_alter_ne, lookup_insert_ne.
Qed.

Lemma truthy_absorbs x u :
  absorbs x u -> truthy (Some u) = true -> truthy (Some x) = true.
Proof.
  intros Hx Hu. destruct u as [| | | | |mu];
    try (apply absorbs_nonobj in Hx; [by subst|intros ? ?; discriminate]).
  destruct (absorbs_obj _ _ Hx) as [mx ->]. reflexivity.
Qed.

Lemma drop_position_rotation_obj m :
  exists m', drop_position_rotation (VObj m) = VObj m' /\
    forall j, m' !! j =
      if bool_decide (j = "position") || bool_decide (j = "rotation")
      then None else m !! j.
Proof.
  eexists. split; [reflexivity|]. intros j.
  repeat case_bool_decide; subst; simpl.
  - by rewrite lookup_delete_ne, lookup_delete_eq.
  - by rewrite lookup_delete_ne, lookup_delete_eq.
  - by rewrite lookup_delete_eq.
  - by rewrite !lookup_delete_ne.
Qed.

Lemma del_obj k m :
  exists m', del k (VObj m) = VObj m' /\
    forall j, m' !! j = if bool_decide (j = k) then None else m !! j.
Proof.
  eexists. split; [reflexivity|]. intros j. case_bool_decide; subst.
  - by rewrite lookup_delete_eq.
  - by rewrite lookup_delete_ne.
Qed.

Lemma del_nonobj k v : (forall m, v <> VObj m) -> del k v = v.
Proof. intros Hv. destruct v; try reflexivity. by destruct (Hv m). Qed.

Lemma drop_position_rotation_nonobj v :
  (forall m, v <> VObj m) -> drop_position_rotation v = v.
Proof. intros Hv. destruct v; try reflexivity. by destruct (Hv m). Qed.

Lemma drop_position_rotation_twice l :
  drop_position_rotation (drop_position_rotation l) = drop_position_rotation l.
Proof.
  destruct l; try reflexivity. unfold drop_position_rotation. simpl. f_equal.
  apply map_eq. intros j. rewrite !lookup_delete.
  repeat case_decide; reflexivity.
Qed.

Lemma truthy_drop_position_rotation l :
  truthy (Some (drop_position_rotation l)) = truthy (Some l).
Proof. by destruct l. Qed.

(** The tests of [cacheActorUpdateMessage] without the redundant
    [patchTransform &&]. *)
Lemma strip_transform_unfold patch merged :
  strip_transform patch merged =
  if contains_app patch then
    match get "transform" merged with
    | None | Some VNull => None
    | Some ct =>
        if truthy (get "local" ct) then Some (under "transform" strip_local merged)
        else if contains_local patch then Some (under "transform" (del "app") merged)
        else Some merged
    end
  else if contains_local patch then
    match get "transform" merged with
    | None | Some VNull => None
    | Some _ => Some (under "transform" (del "app") merged)
    end
  else Some merged.
Proof.
  unfold strip_transform, contains_app, contains_local.
  by rewrite !guard_redundant.
Qed.

(** Where the update carries a transform object, the merged actor holds a
    transform object that absorbs it. *)
Lemma merged_transform patch merged k :
  absorbs merged patch ->
  truthy (oget k (get "transform" patch)) = true ->
  exists mp mtu mm mt,
    patch = VObj mp /\ mp !! "transform" = Some (VObj mtu) /\
    merged = VObj mm /\ mm !! "transform" = Some (VObj mt) /\
    absorbs (VObj mt) (VObj mtu).
Proof.
  intros Hab Hk.
  destruct (truthy_oget_obj _ _ Hk) as (mtu & x & Hpt & _ & _).
  destruct patch as [| | | | |mp]; try discriminate. simpl in Hpt.
  destruct (absorbs_obj _ _ Hab) as [mm ->].
  destruct (absorbs_get _ _ _ _ Hab Hpt) as (t & Ht & Habt).
  destruct (absorbs_obj _ _ Habt) as [mt ->].
  by exists mp, mtu, mm, mt.
Qed.

(** An update that carries [local] leaves a truthy [local] in the merged
    transform. *)
Lemma merged_local_truthy mt mtu :
  absorbs (VObj mt) (VObj mtu) ->
  truthy (mtu !! "local") = true -> truthy (mt !! "local") = true.
Proof.
  intros Hab Hl. destruct (mtu !! "local") as [lu|] eqn:E; [|discriminate].
  destruct (absorbs_get _ _ _ _ Hab E) as (l & -> & Habl).
  by eapply truthy_absorbs.
Qed.

(** The strip never reads through a missing transform: the update was merged
    in just before. *)
Lemma strip_transform_defined patch merged :
  absorbs merged patch -> is_Some (strip_transform patch merged).
Proof.
  intros Hab. rewrite strip_transform_unfold.
  destruct (contains_app patch) eqn:Ha.
  - destruct (merged_transform _ _ _ Hab Ha) as (mp&mtu&mm&mt&->&Hp&->&Hm&_).
    simpl. rewrite Hm. repeat case_match; eauto.
  - destruct (contains_local patch) eqn:Hl; [|eauto].
    destruct (merged_transform _ _ _ Hab Hl) as (mp&mtu&mm&mt&->&Hp&->&Hm&_).
    simpl. rewrite Hm. eauto.
Qed.

Lemma under_known k f m x :
  m !! k = Some x -> under k f (VObj m) = VObj (<[k := f x]> m).
Proof. intros Hk. unfold under. by rewrite (alter_known _ _ _ _ Hk). Qed.

Lemma under_insert k f (m : gmap string value) x :
  under k f (VObj (<[k := x]> m)) = VObj (<[k := f x]> m).
Proof. unfold under. by rewrite alter_insert_eq. Qed.

Lemma strip_local_known mt l :
  mt !! "local" = Some l ->
  strip_local (VObj mt) = VObj (<["local" := drop_position_rotation l]> mt).
Proof. apply under_known. Qed.

Lemma strip_local_insert (mt : gmap string value) l :
  strip_local (VObj (<["local" := l]> mt)) =
  VObj (<["local" := drop_position_rotation l]> mt).
Proof. apply under_insert. Qed.

(** Stripping, merging the same update again and stripping again gives what
    the first strip gave. *)
Lemma strip_transform_again patch merged actor :
  absorbs merged patch ->
  strip_transform patch merged = Some actor ->
  strip_transform patch (deepmerge actor patch) = Some actor.
Proof.
  intros Hab. rewrite !strip_transform_unfold.
  destruct (contains_app patch) eqn:Ha.
  - destruct (merged_transform _ _ _ Hab Ha) as (mp&mtu&mm&mt&->&Hp&->&Hm&Habt).
    cbn [get]. rewrite Hm.
    assert (Hpl : contains_local (VObj mp) = truthy (mtu !! "local")).
    { unfold contains_local. cbn [get]. by rewrite Hp. }
    destruct (truthy (get "local" (VObj mt))) eqn:Hl.
    + (* position and rotation were deleted *)
      intros [= <-]. cbn [get] in Hl.
      destruct (mt !! "local") as [l|] eqn:El; [|discriminate].
      rewrite (alter_known _ _ _ _ Hm), (strip_local_known _ _ El).
      rewrite (deepmerge_after_change _ _ _ _ Hab), Hp.
      rewrite (deepmerge_after_change _ _ _ _ Habt).
      set (l' := match mtu !! "local" with
                 | Some uk => deepmerge (drop_position_rotation l) uk
                 | None => drop_position_rotation l
                 end).
      assert (Hl' : truthy (Some l') = true /\
                    drop_position_rotation l' = drop_position_rotation l).
      { subst l'. destruct (mtu !! "local") as [lu|] eqn:Eu.
        - destruct (absorbs_get _ _ _ _ Habt Eu) as (l0 & El0 & Habl).
          rewrite El in El0. injection El0 as <-. split.
          + destruct lu as [| | | | |ml];
              try (rewrite deepmerge_nonobj_source by (intros ? ?; discriminate);
                   apply absorbs_nonobj in Habl; [by subst l|intros ? ?; discriminate]).
            by destruct (deepmerge_is_obj (drop_position_rotation l) ml) as [? ->].
          + apply (delete_merge_delete _ _ drop_position_rotation_obj
                     drop_position_rotation_nonobj _ _ Habl).
        - split; [by rewrite truthy_drop_position_rotation
                 |apply drop_position_rotation_twice]. }
      destruct Hl' as [Ht Hd].
      cbn [get]. rewrite !lookup_insert_eq. cbn [get]. rewrite lookup_insert_eq, Ht.
      by rewrite under_insert, strip_local_insert, Hd.
    + (* the update carries no [local] either: nothing was stripped *)
      assert (Hnl : truthy (mtu !! "local") = false).
      { destruct (truthy (mtu !! "local")) eqn:E; [|reflexivity].
        cbn [get] in Hl. by rewrite (merged_local_truthy _ _ Habt E) in Hl. }
      rewrite Hpl, Hnl. intros [= <-]. rewrite Hab.
      cbn [get] in Hl |- *. rewrite Hm. cbn [get]. by rewrite Hl.
  - destruct (contains_local patch) eqn:Hl.
    + (* [app] was deleted *)
      destruct (merged_transform _ _ _ Hab Hl) as (mp&mtu&mm&mt&->&Hp&->&Hm&Habt).
      cbn [get]. rewrite Hm. intros [= <-].
      rewrite (alter_known _ _ _ _ Hm).
      rewrite (deepmerge_after_change _ _ _ _ Hab), Hp.
      destruct (deepmerge_is_obj (del "app" (VObj mt)) mtu) as [m2 E2].
      cbn [get]. rewrite lookup_insert_eq, E2, under_insert, <- E2.
      do 3 f_equal.
      apply (delete_merge_delete _ _ (del_obj "app") (del_nonobj "app") _ _ Habt).
    + intros [= <-]. by rewrite Hab.
Qed.

Lemma falsy_no_member k (o : option value) : truthy o = false -> oget k o = None.
Proof. by destruct o as [[| | | | |m]|]. Qed.

Lemma get_position_dropped l : get "position" (drop_position_rotation l) = None.
Proof.
  unfold drop_position_rotation.
  by rewrite get_del_ne, get_del.
Qed.

Lemma get_rotation_dropped l : get "rotation" (drop_position_rotation l) = None.
Proof. apply get_del. Qed.

(** What the strip guarantees about the cached transform it returns. *)
Lemma strip_transform_excludes patch merged actor :
  strip_transform patch merged = Some actor ->
  if contains_app patch then
    path ["transform"; "local"; "position"] actor = None /\
    path ["transform"; "local"; "rotation"] actor = None
  else if contains_local patch then path ["transform"; "app"] actor = None
  else True.
Proof.
  rewrite strip_transform_unfold. unfold path. cbn [foldl].
  assert (Hsome : forall k v, oget k (Some v) = get k v) by reflexivity.
  rewrite !Hsome.
  destruct (contains_app patch).
  - destruct (get "transform" merged) as [ct|] eqn:Ect; [|discriminate].
    assert (Hkeep : truthy (get "local" ct) = false ->
              oget "position" (get "local" ct) = None /\
              oget "rotation" (get "local" ct) = None).
    { intros Hf. split; apply (falsy_no_member _ _ Hf). }
    destruct (truthy (get "local" ct)) eqn:Hl.
    + assert (Hgoal : Some (under "transform" strip_local merged) = Some actor ->
              oget "position" (oget "local" (get "transform" actor)) = None /\
              oget "rotation" (oget "local" (get "transform" actor)) = None).
      { intros [= <-]. rewrite get_under, Ect.
        cbn [fmap option_fmap option_map]. rewrite Hsome.
        unfold strip_local. rewrite get_under.
        destruct (get "local" ct) as [l|]; [|done].
        cbn [fmap option_fmap option_map]. rewrite !Hsome.
        split; [apply get_position_dropped|apply get_rotation_dropped]. }
      destruct ct; first [discriminate | assumption].
    + assert (Hgoal : forall a,
              a = merged \/ a = under "transform" (del "app") merged ->
              oget "position" (oget "local" (get "transform" a)) = None /\
              oget "rotation" (oget "local" (get "transform" a)) = None).
      { intros a [->| ->].
        - rewrite Ect, Hsome. by apply Hkeep.
        - rewrite get_under, Ect. cbn [fmap option_fmap option_map].
          rewrite Hsome, get_del_ne by done. by apply Hkeep. }
      destruct ct; try discriminate;
        (destruct (contains_local patch); intros [= <-]; apply Hgoal; auto).
  - destruct (contains_local patch); [|done].
    destruct (get "transform" merged) as [ct|] eqn:Ect; [|discriminate].
    assert (Hgoal : Some (under "transform" (del "app") merged) = Some actor ->
            oget "app" (get "transform" actor) = None).
    { intros [= <-]. rewrite get_under, Ect.
      cbn [fmap option_fmap option_map]. rewrite Hsome. apply get_del. }
    destruct ct; first [discriminate | assumption].
Qed.

(** The cached actor after [store]: the session holds the new actor state
    under the same key. *)
Lemma cached_actor_stored (a : SyncActor) actor :
  cached_actor
    (set_initialization
       (Message.set_payload
          (<["actor" := actor]> (Message.payload (initialization a)))
          (initialization a)) a) = Some actor.
Proof. unfold cached_actor. simpl. apply lookup_insert_eq. Qed.

(** C1. For every cached actor and every actor update, after
    [cacheActorUpdateMessage] has merged the update's actor into the cached
    actor: if the update contains [transform.app], the cached transform has
    neither [local.position] nor [local.rotation]; otherwise, if the update
    contains [transform.local], the cached transform has no [app].  The call
    returns normally, and the cached actor is the merge of the update into
    the previous state, stripped. *)
Theorem cacheActorUpdateMessage_transform_exclusion
    (s : t) (message : Message.t) (patch : value) (syncActor : SyncActor) :
  payload_actor message = Some patch ->
  actorSet s !! key (get "id" patch) = Some syncActor ->
  exists s' syncActor' actor',
    cacheActorUpdateMessage message s = Normal s' /\
    actorSet s' !! key (get "id" patch) = Some syncActor' /\
    cached_actor syncActor' = Some actor' /\
    strip_transform patch (deepmerge_into (cached_actor syncActor) patch)
      = Some actor' /\
    if contains_app patch then
      path ["transform"; "local"; "position"] actor' = None /\
      path ["transform"; "local"; "rotation"] actor' = None
    else if contains_local patch then path ["transform"; "app"] actor' = None
    else True.
Proof.
  intros Hpatch Hcached. unfold cacheActorUpdateMessage.
  rewrite Hpatch, Hcached.
  destruct (strip_transform_defined patch
              (deepmerge_into (cached_actor syncActor) patch)
              (absorbs_merge_into _ _)) as [actor Hactor].
  unfold cached_actor in Hactor. rewrite Hactor.
  eexists _, _, actor. split; [reflexivity|].
  split; [apply lookup_insert_eq|].
  split; [apply cached_actor_stored|].
  split; [exact Hactor|].
  by apply (strip_transform_excludes _ _ _ Hactor).
Qed.

(** C3. Applying the cache update of an actor-update message twice leaves
    the session as applying it once does: the second application returns
    the state (and the completion) of the first.  The merge itself is
    idempotent: [deepmerge (deepmerge t u) u = deepmerge t u]. *)
Theorem cacheActorUpdateMessage_idempotent (s : t) (message : Message.t) :
  cacheActorUpdateMessage message (state_of (cacheActorUpdateMessage message s))
    = cacheActorUpdateMessage message s
  /\ forall t u, deepmerge (deepmerge t u) u = deepmerge t u.
Proof.
  split; [|intros; apply deepmerge_idem].
  unfold cacheActorUpdateMessage.
  destruct (payload_actor message) as [patch|]; [|reflexivity].
  destruct (actorSet s !! key (get "id" patch)) as [syncActor|] eqn:Hcached;
    [|cbn [state_of]; by rewrite Hcached].
  pose proof (absorbs_merge_into
                (Message.payload (initialization syncActor) !! "actor") patch) as Hab.
  destruct (strip_transform_defined _ _ Hab) as [actor Hactor].
  rewrite Hactor. cbn [state_of].
  cbn [actorSet set_actorSet]. rewrite lookup_insert_eq.
  cbn [initialization set_initialization Message.payload Message.set_payload].
  rewrite lookup_insert_eq. cbn [deepmerge_into].
  rewrite (strip_transform_again _ _ _ Hab Hactor).
  unfold set_actorSet. cbn. by rewrite !insert_insert_eq.
Qed.

(** C9. An initialize-actor message for an actor that is cached as a
    reserved placeholder (its initialization has payload type
    [x-reserve-actor]): the cached initialization becomes the incoming
    message with its payload's [actor] replaced by the reserved actor state;
    every other member of the message is the incoming one, the bookkeeping of
    the cache entry ([actorId], [exclusiveToUser]) stays, and no other actor
    is touched. *)
Theorem cacheInitializeActorMessage_reserved
    (s : t) (message : Message.t) (actor : value) (syncActor : SyncActor) :
  payload_actor message = Some actor ->
  actorSet s !! key (get "id" actor) = Some syncActor ->
  is_str (Message.type (initialization syncActor)) "x-reserve-actor" = true ->
  exists s' message' syncActor',
    cacheInitializeActorMessage message s = Normal (s', message') /\
    actorSet s' !! key (get "id" actor) = Some syncActor' /\
    initialization syncActor' = message' /\
    Message.payload message' !! "actor" = cached_actor syncActor /\
    (forall k, k <> "actor" ->
       Message.payload message' !! k = Message.payload message !! k) /\
    Message.id message' = Message.id message /\
    Message.replyToId message' = Message.replyToId message /\
    actorId syncActor' = actorId syncActor /\
    exclusiveToUser syncActor' = exclusiveToUser syncActor /\
    (forall k, k <> key (get "id" actor) -> actorSet s' !! k = actorSet s !! k).
Proof.
  intros Hactor Hcached Hreserved. unfold cacheInitializeActorMessage.
  rewrite Hactor, Hcached, Hreserved.
  eexists _, _, _. split; [reflexivity|].
  split; [apply lookup_insert_eq|].
  split; [reflexivity|].
  split.
  { unfold cached_actor. cbn [Message.payload Message.set_payload with_actor].
    destruct (Message.payload (initialization syncActor) !! "actor");
      [apply lookup_insert_eq|apply lookup_delete_eq]. }
  split.
  { intros k Hk. cbn [Message.payload Message.set_payload]. unfold with_actor.
    destruct (Message.payload (initialization syncActor) !! "actor");
      [by rewrite lookup_insert_ne|by rewrite lookup_delete_ne]. }
  repeat (split; [reflexivity|]).
  intros k Hk. cbn [actorSet set_actorSet]. by rewrite lookup_insert_ne.
Qed.

End ActorCacheFacts.

(** * Facts about the asset cache *)

Module AssetCacheFacts.
Import Json JsonFacts Session.

Lemma bool_decide_elem_of_cons (x y : string) (l : list string) :
  bool_decide (x ∈ y :: l) = bool_decide (x = y) || bool_decide (x ∈ l).
Proof. rewrite <- bool_decide_or. apply bool_decide_ext, elem_of_cons. Qed.

Lemma foldl_delete_assets (made : list SyncAsset) (s : t) :
  assetCreatorSet (foldl (fun s a => set_assetSet (delete (key (id a))) s) s made)
    = assetCreatorSet s /\
  forall k,
    assetSet (foldl (fun s a => set_assetSet (delete (key (id a))) s) s made) !! k
    = if bool_decide (k ∈ map (fun a => key (id a)) made) then None
      else assetSet s !! k.
Proof.
  revert s. induction made as [|a made IH]; intros s; simpl.
  - split; reflexivity.
  - destruct (IH (set_assetSet (delete (key (id a))) s)) as [IH1 IH2].
    split; [by rewrite IH1|]. intros k. rewrite IH2.
    cbn [assetSet set_assetSet]. rewrite lookup_delete.
    cbn [map]. rewrite bool_decide_elem_of_cons.
    case_decide as Hk.
    + subst k. rewrite (bool_decide_eq_true_2 (_ = _)) by done. simpl.
      by case_bool_decide.
    + by rewrite (bool_decide_eq_false_2 (k = _)) by done.
Qed.

Lemma elem_of_assets (s : t) a :
  a ∈ assets s <-> exists k, assetSet s !! k = Some a.
Proof.
  unfold assets. rewrite list_elem_of_fmap. split.
  - intros ([k a'] & -> & Hin). exists k. by apply elem_of_map_to_list in Hin.
  - intros [k Hk]. exists (k, a). split; [reflexivity|].
    by apply elem_of_map_to_list.
Qed.

Lemma elem_of_assetCreators (s : t) c :
  c ∈ assetCreators s <-> exists k, assetCreatorSet s !! k = Some c.
Proof.
  unfold assetCreators. rewrite list_elem_of_fmap. split.
  - intros ([k c'] & -> & Hin). exists k. by apply elem_of_map_to_list in Hin.
  - intros [k Hk]. exists (k, c). split; [reflexivity|].
    by apply elem_of_map_to_list.
Qed.

(** The inner loop removes exactly the assets the creator made. *)
Lemma unload_assets_of_lookup (c : Message.t) (s : t) :
  assets_keyed s ->
  assetCreatorSet (unload_assets_of c s) = assetCreatorSet s /\
  forall k,
    assetSet (unload_assets_of c s) !! k =
    match assetSet s !! k with
    | Some a => if bool_decide (creatorMessageId a = Message.id c) then None else Some a
    | None => None
    end.
Proof.
  intros Hkeyed. unfold unload_assets_of.
  destruct (foldl_delete_assets
              (filter (fun a => creatorMessageId a = Message.id c) (assets s)) s)
    as [H1 H2].
  split; [exact H1|]. intros k. rewrite H2.
  destruct (assetSet s !! k) as [a|] eqn:Ek.
  - case_bool_decide as Hin; case_bool_decide as Hc; try reflexivity.
    + apply list_elem_of_fmap in Hin as (a' & -> & Hin).
      apply list_elem_of_filter in Hin as [Hc' Hin].
      apply elem_of_assets in Hin as [k' Hk'].
      rewrite (Hkeyed _ _ Hk') in Ek. congruence.
    + destruct Hin. apply list_elem_of_fmap. exists a.
      split; [by rewrite (Hkeyed _ _ Ek)|].
      apply list_elem_of_filter. split; [done|].
      apply elem_of_assets. eauto.
  - by case_bool_decide.
Qed.

Lemma unload_creator_keyed (s : t) (c : Message.t) :
  assets_keyed s -> assets_keyed (unload_creator s c).
Proof.
  intros Hkeyed k a. unfold unload_creator.
  destruct (unload_assets_of_lookup c
              (set_assetCreatorSet (delete (prop_key (Message.id c))) s) Hkeyed)
    as [_ Hl].
  rewrite Hl. cbn [assetSet set_assetCreatorSet].
  destruct (assetSet s !! k) as [a'|] eqn:Ek; [|discriminate].
  case_bool_decide; [discriminate|]. intros [= <-]. by apply Hkeyed.
Qed.

(** The outer loop over any list of creators. *)
Lemma unload_creators_lookup (cs : list Message.t) (s : t) :
  assets_keyed s ->
  (forall k,
     assetCreatorSet (foldl unload_creator s cs) !! k =
     if bool_decide (k ∈ map (fun c => prop_key (Message.id c)) cs) then None
     else assetCreatorSet s !! k) /\
  (forall k,
     assetSet (foldl unload_creator s cs) !! k =
     match assetSet s !! k with
     | Some a => if created_by_any cs a then None else Some a
     | None => None
     end).
Proof.
  revert s. induction cs as [|c cs IH]; intros s Hkeyed; simpl.
  - split; intros k; [reflexivity|].
    by destruct (assetSet s !! k).
  - destruct (IH _ (unload_creator_keyed s c Hkeyed)) as [IH1 IH2].
    unfold unload_creator in IH1, IH2.
    destruct (unload_assets_of_lookup c
                (set_assetCreatorSet (delete (prop_key (Message.id c))) s) Hkeyed)
      as [Hc Ha].
    split; intros k.
    + rewrite IH1, Hc. cbn [assetCreatorSet set_assetCreatorSet].
      rewrite lookup_delete. cbn [map]. rewrite bool_decide_elem_of_cons.
      case_decide as Hk.
      * subst k. rewrite (bool_decide_eq_true_2 (_ = _)) by done. simpl.
        by case_bool_decide.
      * by rewrite (bool_decide_eq_false_2 (k = _)) by done.
    + rewrite IH2, Ha. cbn [assetSet set_assetCreatorSet].
      destruct (assetSet s !! k) as [a|]; [|reflexivity].
      unfold created_by_any. simpl. by case_bool_decide.
Qed.

Lemma elem_of_unloaded containerId (s : t) c :
  c ∈ unloaded containerId s <->
  in_container containerId c = true /\ exists k, assetCreatorSet s !! k = Some c.
Proof.
  unfold unloaded. rewrite list_elem_of_filter, elem_of_assetCreators. tauto.
Qed.

Lemma created_by_any_true cs a :
  created_by_any cs a = true <->
  exists c, c ∈ cs /\ creatorMessageId a = Message.id c.
Proof.
  unfold created_by_any. rewrite existsb_exists. split.
  - intros (c & Hin & Hc). exists c. split; [by apply list_elem_of_In|].
    by apply bool_decide_eq_true in Hc.
  - intros (c & Hin & Hc). exists c. split; [by apply list_elem_of_In|].
    by apply bool_decide_eq_true.
Qed.

(** The creator set after the unload, key by key. *)
Lemma cacheAssetUnload_creators containerId (s : t) k :
  creators_keyed s -> assets_keyed s ->
  assetCreatorSet (cacheAssetUnload containerId s) !! k =
  match assetCreatorSet s !! k with
  | Some c => if in_container containerId c then None else Some c
  | None => None
  end.
Proof.
  intros Hck Hak. unfold cacheAssetUnload. fold (unloaded containerId s).
  destruct (unload_creators_lookup (unloaded containerId s) s Hak) as [H1 _].
  rewrite H1. case_bool_decide as Hin.
  - apply list_elem_of_fmap in Hin as (c & -> & Hin).
    apply elem_of_unloaded in Hin as [Hc [k Hk]].
    rewrite (Hck _ _ Hk). simpl. by rewrite Hk, Hc.
  - destruct (assetCreatorSet s !! k) as [c|] eqn:Ek; [|reflexivity].
    destruct (in_container containerId c) eqn:Hc; [|reflexivity].
    destruct Hin. apply list_elem_of_fmap. exists c. split.
    + by rewrite (Hck _ _ Ek).
    + apply elem_of_unloaded. eauto.
Qed.

(** The asset set after the unload, key by key. *)
Lemma cacheAssetUnload_assets containerId (s : t) k :
  assets_keyed s ->
  assetSet (cacheAssetUnload containerId s) !! k =
  match assetSet s !! k with
  | Some a => if created_by_any (unloaded containerId s) a then None else Some a
  | None => None
  end.
Proof.
  intros Hak. unfold cacheAssetUnload. fold (unloaded containerId s).
  by destruct (unload_creators_lookup (unloaded containerId s) s Hak) as [_ H2].
Qed.

(** C7. After [cacheAssetUnload(containerId)]: every creator of that
    container is gone from [assetCreators]; every asset whose
    [creatorMessageId] pointed to such a creator is gone from [assets];
    the creators of other containers and the assets that do not point to a
    removed creator are unchanged; nothing is added. *)
Theorem cacheAssetUnload_cascade (containerId : string) (s : t) :
  creators_keyed s -> assets_keyed s ->
  let s' := cacheAssetUnload containerId s in
  (forall k c, assetCreatorSet s !! k = Some c ->
     in_container containerId c = true -> assetCreatorSet s' !! k = None) /\
  (forall k a kc c, assetSet s !! k = Some a ->
     creatorMessageId a = Some kc -> assetCreatorSet s !! kc = Some c ->
     in_container containerId c = true -> assetSet s' !! k = None) /\
  (forall k c, assetCreatorSet s !! k = Some c ->
     in_container containerId c = false -> assetCreatorSet s' !! k = Some c) /\
  (forall k a, assetSet s !! k = Some a ->
     (forall kc c, creatorMessageId a = Some kc -> assetCreatorSet s !! kc = Some c ->
        in_container containerId c = false) ->
     assetSet s' !! k = Some a) /\
  (forall k c, assetCreatorSet s' !! k = Some c -> assetCreatorSet s !! k = Some c) /\
  (forall k a, assetSet s' !! k = Some a -> assetSet s !! k = Some a).
Proof.
  intros Hck Hak s'. subst s'. repeat split.
  - intros k c Hk Hc. rewrite cacheAssetUnload_creators by done. by rewrite Hk, Hc.
  - intros k a kc c Hk Ha Hkc Hc. rewrite cacheAssetUnload_assets by done.
    rewrite Hk. replace (created_by_any _ a) with true; [reflexivity|].
    symmetry. apply created_by_any_true. exists c. split.
    + apply elem_of_unloaded. eauto.
    + by rewrite Ha, (Hck _ _ Hkc).
  - intros k c Hk Hc. rewrite cacheAssetUnload_creators by done. by rewrite Hk, Hc.
  - intros k a Hk Hother. rewrite cacheAssetUnload_assets by done. rewrite Hk.
    destruct (created_by_any (unloaded containerId s) a) eqn:E; [|reflexivity].
    apply created_by_any_true in E as (c & Hin & Hc).
    apply elem_of_unloaded in Hin as [Hcont [kc Hkc]].
    rewrite (Hck _ _ Hkc) in Hc.
    by rewrite (Hother _ _ Hc Hkc) in Hcont.
  - intros k c. rewrite cacheAssetUnload_creators by done.
    destruct (assetCreatorSet s !! k) as [c'|]; [|discriminate].
    by destruct (in_container containerId c').
  - intros k a. rewrite cacheAssetUnload_assets by done.
    destruct (assetSet s !! k) as [a'|]; [|discriminate].
    by destruct (created_by_any (unloaded containerId s) a').
Qed.

(** The other parts of the session are not touched by the unload. *)
Lemma foldl_delete_assets_others (made : list SyncAsset) (s : t) :
  clientSet (foldl (fun s a => set_assetSet (delete (key (id a))) s) s made)
    = clientSet s /\
  actorSet (foldl (fun s a => set_assetSet (delete (key (id a))) s) s made)
    = actorSet s /\
  conn (foldl (fun s a => set_assetSet (delete (key (id a))) s) s made) = conn s.
Proof.
  revert s. induction made as [|a made IH]; intros s; [done|]. simpl.
  by destruct (IH (set_assetSet (delete (key (id a))) s)) as (->&->&->).
Qed.

Lemma cacheAssetUnload_others containerId (s : t) :
  clientSet (cacheAssetUnload containerId s) = clientSet s /\
  actorSet (cacheAssetUnload containerId s) = actorSet s /\
  conn (cacheAssetUnload containerId s) = conn s.
Proof.
  unfold cacheAssetUnload.
  generalize (filter (fun c => in_container containerId c = true) (assetCreators s)).
  intros cs. revert s. induction cs as [|c cs IH]; intros s; [done|]. simpl.
  destruct (IH (unload_creator s c)) as (->&->&->).
  unfold unload_creator, unload_assets_of.
  destruct (foldl_delete_assets_others
              (filter (fun a => creatorMessageId a = Message.id c)
                 (assets (set_assetCreatorSet (delete (prop_key (Message.id c))) s)))
              (set_assetCreatorSet (delete (prop_key (Message.id c))) s))
    as (->&->&->).
  done.
Qed.

(** ** The create-then-update collapse *)

(** [cacheAssetCreation] never changes a creator: the asset object it tests
    for a buffered update is the one it has just made. *)
Lemma cacheAssetCreation_keeps_creators assetId creatorId duration (s : t) :
  assetCreatorSet (state_of (cacheAssetCreation assetId creatorId duration s))
    = assetCreatorSet s.
Proof.
  unfold cacheAssetCreation.
  destruct (assetCreatorSet s !! creatorId) as [creator|]; [|reflexivity].
  cbn [update set_creatorMessageId].
  by destruct (is_str (Message.type creator) "create-asset").
Qed.

(** The asset record that [cacheAssetCreation] stores. *)
Lemma cacheAssetCreation_stores assetId creatorId duration (s : t) :
  assetSet (state_of (cacheAssetCreation assetId creatorId duration s)) !! assetId
    = Some {| id := Some (VStr assetId); duration := duration;
              creatorMessageId := Some creatorId; update := None |}.
Proof.
  unfold cacheAssetCreation.
  destruct (assetCreatorSet s !! creatorId) as [creator|];
    [|apply lookup_insert_eq].
  cbn [update set_creatorMessageId].
  destruct (is_str (Message.type creator) "create-asset"); apply lookup_insert_eq.
Qed.

End AssetCacheFacts.

(** * Facts about the client order and the election *)

Module ElectionFacts.
Import Json Session.

#[local] Open Scope Z_scope.

(** ** Sorting by [order] *)

Lemma insert_by_order_perm c l : Client.insert_by_order c l ≡ₚ c :: l.
Proof.
  induction l as [|d l IH]; simpl; [reflexivity|].
  destruct (Client.order c <=? Client.order d); [reflexivity|].
  rewrite IH. apply Permutation_swap.
Qed.

Lemma sort_by_order_perm l : Client.sort_by_order l ≡ₚ l.
Proof.
  induction l as [|c l IH]; simpl; [reflexivity|].
  by rewrite insert_by_order_perm, IH.
Qed.

Lemma elem_of_sort_by_order c l : c ∈ Client.sort_by_order l <-> c ∈ l.
Proof. by rewrite sort_by_order_perm. Qed.

Lemma insert_by_order_ordered c l :
  Client.ordered l -> Client.ordered (Client.insert_by_order c l).
Proof.
  induction l as [|d l IH]; simpl; intros Hl.
  - split; [|done]. intros d Hd. by apply elem_of_nil in Hd.
  - destruct Hl as [Hd Hl].
    destruct (Client.order c <=? Client.order d) eqn:E.
    + apply Z.leb_le in E. simpl. repeat split; [|done|done].
      intros e He. apply elem_of_cons in He as [->|He]; [done|].
      specialize (Hd e He). lia.
    + apply Z.leb_gt in E. simpl. split; [|by apply IH].
      intros e He. rewrite insert_by_order_perm in He.
      apply elem_of_cons in He as [->|He]; [lia|by apply Hd].
Qed.

Lemma sort_by_order_ordered l : Client.ordered (Client.sort_by_order l).
Proof.
  induction l as [|c l IH]; simpl; [done|]. by apply insert_by_order_ordered.
Qed.

(** Sorting a sorted list changes nothing: the second [sort] in
    [Client.authoritative] is the identity on [session.clients]. *)
Lemma sort_by_order_of_ordered l : Client.ordered l -> Client.sort_by_order l = l.
Proof.
  induction l as [|c l IH]; simpl; [done|]. intros [Hc Hl]. rewrite (IH Hl).
  destruct l as [|d l]; [reflexivity|]. simpl.
  rewrite (proj2 (Z.leb_le _ _)); [reflexivity|]. apply Hc, list_elem_of_here.
Qed.

Lemma sort_by_order_twice l :
  Client.sort_by_order (Client.sort_by_order l) = Client.sort_by_order l.
Proof. apply sort_by_order_of_ordered, sort_by_order_ordered. Qed.

(** The first client of a sorted list has the least [order]. *)
Lemma head_least l h :
  head (Client.sort_by_order l) = Some h ->
  h ∈ l /\ forall c, c ∈ l -> Client.order h <= Client.order c.
Proof.
  intros Hh. pose proof (sort_by_order_ordered l) as Hord.
  destruct (Client.sort_by_order l) as [|h' t] eqn:E; [discriminate|].
  injection Hh as ->. split.
  - apply elem_of_sort_by_order. rewrite E. apply list_elem_of_here.
  - intros c Hc. apply elem_of_sort_by_order in Hc. rewrite E in Hc.
    apply elem_of_cons in Hc as [->|Hc]; [lia|]. by apply Hord.
Qed.

(** Two sorted lists of the same clients are the same list when no two
    clients share an [order] ([Client.orderSequence++] hands every client its
    own): the order in which [Object.values] enumerates the client set does
    not show in [clients]. *)
Lemma ordered_perm_unique (l l' : list Client.t) :
  Client.ordered l -> Client.ordered l' -> l ≡ₚ l' ->
  (forall c d, c ∈ l -> d ∈ l -> Client.order c = Client.order d -> c = d) ->
  l = l'.
Proof.
  revert l'. induction l as [|h l IH]; intros l' Hl Hl' Hperm Hdistinct.
  - by apply Permutation_nil_l in Hperm.
  - destruct l' as [|h' l'].
    { symmetry in Hperm. by apply Permutation_nil_cons in Hperm. }
    destruct Hl as [Hh Hl]. destruct Hl' as [Hh' Hl'].
    assert (h = h') as <-.
    { assert (h' ∈ h :: l) as Hin' by (rewrite Hperm; apply list_elem_of_here).
      assert (h ∈ h' :: l') as Hin by (rewrite <- Hperm; apply list_elem_of_here).
      apply elem_of_cons in Hin' as [Heq|Hin']; [done|].
      apply elem_of_cons in Hin as [Heq|Hin]; [done|].
      apply Hdistinct; [apply list_elem_of_here|by apply list_elem_of_further|].
      specialize (Hh _ Hin'). specialize (Hh' _ Hin). lia. }
    f_equal. apply IH; [done|done|by eapply Permutation_cons_inv|].
    intros c d Hc Hd. apply Hdistinct; by apply list_elem_of_further.
Qed.

Lemma clients_enumeration (s : t) (values : list Client.t) :
  values ≡ₚ map snd (map_to_list (clientSet s)) ->
  (forall c d, c ∈ values -> d ∈ values -> Client.order c = Client.order d -> c = d) ->
  Client.sort_by_order values = clients s.
Proof.
  intros Hperm Hdistinct. unfold clients.
  apply ordered_perm_unique; try apply sort_by_order_ordered.
  - by rewrite !sort_by_order_perm.
  - intros c d Hc Hd. apply Hdistinct; by apply elem_of_sort_by_order.
Qed.

(** ** [findIndex] *)

Lemma findIndex_zero {A} (f : A -> bool) l :
  (0 =? findIndex f l) = match l with
                         | [] => false
                         | h :: _ => f h
                         end.
Proof.
  destruct l as [|h t]; [reflexivity|]. simpl.
  destruct (f h); [reflexivity|].
  destruct (findIndex f t) as [|i|i]; reflexivity.
Qed.

Lemma findIndex_none {A} (f : A -> bool) l :
  (forall x, x ∈ l -> f x = false) -> findIndex f l = -1.
Proof.
  induction l as [|h t IH]; intros Hf; [reflexivity|]. simpl.
  rewrite (Hf h) by apply list_elem_of_here.
  rewrite IH; [reflexivity|]. intros x Hx. by apply Hf, list_elem_of_further.
Qed.

(** ** The client set *)

Lemma elem_of_clients (s : t) c :
  c ∈ clients s <-> exists k, clientSet s !! k = Some c.
Proof.
  unfold clients. rewrite elem_of_sort_by_order, list_elem_of_fmap. split.
  - intros ([k c'] & -> & Hin). exists k. by apply elem_of_map_to_list in Hin.
  - intros [k Hk]. exists (k, c). split; [reflexivity|].
    by apply elem_of_map_to_list.
Qed.

Lemma clients_nil (s : t) : clients s = [] <-> clientSet s = ∅.
Proof.
  split.
  - intros Hnil. apply map_eq. intros k. rewrite lookup_empty.
    destruct (clientSet s !! k) as [c|] eqn:E; [|reflexivity].
    assert (c ∈ clients s) as Hin by (apply elem_of_clients; eauto).
    rewrite Hnil in Hin. by apply elem_of_nil in Hin.
  - intros Hempty. unfold clients. by rewrite Hempty, map_to_list_empty.
Qed.

(** [Client.authoritative] says: I am the first of the session's clients. *)
Lemma authoritative_head (s : t) c :
  authoritative s c =
  match Client.session c with
  | None => None
  | Some _ =>
      Some match clients s with
           | [] => false
           | h :: _ => bool_decide (Client.id h = Client.id c)
           end
  end.
Proof.
  unfold authoritative. destruct (Client.session c); [|reflexivity].
  unfold clients at 1. by rewrite sort_by_order_twice, findIndex_zero.
Qed.

(** ** The client set along a run *)

Lemma authoritativeClient_head (s : t) :
  clients_attached s -> authoritativeClient s = Some (head (clients s)).
Proof.
  intros Hatt. unfold authoritativeClient.
  destruct (clients s) as [|h l] eqn:E; [reflexivity|]. simpl.
  assert (h ∈ clients s) as Hin by (rewrite E; apply list_elem_of_here).
  apply elem_of_clients in Hin as [k Hk]. destruct (Hatt _ _ Hk) as [sid Hsid].
  rewrite authoritative_head, Hsid, E. by rewrite bool_decide_eq_true_2.
Qed.

(** A client that is not in the client set is not the first of the
    session's clients: after [delete this._clientSet[clientId]], the test
    [client.authoritative] of [leave] cannot succeed. *)
Lemma absent_not_authoritative (s : t) client :
  clients_keyed s -> clientSet s !! Client.id client = None ->
  authoritative s client <> Some true.
Proof.
  intros Hkeyed Habsent. rewrite authoritative_head.
  destruct (Client.session client); [|discriminate].
  destruct (clients s) as [|h l] eqn:E; [discriminate|].
  case_bool_decide as Hid; [|discriminate].
  assert (h ∈ clients s) as Hin by (rewrite E; apply list_elem_of_here).
  apply elem_of_clients in Hin as [k Hk].
  rewrite <- Hid, (Hkeyed _ _ Hk), Hk in Habsent. discriminate.
Qed.

(** A call on the app connection changes the connection only. *)
Lemma on_conn_others call (s : t) :
  clientSet (state_of (on_conn call s)) = clientSet s /\
  same_caches s (state_of (on_conn call s)).
Proof. unfold on_conn, same_caches. by destruct (call (conn s)). Qed.

Section Election.
Context `{Externals} `{Protocol.UuidSource}.

(** [leave] takes the client out of the set and does nothing else to it:
    the election in its body is never reached. *)
Lemma leave_clientSet clientId (s : t) :
  clients_keyed s -> clientSet (leave clientId s) = delete clientId (clientSet s).
Proof.
  intros Hkeyed. unfold leave, leave_try.
  set (s1 := set_clientSet (delete clientId) s).
  assert (forall c : Completion t,
            clientSet (state_of c) = clientSet s1 ->
            clientSet (state_of
              (and_then c
                 (fun s => match clients s with
                           | [] => Normal (set_conn Protocol.close s)
                           | _ => Normal s
                           end))) = clientSet s1) as Hlast.
  { intros [s2|s2] Hs2; simpl in *; [|done]. by destruct (clients s2). }
  destruct (clientSet s !! clientId) as [client|] eqn:Hclient; [|by apply Hlast].
  apply Hlast.
  assert (forall c : Completion t,
            clientSet (state_of c) = clientSet s1 ->
            clientSet (state_of
              (and_then c
                 (fun s => match authoritative s client with
                           | None => Throw s
                           | Some true =>
                               match find isJoined (clients s) with
                               | Some nextClient =>
                                   setAuthoritativeClient (Client.id nextClient) s
                               | None => Normal s
                               end
                           | Some false => Normal s
                           end))) = clientSet s1) as Hauth.
  { intros [s2|s2] Hs2; simpl in *; [|done].
    assert (authoritative s2 client <> Some true) as Hno.
    { apply absent_not_authoritative.
      - intros k c. rewrite Hs2. subst s1. cbn [clientSet set_clientSet].
        rewrite lookup_delete. case_decide; [done|]. apply Hkeyed.
      - rewrite Hs2, (Hkeyed _ _ Hclient). subst s1.
        cbn [clientSet set_clientSet]. apply lookup_delete_eq. }
    destruct (authoritative s2 client) as [[|]|]; done. }
  apply Hauth.
  destruct (Client.userId client) as [[|a u]|]; try reflexivity.
  destruct (protocol s1); [|reflexivity]. apply on_conn_others.
Qed.

Lemma leave_invariant clientId (s : t) :
  client_invariant s -> client_invariant (leave clientId s).
Proof.
  intros [Hkeyed Hatt]. split; intros k c; rewrite leave_clientSet by done;
    rewrite lookup_delete; (case_decide; [done|]); [apply Hkeyed|apply Hatt].
Qed.

Lemma join_begin_invariant client (s : t) :
  client_invariant s -> client_invariant (join_begin client s).
Proof.
  intros [Hkeyed Hatt]. unfold join_begin.
  split; intros k c; cbn [clientSet set_clientSet]; rewrite lookup_insert;
    case_decide as Hk.
  - by intros [= <-].
  - apply Hkeyed.
  - intros [= <-]. by eexists.
  - apply Hatt.
Qed.

(** With a client in the set, the resumed [join] finds an authoritative
    client and changes nothing; with none, electing fails and [leave] runs. *)
Lemma join_resume_cases clientId (s : t) :
  client_invariant s ->
  join_resume clientId s = s \/ join_resume clientId s = leave clientId s.
Proof.
  intros [Hkeyed Hatt]. unfold join_resume.
  rewrite (authoritativeClient_head _ Hatt).
  destruct (clients s) as [|h l] eqn:E; [|by left]. right. cbn [head].
  unfold setAuthoritativeClient. rewrite (authoritativeClient_head _ Hatt).
  apply clients_nil in E. by rewrite E, lookup_empty.
Qed.

Lemma join_resume_invariant clientId (s : t) :
  client_invariant s -> client_invariant (join_resume clientId s).
Proof.
  intros Hinv. destruct (join_resume_cases clientId s Hinv) as [-> | ->];
    [done|by apply leave_invariant].
Qed.

Lemma alter_invariant (f : Client.t -> Client.t) clientId (s : t) :
  (forall c, Client.id (f c) = Client.id c) ->
  (forall c, is_Some (Client.session c) -> is_Some (Client.session (f c))) ->
  client_invariant s -> client_invariant (set_clientSet (alter f clientId) s).
Proof.
  intros Hid Hsess [Hkeyed Hatt].
  split; intros k c; cbn [clientSet set_clientSet]; rewrite lookup_alter;
    case_decide as Hk; try (apply Hkeyed || apply Hatt);
    subst k; destruct (clientSet s !! clientId) as [c0|] eqn:E; try discriminate;
    intros [= <-].
  - rewrite Hid. by apply Hkeyed.
  - apply Hsess. by eapply Hatt.
Qed.

Lemma client_closed_invariant clientId (s : t) :
  client_invariant s -> client_invariant (client_closed clientId s).
Proof.
  intros [Hkeyed Hatt]. unfold client_closed.
  assert (clients_keyed (set_clientSet (alter Client.leave clientId) s)) as Hk'.
  { intros k c. cbn [clientSet set_clientSet]. rewrite lookup_alter.
    case_decide as Hk; [|apply Hkeyed]. subst k.
    destruct (clientSet s !! clientId) as [c0|] eqn:E; [|discriminate].
    simpl. intros [= <-]. simpl. by apply Hkeyed. }
  split; intros k c; rewrite leave_clientSet by done;
    cbn [clientSet set_clientSet]; rewrite lookup_delete;
    (case_decide; [done|]); rewrite lookup_alter_ne by done;
    [apply Hkeyed|apply Hatt].
Qed.

(** The cache operations and [sendToApp] leave the client set alone. *)
Lemma cache_keeps_clients (s : t) (e : event) :
  match e with
  | InitializeActor _ | ActorUpdate _ | AssetCreationRequest _
  | AssetCreation _ _ _ | AssetUpdate _ | AssetUnload _ | ToApp _
  | Connected _ => clientSet (apply_event s e) = clientSet s
  | _ => True
  end.
Proof.
  destruct e; try exact I; cbn [apply_event]; try reflexivity.
  - unfold cacheInitializeActorMessage.
    destruct (payload_actor message) as [actor|]; [|reflexivity].
    destruct (actorSet s !! key (get "id" actor)) as [a|]; [|reflexivity].
    by destruct (is_str _ _).
  - unfold cacheActorUpdateMessage.
    destruct (payload_actor message) as [patch|]; [|reflexivity].
    destruct (actorSet s !! key (get "id" patch)) as [a|]; [|reflexivity].
    by destruct (strip_transform _ _).
  - unfold cacheAssetCreation.
    destruct (assetCreatorSet s !! creatorId) as [c|]; [|reflexivity].
    cbn [update set_creatorMessageId]. by destruct (is_str _ _).
  - unfold cacheAssetUpdate.
    destruct (payload_asset message) as [asset|]; [|reflexivity].
    cbn [assetCreatorSet set_assetSet].
    destruct (assetCreatorSet s !! _) as [c|];
      [destruct (is_str _ _); [reflexivity|]|];
      by destruct (update _).
  - apply AssetCacheFacts.cacheAssetUnload_others.
  - unfold sendToApp, on_conn. destruct (protocol s) as [p|]; [|reflexivity].
    by destruct (Protocol.sendMessage _ _ _ _ _).
Qed.

Lemma apply_event_invariant (s : t) (e : event) :
  client_invariant s -> client_invariant (apply_event s e).
Proof.
  intros Hinv. pose proof (cache_keeps_clients s e) as Hkeep.
  destruct e; cbn [apply_event] in Hkeep |- *;
    try (destruct Hinv as [Hk Ha]; split; intros k c; rewrite Hkeep;
         [apply Hk|apply Ha]).
  - by apply join_begin_invariant.
  - by apply alter_invariant.
  - by apply alter_invariant.
  - by apply alter_invariant.
  - by apply join_resume_invariant.
  - by apply leave_invariant.
  - by apply client_closed_invariant.
Qed.

Lemma run_invariant (events : list event) (s : t) :
  client_invariant s -> client_invariant (run events s).
Proof.
  revert s. induction events as [|e events IH]; intros s Hinv; [done|].
  apply IH. by apply apply_event_invariant.
Qed.

Lemma reachable_invariant (s : t) : reachable s -> client_invariant s.
Proof.
  intros (sid & pa & events & ->). apply run_invariant.
  split; intros k c; cbn; by rewrite lookup_empty.
Qed.

(** C8. In every reachable state of a session (with [peerAuthoritative] or
    without), at most one client of the session has [authoritative = true]. *)
Theorem at_most_one_authoritative (s : t) (c1 c2 : Client.t) :
  reachable s ->
  c1 ∈ clients s -> c2 ∈ clients s ->
  authoritative s c1 = Some true -> authoritative s c2 = Some true ->
  c1 = c2.
Proof.
  intros Hreach Hin1 Hin2. destruct (reachable_invariant s Hreach) as [Hkeyed _].
  apply elem_of_clients in Hin1 as [k1 Hk1]. apply elem_of_clients in Hin2 as [k2 Hk2].
  rewrite !authoritative_head.
  destruct (Client.session c1); [|discriminate].
  destruct (Client.session c2); [|discriminate].
  destruct (clients s) as [|h l]; [discriminate|].
  intros [= Hh1] [= Hh2].
  apply bool_decide_eq_true in Hh1. apply bool_decide_eq_true in Hh2.
  rewrite (Hkeyed _ _ Hk1) in Hh1. rewrite (Hkeyed _ _ Hk2) in Hh2.
  assert (k1 = k2) as -> by congruence. congruence.
Qed.

(** A session with clients has an authoritative client: the first of
    [clients]. *)
Lemma first_client_authoritative (s : t) (h : Client.t) :
  reachable s -> head (clients s) = Some h ->
  h ∈ clients s /\ authoritative s h = Some true /\
  authoritativeClient s = Some (Some h).
Proof.
  intros Hreach Hh. destruct (reachable_invariant s Hreach) as [_ Hatt].
  rewrite (authoritativeClient_head _ Hatt), Hh.
  destruct (clients s) as [|h' l] eqn:E; [discriminate|]. injection Hh as ->.
  assert (h ∈ clients s) as Hin by (rewrite E; apply list_elem_of_here).
  rewrite <- E. split; [exact Hin|]. split; [|reflexivity].
  apply elem_of_clients in Hin as [k Hk]. destruct (Hatt _ _ Hk) as [sid Hsid].
  rewrite authoritative_head, Hsid, E. by rewrite bool_decide_eq_true_2.
Qed.

(** After any [leave], the authoritative client is the oldest client left,
    whatever its phase. *)
Lemma leave_next_authority clientId (s : t) :
  client_invariant s ->
  authoritativeClient (leave clientId s) = Some (head (clients (leave clientId s))) /\
  forall h, head (clients (leave clientId s)) = Some h ->
    forall c, c ∈ clients (leave clientId s) -> Client.order h <= Client.order c.
Proof.
  intros Hinv. destruct (leave_invariant clientId s Hinv) as [_ Hatt].
  split; [by apply authoritativeClient_head|].
  intros h Hh c Hc. unfold clients in Hh. apply head_least in Hh as [_ Hleast].
  apply Hleast. by apply elem_of_sort_by_order.
Qed.

End Election.

End ElectionFacts.

(** * The cache along a run *)

Module RunFacts.
Import Json Session.

Section Runs.
Context `{Externals} `{Protocol.UuidSource}.

(** The events of clients touch the client set and the app connection only. *)
Lemma setAuthoritativeClient_cache clientId (s : t) :
  assetSet (state_of (setAuthoritativeClient clientId s)) = assetSet s /\
  assetCreatorSet (state_of (setAuthoritativeClient clientId s)) = assetCreatorSet s.
Proof.
  unfold setAuthoritativeClient.
  destruct (authoritativeClient s); [|done].
  by destruct (clientSet s !! clientId).
Qed.

Lemma leave_cache clientId (s : t) :
  assetSet (leave clientId s) = assetSet s /\
  assetCreatorSet (leave clientId s) = assetCreatorSet s.
Proof.
  unfold leave, leave_try.
  set (s1 := set_clientSet (delete clientId) s).
  assert (forall c : Completion t,
            assetSet (state_of c) = assetSet s /\
            assetCreatorSet (state_of c) = assetCreatorSet s ->
            assetSet (state_of
              (and_then c
                 (fun s => match clients s with
                           | [] => Normal (set_conn Protocol.close s)
                           | _ => Normal s
                           end))) = assetSet s /\
            assetCreatorSet (state_of
              (and_then c
                 (fun s => match clients s with
                           | [] => Normal (set_conn Protocol.close s)
                           | _ => Normal s
                           end))) = assetCreatorSet s) as Hlast.
  { intros [s2|s2] Hs2; simpl in *; [|done]. by destruct (clients s2). }
  apply Hlast.
  destruct (clientSet s !! clientId) as [client|]; [|done].
  assert (forall c : Completion t,
            assetSet (state_of c) = assetSet s /\
            assetCreatorSet (state_of c) = assetCreatorSet s ->
            let c' :=
              and_then c
                (fun s => match authoritative s client with
                          | None => Throw s
                          | Some true =>
                              match find isJoined (clients s) with
                              | Some nextClient =>
                                  setAuthoritativeClient (Client.id nextClient) s
                              | None => Normal s
                              end
                          | Some false => Normal s
                          end) in
            assetSet (state_of c') = assetSet s /\
            assetCreatorSet (state_of c') = assetCreatorSet s) as Hauth.
  { intros [s2|s2] [Ha Hc]; simpl; [|done].
    destruct (authoritative s2 client) as [[|]|]; try done.
    destruct (find isJoined (clients s2)) as [next|]; [|done].
    destruct (setAuthoritativeClient_cache (Client.id next) s2) as [-> ->]. done. }
  apply Hauth.
  destruct (Client.userId client) as [[|a u]|]; try done.
  destruct (protocol s1); [|done]. unfold on_conn.
  by destruct (Protocol.sendPayload _ _ _ _).
Qed.

Lemma join_resume_cache clientId (s : t) :
  assetSet (join_resume clientId s) = assetSet s /\
  assetCreatorSet (join_resume clientId s) = assetCreatorSet s.
Proof.
  unfold join_resume.
  destruct (authoritativeClient s) as [[c|]|]; [done| |apply leave_cache].
  pose proof (setAuthoritativeClient_cache clientId s) as Hset.
  destruct (setAuthoritativeClient clientId s) as [s2|s2]; [done|].
  simpl in Hset. destruct Hset as [<- <-]. apply leave_cache.
Qed.

(** ** The asset cache stays keyed *)

Lemma merge_definition_id asset creator :
  Message.id (merge_definition asset creator) = Message.id creator.
Proof. by destruct asset. Qed.

Lemma cacheAssetCreationRequest_keyed (message : Message.t) (s : t) :
  is_Some (Message.id message) ->
  creators_keyed s -> creators_keyed (cacheAssetCreationRequest message s).
Proof.
  intros [i Hi] Hck k c. unfold cacheAssetCreationRequest.
  cbn [assetCreatorSet set_assetCreatorSet]. rewrite Hi. cbn [prop_key default].
  rewrite lookup_insert. case_decide as Hk; [|apply Hck].
  intros [= <-]. by rewrite Hi, <- Hk.
Qed.

Lemma cacheAssetCreation_keyed assetId creatorId duration (s : t) :
  assets_keyed s ->
  assets_keyed (state_of (cacheAssetCreation assetId creatorId duration s)).
Proof.
  intros Hak. unfold cacheAssetCreation.
  assert (assets_keyed
            (set_assetSet
               <[assetId := set_creatorMessageId (Some creatorId)
                   {| id := Some (VStr assetId); duration := duration;
                      creatorMessageId := None; update := None |}]> s)) as Hins.
  { intros k a. cbn [assetSet set_assetSet]. rewrite lookup_insert.
    case_decide as Hk; [|apply Hak]. by intros [= <-]. }
  destruct (assetCreatorSet s !! creatorId) as [creator|]; [|exact Hins].
  cbn [update set_creatorMessageId].
  by destruct (is_str (Message.type creator) "create-asset").
Qed.

Lemma cacheAssetUpdate_keyed (upd : Message.t) (s : t) :
  creators_keyed s -> assets_keyed s ->
  creators_keyed (state_of (cacheAssetUpdate upd s)) /\
  assets_keyed (state_of (cacheAssetUpdate upd s)).
Proof.
  intros Hck Hak. unfold cacheAssetUpdate.
  destruct (payload_asset upd) as [asset|]; [|done].
  set (k := key (get "id" asset)).
  set (syncAsset := default _ (assetSet s !! k)).
  assert (key (id syncAsset) = k) as Hid.
  { subst syncAsset. destruct (assetSet s !! k) as [a|] eqn:E; [|reflexivity].
    by apply Hak. }
  assert (forall a, key (id a) = k ->
            assets_keyed (set_assetSet <[k := a]> (set_assetSet <[k := syncAsset]> s)))
    as Hins.
  { intros a Ha j b. cbn [assetSet set_assetSet]. rewrite !lookup_insert.
    case_decide as Hj; [by intros [= <-]; rewrite <- Hj|apply Hak]. }
  assert (assets_keyed (set_assetSet <[k := syncAsset]> s)) as Hins0.
  { intros j b. cbn [assetSet set_assetSet]. rewrite lookup_insert.
    case_decide as Hj; [by intros [= <-]; rewrite <- Hj|apply Hak]. }
  assert (creators_keyed (state_of
            match update syncAsset with
            | Some prev =>
                Normal (set_assetSet
                  <[k := set_update
                      (Some (Message.set_payload
                         (<["asset" :=
                              deepmerge_into (Message.payload prev !! "asset") asset]>
                            (Message.payload prev)) prev)) syncAsset]>
                  (set_assetSet <[k := syncAsset]> s))
            | None =>
                Normal (set_assetSet <[k := set_update (Some upd) syncAsset]>
                          (set_assetSet <[k := syncAsset]> s))
            end) /\
          assets_keyed (state_of
            match update syncAsset with
            | Some prev =>
                Normal (set_assetSet
                  <[k := set_update
                      (Some (Message.set_payload
                         (<["asset" :=
                              deepmerge_into (Message.payload prev !! "asset") asset]>
                            (Message.payload prev)) prev)) syncAsset]>
                  (set_assetSet <[k := syncAsset]> s))
            | None =>
                Normal (set_assetSet <[k := set_update (Some upd) syncAsset]>
                          (set_assetSet <[k := syncAsset]> s))
            end)) as Hother.
  { destruct (update syncAsset); (split; [exact Hck|by apply Hins]). }
  cbn [assetCreatorSet set_assetSet].
  destruct (assetCreatorSet s !! prop_key (creatorMessageId syncAsset))
    as [creator|] eqn:Ec; [|exact Hother].
  destruct (is_str (Message.type creator) "create-asset"); [|exact Hother].
  split; [|exact Hins0].
  intros j c. cbn [state_of assetCreatorSet set_assetCreatorSet set_assetSet].
  rewrite lookup_insert. case_decide as Hj; [|apply Hck].
  intros [= <-]. rewrite <- Hj. exact (Hck _ _ Ec).
Qed.

Lemma cacheAssetUnload_keyed containerId (s : t) :
  creators_keyed s -> assets_keyed s ->
  creators_keyed (cacheAssetUnload containerId s) /\
  assets_keyed (cacheAssetUnload containerId s).
Proof.
  intros Hck Hak. split; intros k x.
  - rewrite AssetCacheFacts.cacheAssetUnload_creators by done.
    destruct (assetCreatorSet s !! k) as [c|] eqn:Ek; [|discriminate].
    destruct (in_container containerId c); [discriminate|].
    intros [= <-]. exact (Hck _ _ Ek).
  - rewrite AssetCacheFacts.cacheAssetUnload_assets by done.
    destruct (assetSet s !! k) as [a|] eqn:Ek; [|discriminate].
    destruct (created_by_any _ a); [discriminate|].
    intros [= <-]. exact (Hak _ _ Ek).
Qed.

Lemma actor_cache_keeps_assets (s : t) (message : Message.t) :
  (assetSet (fst (state_of (cacheInitializeActorMessage message s))) = assetSet s /\
   assetCreatorSet (fst (state_of (cacheInitializeActorMessage message s)))
     = assetCreatorSet s) /\
  (assetSet (state_of (cacheActorUpdateMessage message s)) = assetSet s /\
   assetCreatorSet (state_of (cacheActorUpdateMessage message s)) = assetCreatorSet s).
Proof.
  unfold cacheInitializeActorMessage, cacheActorUpdateMessage.
  destruct (payload_actor message) as [actor|]; [|done].
  destruct (actorSet s !! key (get "id" actor)) as [a|]; [|done].
  split; [by destruct (is_str _ _)|by destruct (strip_transform _ _)].
Qed.

(** Every event keeps the creators under their message ids and the assets
    under their ids. *)
Lemma apply_event_keyed (s : t) (e : event) :
  identified e -> creators_keyed s -> assets_keyed s ->
  creators_keyed (apply_event s e) /\ assets_keyed (apply_event s e).
Proof.
  intros He Hck Hak.
  assert (forall s', assetSet s' = assetSet s /\ assetCreatorSet s' = assetCreatorSet s ->
            creators_keyed s' /\ assets_keyed s') as Hsame.
  { intros s' [Ha Hc]. unfold creators_keyed, assets_keyed. by rewrite Ha, Hc. }
  destruct e; cbn [apply_event]; try (by apply Hsame).
  - apply Hsame, join_resume_cache.
  - apply Hsame, leave_cache.
  - apply Hsame. unfold client_closed.
    by destruct (leave_cache clientId
                   (set_clientSet (alter Client.leave clientId) s)) as [-> ->].
  - apply Hsame, actor_cache_keeps_assets.
  - apply Hsame, actor_cache_keeps_assets.
  - split; [by apply cacheAssetCreationRequest_keyed|exact Hak].
  - split; [|by apply cacheAssetCreation_keyed].
    unfold creators_keyed.
    by rewrite AssetCacheFacts.cacheAssetCreation_keeps_creators.
  - by apply cacheAssetUpdate_keyed.
  - by apply cacheAssetUnload_keyed.
  - apply Hsame. unfold sendToApp, on_conn. destruct (protocol s) as [p|]; [|done].
    by destruct (Protocol.sendMessage _ _ _ _ _).
Qed.

Lemma run_keyed (events : list event) (s : t) :
  Forall identified events -> creators_keyed s -> assets_keyed s ->
  creators_keyed (run events s) /\ assets_keyed (run events s).
Proof.
  revert s. induction events as [|e events IH]; intros s Hev Hck Hak; [done|].
  apply Forall_cons in Hev as [He Hev].
  destruct (apply_event_keyed s e He Hck Hak) as [Hck' Hak'].
  by apply IH.
Qed.

(** In every state a session reaches through requests that carry their
    message id, the well-formedness that the unload relies on holds. *)
Lemma reachable_keyed sessionId peerAuthoritative (events : list event) :
  Forall identified events ->
  creators_keyed (run events (create sessionId peerAuthoritative)) /\
  assets_keyed (run events (create sessionId peerAuthoritative)).
Proof.
  intros Hev. apply run_keyed; [exact Hev| |]; intros k x; cbn;
    by rewrite lookup_empty.
Qed.

End Runs.

End RunFacts.

(** * Facts about the routing of client messages *)

Module RoutingFacts.
Import Json Session.

Section Routing.
Context `{Externals} `{Protocol.UuidSource}.

(** A message of a known client that no rule holds back is handed to the
    app connection. *)
Lemma known_client_forwarded (s : t) (client c : Client.t) (message : Message.t) p :
  clientSet s !! Client.id client = Some c ->
  beforeReceiveFromClient (default MissingRule (Rules (key (Message.type message))))
    = None ->
  protocol s = Some p ->
  recvFromClient client message s
    = on_conn (Protocol.sendMessage p message None None) s.
Proof.
  intros Hc Hrule Hp. unfold recvFromClient, preprocessFromClient.
  rewrite Hc, Hrule.
  destruct (truthy (Message.type message) && _); unfold sendToApp; by rewrite Hp.
Qed.

(** C10. A message from a client whose id is not in the session's client
    set: [preprocessFromClient] returns no message, [recvFromClient] does not
    call [sendToApp], and the session, with its app connection, is as it was. *)
Theorem unknown_client_dropped (s : t) (client : Client.t) (message : Message.t) :
  clientSet s !! Client.id client = None ->
  preprocessFromClient client message s = (s, None) /\
  recvFromClient client message s = Normal s /\
  Protocol.sent (conn (state_of (recvFromClient client message s)))
    = Protocol.sent (conn s).
Proof.
  intros Hunknown.
  assert (preprocessFromClient client message s = (s, None)) as Hpre.
  { unfold preprocessFromClient. by rewrite Hunknown. }
  assert (recvFromClient client message s = Normal s) as Hrecv.
  { unfold recvFromClient. by rewrite Hpre. }
  by rewrite Hrecv.
Qed.

End Routing.

End RoutingFacts.

(** * The scenarios of the specification, run on the model *)

Module Scenarios.
Import Json Session Fixtures.

(** ** Transform-space conflict (scenario 3) *)

Example transform_conflict :
  option_map cached_actor
    (actorSet (state_of (cacheActorUpdateMessage update_A1 session_with_A1)) !! "A1")
  = Some (Some
      (obj [("id", VStr "A1");
            ("transform",
             obj [("app", obj [("position", obj [("x", VNum 5)]);
                               ("rotation", obj [("w", VNum 0)])]);
                  ("local", obj [("scale", obj [("x", VNum 2)])])])])).
Proof. vm_compute. reflexivity. Qed.

Lemma cacheActorUpdateMessage_transform_exclusion_witness :
  exists s' syncActor' actor',
    cacheActorUpdateMessage update_A1 session_with_A1 = Normal s' /\
    actorSet s' !! key (get "id" patch_with_app) = Some syncActor' /\
    cached_actor syncActor' = Some actor' /\
    strip_transform patch_with_app
      (deepmerge_into (cached_actor cached_A1) patch_with_app)
      = Some actor' /\
    if contains_app patch_with_app then
      path ["transform"; "local"; "position"] actor' = None /\
      path ["transform"; "local"; "rotation"] actor' = None
    else if contains_local patch_with_app
         then path ["transform"; "app"] actor' = None
    else True.
Proof.
  apply (ActorCacheFacts.cacheActorUpdateMessage_transform_exclusion
           session_with_A1 update_A1 patch_with_app cached_A1).
  - vm_compute. reflexivity.
  - vm_compute. reflexivity.
Defined.

(** ** Reserve-then-initialize (scenario 2) *)

Example reserve_then_initialize :
  option_map initialization
    (actorSet (fst (state_of (cacheInitializeActorMessage create_A1
                                session_with_reserved))) !! "A1")
  = Some (message "m1"
            [("type", VStr "create-actor");
             ("actor", obj [("id", VStr "A1"); ("exclusiveToUser", VStr "U1")])]).
Proof. vm_compute. reflexivity. Qed.

Lemma cacheInitializeActorMessage_reserved_witness :
  exists s' message' syncActor',
    cacheInitializeActorMessage create_A1 session_with_reserved
      = Normal (s', message') /\
    actorSet s' !! "A1" = Some syncActor' /\
    initialization syncActor' = message' /\
    Message.payload message' !! "actor" = cached_actor reserved_A1 /\
    exclusiveToUser syncActor' = Some (VStr "U1").
Proof.
  destruct (ActorCacheFacts.cacheInitializeActorMessage_reserved
              session_with_reserved create_A1
              (obj [("id", VStr "A1"); ("name", VStr "cube")]) reserved_A1)
    as (s' & message' & syncActor' & Hrun & Hcached & Hinit & Hactor & _ & _ & _ & _ & Hex & _).
  - vm_compute. reflexivity.
  - vm_compute. reflexivity.
  - vm_compute. reflexivity.
  - exists s', message', syncActor'. repeat split; assumption.
Defined.

(** ** Create-then-update asset collapse (scenario 5) *)

(** C6, on the code.  The creator is a [create-asset] message and an update
    for asset [X] is buffered; [cacheAssetCreation] then stores the asset
    with its id, duration and creator, and the buffered update is gone -
    but the creator's [definition] is the one it had, not its merge with the
    buffered update's [asset] (which differs). *)
Theorem cacheAssetCreation_loses_buffered_update :
  let s' := state_of (cacheAssetCreation "X" "M1" (Some 3%Z) update_buffered) in
  is_str (Message.type create_asset_M1) "create-asset" = true /\
  (assetSet update_buffered !! "X" ≫= update) = Some update_X /\
  assetSet s' !! "X"
    = Some {| id := Some (VStr "X"); duration := Some 3%Z;
              creatorMessageId := Some "M1"; update := None |} /\
  (assetCreatorSet s' !! "M1" ≫= fun c => Message.payload c !! "definition")
    = Some (obj [("id", VStr "X"); ("name", VStr "wood")]) /\
  deepmerge (obj [("id", VStr "X"); ("name", VStr "wood")])
            (obj [("id", VStr "X"); ("name", VStr "steel")])
    = obj [("id", VStr "X"); ("name", VStr "steel")].
Proof. vm_compute. repeat split; reflexivity. Qed.

(** ** Asset unload cascade (scenario 6) *)

Example unload_cascade :
  let s' := cacheAssetUnload "CT1" two_containers in
  size (assetCreatorSet two_containers) = 3 /\
  size (assetSet two_containers) = 4 /\
  assetCreatorSet s' = {[ "M3" := loader "M3" "CT2" ]} /\
  assetSet s' = {[ "D" := {| id := Some (VStr "D"); duration := None;
                             creatorMessageId := Some "M3"; update := None |} ]}.
Proof. vm_compute. repeat split; reflexivity. Qed.

Lemma cacheAssetUnload_cascade_witness :
  creators_keyed two_containers /\
  assets_keyed two_containers /\
  assetCreatorSet (cacheAssetUnload "CT1" two_containers) !! "M1" = None /\
  assetSet (cacheAssetUnload "CT1" two_containers) !! "A" = None /\
  assetCreatorSet (cacheAssetUnload "CT1" two_containers) !! "M3"
    = Some (loader "M3" "CT2").
Proof.
  assert (creators_keyed two_containers) as Hck.
  { apply (bool_decide_unpack _). vm_compute. exact I. }
  assert (assets_keyed two_containers) as Hak.
  { apply (bool_decide_unpack _). vm_compute. exact I. }
  destruct (AssetCacheFacts.cacheAssetUnload_cascade "CT1" two_containers Hck Hak)
    as (Hgone & Hcascade & Hkept & _).
  split; [exact Hck|]. split; [exact Hak|]. split; [|split].
  - apply (Hgone "M1" (loader "M1" "CT1")); vm_compute; reflexivity.
  - apply (Hcascade "A" {| id := Some (VStr "A"); duration := None;
                           creatorMessageId := Some "M1"; update := None |}
                    "M1" (loader "M1" "CT1")); vm_compute; reflexivity.
  - apply (Hkept "M3" (loader "M3" "CT2")); vm_compute; reflexivity.
Defined.

(** ** Authoritative handoff (scenario 4) *)

Example three_clients_sorted :
  clients three_clients
  = [joined "c0" 0 Client.ClientExecution; joined "c1" 1 Client.ClientSync;
     joined "c2" 2 Client.ClientExecution].
Proof. vm_compute. reflexivity. Qed.

(** C2, on the code.  The authoritative client [c0] closes.  The election
    written in [Session.leave] would pick the first client that is joined,
    [c2]; but [client.authoritative] is read after the client was taken out
    of the set, so the election is skipped, and [Client.authoritative] makes
    the oldest client left authoritative: [c1], which has not reached the
    execution phase. *)
Theorem handoff_elects_unjoined_client :
  let s' := client_closed "c0" three_clients in
  peerAuthoritative three_clients = true /\
  authoritativeClient three_clients
    = Some (Some (joined "c0" 0 Client.ClientExecution)) /\
  clients s' = [joined "c1" 1 Client.ClientSync;
                joined "c2" 2 Client.ClientExecution] /\
  authoritativeClient s' = Some (Some (joined "c1" 1 Client.ClientSync)) /\
  Client.in_execution (joined "c1" 1 Client.ClientSync) = false /\
  find isJoined (clients s') = Some (joined "c2" 2 Client.ClientExecution) /\
  authoritative s' (joined "c2" 2 Client.ClientExecution) = Some false.
Proof. vm_compute. repeat split; reflexivity. Qed.

(** The same when [leave] is called for the authoritative client directly. *)
Example handoff_by_leave :
  authoritativeClient (leave "c0" three_clients)
  = Some (Some (joined "c1" 1 Client.ClientSync)).
Proof. vm_compute. reflexivity. Qed.

Lemma at_most_one_authoritative_witness :
  reachable three_clients /\
  joined "c0" 0 Client.ClientExecution ∈ clients three_clients /\
  authoritative three_clients (joined "c0" 0 Client.ClientExecution) = Some true /\
  joined "c0" 0 Client.ClientExecution = joined "c0" 0 Client.ClientExecution.
Proof.
  assert (reachable three_clients) as Hreach.
  { exists "session", true. eexists. reflexivity. }
  assert (joined "c0" 0 Client.ClientExecution ∈ clients three_clients) as Hin.
  { rewrite three_clients_sorted. apply list_elem_of_here. }
  assert (authoritative three_clients (joined "c0" 0 Client.ClientExecution)
          = Some true) as Hauth.
  { vm_compute. reflexivity. }
  split; [exact Hreach|]. split; [exact Hin|]. split; [exact Hauth|].
  exact (ElectionFacts.at_most_one_authoritative three_clients _ _
           Hreach Hin Hin Hauth Hauth).
Defined.

(** ** Handshake timeout (scenario 1) *)

Example handshake_timeout :
  let w := Protocol.fire_timer 0 awaiting_handshake in
  Protocol.calls w
    = [Protocol.Rejected (Protocol.Callback 2)
         (Some "ClientHandshake timed out awaiting response for handshake, id:h1.")] /\
  Protocol.promises w = ∅ /\
  Protocol.closed w = true.
Proof. vm_compute. repeat split; reflexivity. Qed.

Lemma reply_timeout_rejects_witness :
  exists reason,
    Protocol.calls (Protocol.fire_timer 0 awaiting_handshake)
      = [Protocol.Rejected (Protocol.Callback 2) (Some reason)] /\
    Protocol.contains reason "handshake" /\
    Protocol.promises (Protocol.fire_timer 0 awaiting_handshake) !! "h1" = None /\
    Protocol.closed (Protocol.fire_timer 0 awaiting_handshake) = true.
Proof.
  destruct (ProtocolFacts.reply_timeout_rejects handshake_protocol handshake
              handshake_promise (Protocol.Callback 2) 5 Protocol.initial handshake)
    as (h & Hentry & Htimer & _ & _ & Hfire).
  - lia.
  - reflexivity.
  - reflexivity.
  - assert (h = 0%nat) as ->.
    { destruct h as [|h]; [reflexivity|]. vm_compute in Htimer. discriminate. }
    destruct (Hfire awaiting_handshake Hentry Htimer)
      as ((reason & Hcalls & Hreason) & Hgone & Hclosed & _).
    exists reason. repeat split; assumption.
Defined.

(** ** Close with replies outstanding *)

Example close_rejects_outstanding :
  let w := Protocol.emit_close handshake_protocol two_outstanding in
  size (Protocol.promises two_outstanding) = 2 /\
  Protocol.promises w = ∅ /\
  Protocol.calls w
    ≡ₚ [Protocol.Rejected (Protocol.Callback 2) (Some "Connection closed.");
        Protocol.Rejected (Protocol.Callback 4) (Some "Connection closed.")] /\
  Protocol.timers w = ∅.
Proof.
  vm_compute. repeat split; reflexivity.
Qed.

Lemma onClose_rejects_all_witness :
  Protocol.rejectable two_outstanding /\
  Protocol.promises (Protocol.onClose two_outstanding) = ∅.
Proof.
  assert (Protocol.rejectable two_outstanding) as Hrej.
  { apply (bool_decide_unpack _). vm_compute. exact I. }
  split; [exact Hrej|].
  exact (proj1 (ProtocolFacts.onClose_rejects_all two_outstanding Hrej)).
Defined.

(** ** A message from a client the session does not know *)

Lemma unknown_client_dropped_witness :
  clientSet three_clients !! "ghost" = None /\
  recvFromClient (new_client "ghost" 7) handshake three_clients
    = Normal three_clients.
Proof.
  assert (clientSet three_clients !! Client.id (new_client "ghost" 7) = None) as Hno.
  { vm_compute. reflexivity. }
  split; [exact Hno|].
  exact (proj1 (proj2 (RoutingFacts.unknown_client_dropped three_clients
                         (new_client "ghost" 7) handshake Hno))).
Defined.

End Scenarios.

(** * More facts about the protocol: replies, drops, close *)

Module ReplyFacts.
Import Json Protocol.

Lemma ensure_id_runtime `{UuidSource} (message : Message.t) (w : Runtime) :
  let w0 := (ensure_id message w).2 in
  promises w0 = promises w /\ timers w0 = timers w /\ nextTimer w0 = nextTimer w /\
  sent w0 = sent w /\ closed w0 = closed w /\ calls w0 = calls w.
Proof.
  unfold ensure_id. by destruct (Message.id message) as [[|? ?]|].
Qed.

Lemma run_beforeSend_app (ms1 ms2 : list Middleware) message promise :
  run_beforeSend (ms1 ++ ms2) message promise =
  run_beforeSend ms1 message promise ≫= fun m => run_beforeSend ms2 m promise.
Proof.
  revert message. induction ms1 as [|mw ms1 IH]; intros message; [reflexivity|].
  cbn [run_beforeSend app]. destruct (beforeSend mw) as [f|]; [|apply IH].
  destruct (f message promise) as [m|]; [apply IH|reflexivity].
Qed.

(** Rejecting where there is nothing to reject changes nothing. *)
Lemma rejectPromiseForMessage_nothing k reason (w : Runtime) :
  after_reject w k = promises w !! k ->
  rejectPromiseForMessage (Some k) reason w = w.
Proof.
  unfold after_reject, rejectPromiseForMessage. change (prop_key (Some k)) with k.
  destruct (promises w !! k) as [qp|]; [|reflexivity].
  by destruct (reject (promise qp)).
Qed.

Lemma sweep_fixed reason (ks : list string) (w : Runtime) :
  (forall k, k ∈ ks -> after_reject w k = promises w !! k) ->
  foldl (fun w key => rejectPromiseForMessage (Some key) reason w) w ks = w.
Proof.
  induction ks as [|k ks IH]; intros Hks; [reflexivity|].
  cbn [foldl]. rewrite rejectPromiseForMessage_nothing.
  - apply IH. intros j Hj. apply Hks. by apply list_elem_of_further.
  - apply Hks, list_elem_of_here.
Qed.

Lemma rejectPromiseForMessage_timers k reason (w : Runtime) h :
  timers w !! h = None ->
  timers (rejectPromiseForMessage k reason w) !! h = None.
Proof.
  intros Hh. unfold rejectPromiseForMessage.
  destruct (promises w !! prop_key k) as [qp|]; [|exact Hh].
  destruct (reject (promise qp)); [|exact Hh].
  destruct (timeout qp) as [h'|]; cbn; [|exact Hh].
  rewrite lookup_delete. by case_decide.
Qed.

Lemma sweep_timers_gone reason (ks : list string) (w : Runtime) h :
  timers w !! h = None ->
  timers (foldl (fun w key => rejectPromiseForMessage (Some key) reason w) w ks) !! h
    = None.
Proof.
  revert w. induction ks as [|k ks IH]; intros w Hh; [exact Hh|].
  cbn [foldl]. by apply IH, rejectPromiseForMessage_timers.
Qed.

Lemma sweep_clears_timer reason (ks : list string) (w : Runtime) k qp rj h :
  k ∈ ks -> promises w !! k = Some qp -> reject (promise qp) = Some rj ->
  timeout qp = Some h ->
  timers (foldl (fun w key => rejectPromiseForMessage (Some key) reason w) w ks) !! h
    = None.
Proof.
  revert w. induction ks as [|k0 ks IH]; intros w Hin Hk Hrj Hh.
  - by apply elem_of_nil in Hin.
  - cbn [foldl]. destruct (decide (k = k0)) as [<-|Hne].
    + apply sweep_timers_gone. unfold rejectPromiseForMessage.
      change (prop_key (Some k)) with k. rewrite Hk, Hrj, Hh. cbn.
      apply lookup_delete_eq.
    + apply elem_of_cons in Hin as [?|Hin]; [done|].
      apply IH; [exact Hin| |exact Hrj|exact Hh].
      rewrite ProtocolFacts.rejectPromiseForMessage_promises.
      by rewrite bool_decide_eq_false_2.
Qed.

Lemma sweep_closed reason (ks : list string) (w : Runtime) :
  closed (foldl (fun w key => rejectPromiseForMessage (Some key) reason w) w ks)
    = closed w.
Proof.
  revert w. induction ks as [|k ks IH]; intros w; [reflexivity|].
  cbn [foldl]. rewrite IH. apply ProtocolFacts.rejectPromiseForMessage_conn.
Qed.

Section Replies.
Context `{UuidSource}.

(** X1. Round trip of a request: a message sent with a reply promise,
    under an id nobody is waiting on, followed by the reply to that id.  The
    promise is resolved once with the reply's payload and the reply itself;
    the outstanding-reply map and the pending timers are as before the
    send, whatever timeout was asked for; the message went out once. *)
Theorem send_then_reply (p : t) (message message' reply : Message.t)
    (pr : ExportedPromise) (timeoutSeconds : option Z) (i : string)
    (w : Runtime) :
  run_beforeSend (middlewares p) (ensure_id message w).1 (Some pr) = Some message' ->
  Message.id message' = Some i ->
  Message.replyToId reply = Some i ->
  promises w !! i = None ->
  handles_fresh w ->
  let w1 := state_of (sendMessage p message (Some pr) timeoutSeconds w) in
  let w2 := handleReplyMessage reply w1 in
  promises w2 = promises w /\
  timers w2 = timers w /\
  calls w2 = (calls w ++ [Resolved (resolve pr) (Message.payload reply) reply])%list /\
  sent w2 = (sent w ++ [message'])%list /\
  closed w2 = closed w /\
  sendMessage p message (Some pr) timeoutSeconds w = Normal w1.
Proof.
  intros Hrun Hid Hreply Hnew Hfresh w1 w2. subst w1 w2. unfold sendMessage.
  pose proof (ensure_id_runtime message w) as Hw0.
  destruct (ensure_id message w) as [m0 w0]. cbn [fst snd] in Hrun, Hw0.
  destruct Hw0 as (Hp & Ht & Hn & Hs & Hc & Hcalls).
  rewrite Hrun, Hid. change (prop_key (Some i)) with i.
  assert (timers w0 !! nextTimer w0 = None) as Hh.
  { rewrite Ht, Hn. by apply Hfresh. }
  unfold handleReplyMessage. rewrite Hreply. change (prop_key (Some i)) with i.
  unfold setReplyTimeout.
  destruct timeoutSeconds as [secs|]; [destruct (0 <? secs)%Z|];
    cbn; rewrite lookup_insert_eq; cbn;
    rewrite ?delete_insert_eq, ?delete_id by (by rewrite ?Hp);
    by rewrite Hp, ?Ht, Hcalls, Hs, Hc.
Qed.

(** X2. A reply and the reply timeout race for the same outstanding
    entry.  Whichever comes first settles the promise, once: after the reply
    the timer is no longer pending and firing it does nothing; after the
    timeout a late reply finds no entry and does nothing (it is only
    logged). *)
Theorem reply_or_timeout_once (w : Runtime) (reply message : Message.t)
    (pr : ExportedPromise) (rj : callback) (h : nat) (name k : string) (ms : Z) :
  promises w !! k = Some {| promise := pr; timeout := Some h |} ->
  timers w !! h = Some (ReplyTimeout name message, ms) ->
  prop_key (Message.id message) = k ->
  prop_key (Message.replyToId reply) = k ->
  reject pr = Some rj ->
  (calls (handleReplyMessage reply w)
     = (calls w ++ [Resolved (resolve pr) (Message.payload reply) reply])%list /\
   fire_timer h (handleReplyMessage reply w) = handleReplyMessage reply w) /\
  (calls (fire_timer h w)
     = (calls w ++ [Rejected rj (Some (timeout_reason name message))])%list /\
   handleReplyMessage reply (fire_timer h w) = fire_timer h w).
Proof.
  intros Hk Ht Hid Hreply Hrj. split.
  - unfold handleReplyMessage. rewrite Hreply, Hk. cbn [timeout clearTimeout promise].
    split; [reflexivity|]. unfold fire_timer. cbn [timers record_call set_timers].
    by rewrite lookup_delete_eq.
  - assert (fire_timer h w =
            close (record_call (Rejected rj (Some (timeout_reason name message)))
                     (set_promises (delete k)
                        (set_timers (delete h) (set_timers (delete h) w))))) as ->.
    { unfold fire_timer. rewrite Ht. unfold rejectPromiseForMessage.
      rewrite Hid. cbn [promises set_timers]. rewrite Hk. cbn [promise timeout].
      by rewrite Hrj. }
    split; [reflexivity|]. unfold handleReplyMessage. rewrite Hreply.
    cbn [promises close record_call set_promises]. by rewrite lookup_delete_eq.
Qed.

(** X3. A [beforeSend] middleware that returns nothing drops the message:
    the middlewares after it are not run, nothing is handed to the
    connection, no reply entry and no timer are made, and the caller's
    promise, if it has a [reject], is rejected at once without a reason. *)
Theorem sendMessage_dropped (p : t) (ms1 ms2 : list Middleware) (mw : Middleware)
    (f : Message.t -> option ExportedPromise -> option Message.t)
    (message m1 : Message.t) (promise : option ExportedPromise)
    (timeoutSeconds : option Z) (w : Runtime) :
  middlewares p = (ms1 ++ mw :: ms2)%list ->
  run_beforeSend ms1 (ensure_id message w).1 promise = Some m1 ->
  beforeSend mw = Some f ->
  f m1 promise = None ->
  let w1 := state_of (sendMessage p message promise timeoutSeconds w) in
  sent w1 = sent w /\ promises w1 = promises w /\ timers w1 = timers w /\
  closed w1 = closed w /\
  calls w1 = match promise ≫= reject with
             | Some rj => (calls w ++ [Rejected rj None])%list
             | None => calls w
             end /\
  sendMessage p message promise timeoutSeconds w = Normal w1.
Proof.
  intros Hms Hrun Hf Hdrop w1. subst w1. unfold sendMessage.
  pose proof (ensure_id_runtime message w) as Hw0.
  destruct (ensure_id message w) as [m0 w0]. cbn [fst snd] in Hrun, Hw0.
  destruct Hw0 as (Hp & Ht & Hn & Hs & Hc & Hcalls).
  rewrite Hms, run_beforeSend_app, Hrun. cbn [mbind option_bind run_beforeSend].
  rewrite Hf, Hdrop.
  destruct promise as [pr|]; cbn [mbind option_bind state_of]; [|done].
  destruct (reject pr); cbn; by rewrite ?Hcalls.
Qed.

(** X4. A message sent without a reply promise leaves nothing behind: no
    outstanding entry, no timer (even when [timeoutSeconds] is given), no
    callback called, the connection not closed; at most the one message is
    handed to the connection. *)
Theorem sendMessage_without_promise (p : t) (message : Message.t)
    (timeoutSeconds : option Z) (w : Runtime) :
  let w1 := state_of (sendMessage p message None timeoutSeconds w) in
  promises w1 = promises w /\ timers w1 = timers w /\ calls w1 = calls w /\
  closed w1 = closed w /\
  (sent w1 = sent w \/ exists m, sent w1 = (sent w ++ [m])%list).
Proof.
  intros w1. subst w1. unfold sendMessage.
  pose proof (ensure_id_runtime message w) as Hw0.
  destruct (ensure_id message w) as [m0 w0]. cbn [fst snd] in Hw0.
  destruct Hw0 as (Hp & Ht & Hn & Hs & Hc & Hcalls).
  destruct (run_beforeSend (middlewares p) m0 None) as [m|]; cbn.
  - destruct (Message.id m); cbn; repeat split; try done.
    + right. exists m. by rewrite Hs.
    + by left.
  - repeat split; try done. by left.
Qed.

(** X5. Middlewares run in the order of [use]: a middleware added by
    [use] is the last to see an outgoing or incoming message, sees it as the
    earlier ones rewrote it, and is not consulted when one of them dropped
    it. *)
Theorem use_runs_last (p : t) (mw : Middleware) (message : Message.t)
    (promise : option ExportedPromise) :
  run_beforeSend (middlewares (use mw p)) message promise
  = (run_beforeSend (middlewares p) message promise ≫= fun m =>
       match beforeSend mw with Some f => f m promise | None => Some m end) /\
  run_beforeRecv (middlewares (use mw p)) message
  = (run_beforeRecv (middlewares p) message ≫= fun m =>
       match beforeRecv mw with Some f => f m | None => Some m end).
Proof.
  cbn [use middlewares]. split.
  - rewrite run_beforeSend_app.
    destruct (run_beforeSend (middlewares p) message promise) as [m|];
      [|reflexivity].
    cbn. destruct (beforeSend mw) as [f|]; [|reflexivity]. by destruct (f m promise).
  - generalize (middlewares p). intros ms. revert message.
    induction ms as [|m0 ms IH]; intros message.
    + cbn. destruct (beforeRecv mw) as [f|]; [|reflexivity]. by destruct (f message).
    + cbn [app run_beforeRecv]. destruct (beforeRecv m0) as [f|]; [|apply IH].
      destruct (f message); [apply IH|reflexivity].
Qed.

End Replies.

(** X6. Handling [close] twice is handling it once: the second sweep finds
    only entries whose promise has no [reject], and leaves them as the first
    did; no callback is called a second time. *)
Theorem onClose_idempotent (w : Runtime) : onClose (onClose w) = onClose w.
Proof.
  unfold onClose at 1. apply sweep_fixed. intros k _.
  unfold after_reject, onClose.
  rewrite ProtocolFacts.sweep_promises.
  case_bool_decide as Hin.
  - unfold after_reject. destruct (promises w !! k) as [qp|]; [|reflexivity].
    destruct (reject (promise qp)) eqn:E; [reflexivity|]. by rewrite E.
  - destruct (promises w !! k) as [qp|] eqn:Ek; [|reflexivity].
    destruct Hin. apply list_elem_of_fmap. exists (k, qp). split; [reflexivity|].
    by apply elem_of_map_to_list.
Qed.

(** X7. After [close] was handled, an entry whose promise could be
    rejected leaves nothing pending: its reply timer is cleared, so the
    timeout can no longer fire (and close the connection a second time), and
    a reply that still arrives for it is ignored.  The sweep itself does not
    close the connection. *)
Theorem nothing_pending_after_close (w : Runtime) (k : string) (qp : QueuedPromise)
    (rj : callback) (reply : Message.t) :
  promises w !! k = Some qp ->
  reject (promise qp) = Some rj ->
  Message.replyToId reply = Some k ->
  (forall h, timeout qp = Some h -> fire_timer h (onClose w) = onClose w) /\
  handleReplyMessage reply (onClose w) = onClose w /\
  closed (onClose w) = closed w.
Proof.
  intros Hk Hrj Hreply.
  assert (k ∈ map fst (map_to_list (promises w))) as Hin.
  { apply list_elem_of_fmap. exists (k, qp). split; [reflexivity|].
    by apply elem_of_map_to_list. }
  repeat split.
  - intros h Hh. unfold fire_timer.
    assert (timers (onClose w) !! h = None) as ->; [|reflexivity].
    unfold onClose. by eapply sweep_clears_timer.
  - unfold handleReplyMessage. rewrite Hreply. change (prop_key (Some k)) with k.
    assert (promises (onClose w) !! k = None) as ->; [|reflexivity].
    unfold onClose. rewrite ProtocolFacts.sweep_promises.
    rewrite bool_decide_eq_true_2 by exact Hin.
    unfold after_reject. by rewrite Hk, Hrj.
  - apply sweep_closed.
Qed.

Lemma handleReplyMessage_frame (reply : Message.t) (w : Runtime) :
  sent (handleReplyMessage reply w) = sent w /\
  closed (handleReplyMessage reply w) = closed w /\
  promises (handleReplyMessage reply w) ⊆ promises w /\
  timers (handleReplyMessage reply w) ⊆ timers w.
Proof.
  unfold handleReplyMessage.
  destruct (promises w !! prop_key (Message.replyToId reply)) as [qp|]; [|done].
  destruct (timeout qp); cbn; repeat split; try apply delete_subseteq; done.
Qed.

(** X8. What receiving a message does.  A message without id makes
    [recvMessage] throw on its first line, before anything is done.  For a
    message with an id, either a payload handler is run: then the message
    passed the middlewares, is no reply, has a payload type, the protocol has
    the handler [recv-<type>], and [recvMessage] is exactly the call of that
    handler on the payload the middlewares left, in the state as it was.  Or
    no handler is run: then [recvMessage] returns normally, nothing outside
    the connection is touched, nothing is sent, the connection is not
    closed, no outstanding reply or timer is added, and the connection
    changes at all only for a reply, by [handleReplyMessage]. *)
Theorem recvMessage_routes {World : Type} (p : t)
    (handlers : string -> option (@handler World)) (message : Message.t)
    (w : Runtime) (x : World) :
  (Message.id message = None ->
   recvMessage p handlers message (w, x) = Throw (w, x)) /\
  (is_Some (Message.id message) ->
   (exists m handle,
      run_beforeRecv (middlewares p) message = Some m /\
      truthy (VStr <$> Message.replyToId m) = false /\
      truthy (Message.type m) = true /\
      handlers ("recv-" ++ template (Message.type m)) = Some handle /\
      recvMessage p handlers message (w, x) = handle (Message.payload m) (w, x)) \/
   (exists w',
      recvMessage p handlers message (w, x) = Normal (w', x) /\
      sent w' = sent w /\ closed w' = closed w /\
      promises w' ⊆ promises w /\ timers w' ⊆ timers w /\
      (w' = w \/
       exists m, run_beforeRecv (middlewares p) message = Some m /\
                 truthy (VStr <$> Message.replyToId m) = true /\
                 w' = handleReplyMessage m w))).
Proof.
  unfold recvMessage. split; [by intros ->|].
  intros [i ->].
  destruct (run_beforeRecv (middlewares p) message) as [m|] eqn:Hm;
    [|right; exists w; repeat split; try done; by left].
  assert ((Message.replyToId m = None \/ Message.replyToId m = Some "") ->
            (exists m0 handle,
               Some m = Some m0 /\
               truthy (VStr <$> Message.replyToId m0) = false /\
               truthy (Message.type m0) = true /\
               handlers ("recv-" ++ template (Message.type m0)) = Some handle /\
               recvPayload handlers (Message.payload m) (w, x)
               = handle (Message.payload m0) (w, x)) \/
            (exists w',
               recvPayload handlers (Message.payload m) (w, x) = Normal (w', x) /\
               sent w' = sent w /\ closed w' = closed w /\
               promises w' ⊆ promises w /\ timers w' ⊆ timers w /\
               (w' = w \/
                exists m0, Some m = Some m0 /\
                           truthy (VStr <$> Message.replyToId m0) = true /\
                           w' = handleReplyMessage m0 w))) as Hpayload.
  { intros Ho. unfold recvPayload. fold (Message.type m).
    destruct (truthy (Message.type m)) eqn:Htype; cbn [andb].
    - destruct (truthy (Message.type m ≫= length_of));
        [|right; exists w; repeat split; try done; by left].
      destruct (handlers ("recv-" ++ template (Message.type m))) as [handle|] eqn:Hh;
        [|right; exists w; repeat split; try done; by left].
      left. exists m, handle. repeat split; try done.
      by destruct Ho as [-> | ->].
    - right. exists w. repeat split; try done. by left. }
  destruct (Message.replyToId m) as [[|a r]|] eqn:Hr.
  - apply Hpayload. by right.
  - right. exists (handleReplyMessage m w). cbn [fst snd].
    destruct (handleReplyMessage_frame m w) as (? & ? & ? & ?).
    repeat split; try done. right. exists m. by rewrite Hr.
  - apply Hpayload. by left.
Qed.

End ReplyFacts.

(** * Facts about the queue of a client *)

Module QueueFacts.
Import ClientQueue.

Lemma filterQueuedMessages_from (callbackfn : QueuedMessage -> bool)
    (q taken kept : list QueuedMessage) :
  foldl (fun '(filteredMessages, kept) value =>
           if callbackfn value then ((filteredMessages ++ [value])%list, kept)
           else (filteredMessages, (kept ++ [value])%list))
        (taken, kept) q
  = ((taken ++ filter (fun v => callbackfn v = true) q)%list,
     (kept ++ filter (fun v => ~ callbackfn v = true) q)%list).
Proof.
  revert taken kept. induction q as [|v q IH]; intros taken kept.
  - by rewrite !app_nil_r.
  - cbn [foldl]. destruct (callbackfn v) eqn:E; rewrite IH.
    + rewrite filter_cons_True, filter_cons_False by (rewrite E; auto).
      by rewrite <- app_assoc.
    + rewrite filter_cons_False, filter_cons_True by (rewrite E; auto).
      by rewrite <- app_assoc.
Qed.

Lemma filterQueuedMessages_filter (callbackfn : QueuedMessage -> bool)
    (q : list QueuedMessage) :
  filterQueuedMessages callbackfn q
  = (filter (fun v => callbackfn v = true) q,
     filter (fun v => ~ callbackfn v = true) q).
Proof. apply filterQueuedMessages_from. Qed.

Lemma filter_none_kept (q : list QueuedMessage) :
  filter (fun v : QueuedMessage => ~ true = true) q = [].
Proof.
  induction q as [|v q IH]; [reflexivity|]. by rewrite filter_cons_False; auto.
Qed.

(** X9. [filterQueuedMessages] splits the queue in two without losing,
    duplicating or reordering anything: the messages returned are those the
    callback allows, the queue keeps those it does not, each part is in the
    order of the queue, and together they are the queue. *)
Theorem filterQueuedMessages_splits (callbackfn : QueuedMessage -> bool)
    (q : list QueuedMessage) :
  let taken := (filterQueuedMessages callbackfn q).1 in
  let kept := (filterQueuedMessages callbackfn q).2 in
  (forall v, v ∈ taken <-> v ∈ q /\ callbackfn v = true) /\
  (forall v, v ∈ kept <-> v ∈ q /\ callbackfn v = false) /\
  taken `sublist_of` q /\ kept `sublist_of` q /\
  (taken ++ kept)%list ≡ₚ q.
Proof.
  rewrite filterQueuedMessages_filter. cbn [fst snd].
  split; [|split; [|split; [|split]]].
  - intros v. rewrite list_elem_of_filter. tauto.
  - intros v. rewrite list_elem_of_filter. destruct (callbackfn v); naive_solver.
  - apply sublist_filter.
  - apply sublist_filter.
  - apply filter_app_complement.
Qed.

(** X10. Asking again with the same callback returns nothing and leaves
    the queue as the first call left it: what a call returns is removed. *)
Theorem filterQueuedMessages_again (callbackfn : QueuedMessage -> bool)
    (q : list QueuedMessage) :
  filterQueuedMessages callbackfn (filterQueuedMessages callbackfn q).2
  = ([], (filterQueuedMessages callbackfn q).2).
Proof.
  rewrite !filterQueuedMessages_filter. cbn [snd]. f_equal.
  - rewrite list_filter_filter. induction q as [|v q IH]; [reflexivity|].
    rewrite filter_cons_False; [exact IH|]. tauto.
  - rewrite list_filter_filter. apply list_filter_iff. tauto.
Qed.

Section WithRules.
Context `{Session.Externals} `{ClientRules}.

(** After the hook, [queueMessage] appends at most one entry, which carries
    the promise given.  When the hooks leave the queue alone, that is all
    that happens to the queue. *)
Lemma queueMessage_appends (client : Client.t) (m : Message.t)
    (pr : option Protocol.ExportedPromise) (s : Session.t)
    (q : list QueuedMessage) :
  let q' := (queueMessage client m pr s q).2 in
  (hooks_keep_queue ->
   q' = q \/ exists m', q' = (q ++ [{| message := m'; promise := pr |}])%list) /\
  ((forall rule, beforeQueueMessageForClient rule = None) ->
   queueMessage client m pr s q
   = (s, (q ++ [{| message := m; promise := pr |}])%list)).
Proof.
  unfold queueMessage. split.
  - intros Hkeep.
    destruct (beforeQueueMessageForClient _) as [hk|] eqn:Hhk; cbn; [|eauto].
    specialize (Hkeep _ hk s client q m pr Hhk).
    destruct (hk s client q m pr) as [[s' q'] [m'|]]; cbn in *; subst q'; eauto.
  - intros Hnone. by rewrite Hnone.
Qed.

(** X11. The queue is first in, first out.  A rule hook gets the live
    client and could change its queue; when the hooks leave the queue as
    they find it, messages queued one after the other are appended behind
    what is already queued, in the order of the calls, each with its own
    promise (a hook may still drop or rewrite the message being queued).
    With no [beforeQueueMessageForClient] hooks the queue grows by exactly
    the messages given, and taking everything out returns the whole queue in
    that order. *)
Theorem queue_keeps_order (client : Client.t) (items : list QueuedMessage)
    (s : Session.t) (q : list QueuedMessage) :
  let queued :=
    foldl (fun acc item =>
             queueMessage client (message item) (promise item) acc.1 acc.2)
          (s, q) items in
  (hooks_keep_queue ->
   exists tail, queued.2 = (q ++ tail)%list /\
     (promise <$> tail) `sublist_of` (promise <$> items)) /\
  ((forall rule, beforeQueueMessageForClient rule = None) ->
   queued = (s, (q ++ items)%list) /\
   filterQueuedMessages (fun _ => true) queued.2 = ((q ++ items)%list, [])).
Proof.
  cbn zeta. split.
  - intros Hkeep. revert s q. induction items as [|item items IH]; intros s q.
    + exists []. by rewrite app_nil_r.
    + cbn [foldl fst snd].
      destruct (queueMessage_appends client (message item) (promise item) s q)
        as [Hq _]. specialize (Hq Hkeep).
      destruct (queueMessage client (message item) (promise item) s q)
        as [s1 q1] eqn:E. cbn [snd] in Hq.
      destruct (IH s1 q1) as (tail & Htail & Hsub).
      destruct Hq as [->|[m' ->]].
      * exists tail. split; [exact Htail|]. by apply sublist_cons.
      * exists ({| message := m'; promise := promise item |} :: tail).
        rewrite Htail, <- app_assoc. split; [reflexivity|].
        cbn [fmap list_fmap]. by apply sublist_skip.
  - intros Hnone.
    assert (foldl (fun acc item =>
                     queueMessage client (message item) (promise item) acc.1 acc.2)
                  (s, q) items = (s, (q ++ items)%list)) as ->.
    { revert q. induction items as [|item items IH]; intros q.
      - by rewrite app_nil_r.
      - cbn [foldl fst snd].
        rewrite (proj2 (queueMessage_appends client _ _ s q) Hnone).
        rewrite IH, <- app_assoc. by destruct item. }
    split; [reflexivity|]. cbn [snd]. rewrite filterQueuedMessages_filter.
    f_equal.
    + induction (q ++ items)%list as [|v l IH]; [reflexivity|].
      by rewrite filter_cons_True, IH.
    + apply filter_none_kept.
Qed.

End WithRules.

End QueueFacts.

(** * Facts about joining and leaving *)

Module MembershipFacts.
Import Json Session.

#[local] Open Scope Z_scope.

(** ** The order of construction *)

Lemma create_all_by_age (ids : list string) (n : Z) :
  by_age (Client.create_all ids n).1 /\
  (forall c, c ∈ (Client.create_all ids n).1 -> n <= Client.order c) /\
  map Client.id (Client.create_all ids n).1 = ids.
Proof.
  revert n. induction ids as [|i ids IH]; intros n.
  - repeat split. intros c Hc. by apply elem_of_nil in Hc.
  - cbn [Client.create_all Client.create]. specialize (IH (n + 1)).
    destruct (Client.create_all ids (n + 1)) as [cs n'] eqn:E.
    cbn [fst] in *. destruct IH as (Hage & Hlow & Hids). repeat split.
    + intros d Hd. specialize (Hlow d Hd). simpl. lia.
    + exact Hage.
    + intros c Hc. apply elem_of_cons in Hc as [->|Hc]; [simpl; lia|].
      specialize (Hlow c Hc). lia.
    + simpl. by rewrite Hids.
Qed.

Lemma by_age_ordered (l : list Client.t) : by_age l -> Client.ordered l.
Proof.
  induction l as [|c l IH]; [done|]. intros [Hc Hl]. split; [|by apply IH].
  intros d Hd. specialize (Hc d Hd). lia.
Qed.

Lemma by_age_distinct (l : list Client.t) c d :
  by_age l -> c ∈ l -> d ∈ l -> Client.order c = Client.order d -> c = d.
Proof.
  induction l as [|h l IH]; intros Hage Hc Hd Heq.
  - by apply elem_of_nil in Hc.
  - destruct Hage as [Hh Hl].
    apply elem_of_cons in Hc as [->|Hc]; apply elem_of_cons in Hd as [->|Hd].
    + reflexivity.
    + specialize (Hh d Hd). lia.
    + specialize (Hh c Hc). lia.
    + by apply IH.
Qed.

Lemma by_age_join (sid : string) (l : list Client.t) :
  by_age l -> by_age (Client.join sid <$> l).
Proof.
  induction l as [|c l IH]; [done|]. intros [Hc Hl]. split; [|by apply IH].
  intros d Hd. apply list_elem_of_fmap in Hd as (d' & -> & Hd'). exact (Hc _ Hd').
Qed.

Lemma join_all_clientSet (l : list Client.t) (s : t) :
  sessionId (foldl (fun s c => join_begin c s) s l) = sessionId s /\
  (NoDup (map Client.id l) ->
   (forall c, c ∈ l -> clientSet s !! Client.id c = None) ->
   map snd (map_to_list (clientSet (foldl (fun s c => join_begin c s) s l)))
     ≡ₚ ((Client.join (sessionId s) <$> l) ++ map snd (map_to_list (clientSet s)))%list).
Proof.
  revert s. induction l as [|c l IH]; intros s; [done|].
  cbn [foldl]. destruct (IH (join_begin c s)) as [Hsid Hvals].
  split; [exact Hsid|]. intros Hnd Hnew.
  apply NoDup_cons in Hnd as [Hc Hnd].
  rewrite Hvals; [|exact Hnd|].
  - unfold join_begin at 2. cbn [clientSet set_clientSet].
    rewrite map_to_list_insert by (apply Hnew, list_elem_of_here).
    cbn [map fmap list_fmap snd sessionId join_begin set_clientSet].
    by rewrite <- Permutation_middle.
  - intros d Hd. unfold join_begin. cbn [clientSet set_clientSet].
    rewrite lookup_insert_ne; [by apply Hnew, list_elem_of_further|].
    intros Heq. apply Hc. rewrite Heq. apply list_elem_of_fmap. by exists d.
Qed.

(** X12. [Client.orderSequence++] gives every client its own, growing
    [order]: clients made by successive constructor calls and then added to
    a new session in any sequence are listed by [clients] in the order in
    which they were constructed. *)
Theorem clients_in_construction_order (ids : list string) (n : Z)
    (joined : list Client.t) (sid : string) (pa : bool) :
  NoDup ids ->
  joined ≡ₚ (Client.create_all ids n).1 ->
  clients (foldl (fun s c => join_begin c s) (create sid pa) joined)
  = Client.join sid <$> (Client.create_all ids n).1.
Proof.
  intros Hnd Hperm.
  destruct (create_all_by_age ids n) as (Hage & _ & Hids).
  destruct (join_all_clientSet joined (create sid pa)) as [_ Hvals].
  assert (map snd (map_to_list
            (clientSet (foldl (fun s c => join_begin c s) (create sid pa) joined)))
          ≡ₚ Client.join sid <$> (Client.create_all ids n).1) as Hall.
  { rewrite Hvals.
    - cbn [clientSet create sessionId]. rewrite map_to_list_empty, app_nil_r.
      by rewrite Hperm.
    - change (map Client.id joined) with (Client.id <$> joined).
      rewrite Hperm. change (NoDup (map Client.id (Client.create_all ids n).1)).
      by rewrite Hids.
    - intros c _. apply lookup_empty. }
  unfold clients.
  apply ElectionFacts.ordered_perm_unique.
  - apply ElectionFacts.sort_by_order_ordered.
  - by apply by_age_ordered, by_age_join.
  - by rewrite ElectionFacts.sort_by_order_perm.
  - intros c d Hc Hd.
    apply (proj1 (ElectionFacts.elem_of_sort_by_order _ _)) in Hc.
    apply (proj1 (ElectionFacts.elem_of_sort_by_order _ _)) in Hd.
    rewrite Hall in Hc, Hd.
    apply (by_age_distinct (Client.join sid <$> (Client.create_all ids n).1) c d);
      [|done|done].
    by apply by_age_join.
Qed.

(** ** Leaving *)

Section Leaving.
Context `{Externals} `{Protocol.UuidSource}.

(** Once a client is out of the client set, [client.authoritative] is
    [false], or throws when [Client.leave()] has cleared its session. *)
Lemma authoritative_after_delete (s2 : t) (client : Client.t) :
  clients_keyed s2 -> clientSet s2 !! Client.id client = None ->
  authoritative s2 client =
  match Client.session client with Some _ => Some false | None => None end.
Proof.
  intros Hkeyed Habsent.
  pose proof (ElectionFacts.absent_not_authoritative s2 client Hkeyed Habsent) as Hno.
  unfold authoritative in *. destruct (Client.session client); [|reflexivity].
  by destruct (0 =? _).
Qed.

(** What [leave] comes to in a session whose clients are stored under their
    ids.  An exception in [sendPayload] (a middleware that returns a message
    without id) is caught by the empty [catch], like the one of the getter:
    what follows in the [try] is skipped. *)
Lemma leave_unfold clientId (s : t) :
  clients_keyed s ->
  leave clientId s =
  match clientSet s !! clientId with
  | None => close_if_last (set_clientSet (delete clientId) s)
  | Some client =>
      match Client.userId client, protocol s with
      | Some (String _ _ as userId), Some p =>
          match Protocol.sendPayload p (user_left userId) None (conn s) with
          | Normal w =>
              match Client.session client with
              | Some _ =>
                  close_if_last
                    (set_conn (fun _ => w) (set_clientSet (delete clientId) s))
              | None => set_conn (fun _ => w) (set_clientSet (delete clientId) s)
              end
          | Throw w => set_conn (fun _ => w) (set_clientSet (delete clientId) s)
          end
      | Some (String _ _), None => set_clientSet (delete clientId) s
      | _, _ =>
          match Client.session client with
          | Some _ => close_if_last (set_clientSet (delete clientId) s)
          | None => set_clientSet (delete clientId) s
          end
      end
  end.
Proof.
  intros Hkeyed. unfold leave, leave_try.
  assert (forall c : Completion t,
            state_of (and_then c
              (fun s => match clients s with
                        | [] => Normal (set_conn Protocol.close s)
                        | _ => Normal s
                        end))
            = match c with Normal s2 => close_if_last s2 | Throw s2 => s2 end)
    as Hlast.
  { intros [s2|s2]; [|reflexivity]. unfold close_if_last. cbn [and_then].
    by destruct (clients s2). }
  rewrite Hlast.
  destruct (clientSet s !! clientId) as [client|] eqn:Hclient; [|reflexivity].
  assert (forall s2, clientSet s2 = delete clientId (clientSet s) ->
            authoritative s2 client =
            match Client.session client with Some _ => Some false | None => None end)
    as Hauth.
  { intros s2 Hs2. apply authoritative_after_delete.
    - intros k c. rewrite Hs2, lookup_delete. case_decide; [done|]. apply Hkeyed.
    - rewrite Hs2, (Hkeyed _ _ Hclient). apply lookup_delete_eq. }
  destruct (Client.userId client) as [[|a u]|]; cbn [and_then].
  - rewrite Hauth by reflexivity.
    destruct (Client.session client), (protocol s); reflexivity.
  - cbn [protocol set_clientSet]. destruct (protocol s) as [p|]; cbn [and_then];
      [|reflexivity].
    unfold on_conn. cbn [conn set_clientSet].
    change {[ "type" := VStr "user-left"; "userId" := VStr (String a u) ]}
      with (user_left (String a u)).
    destruct (Protocol.sendPayload p (user_left (String a u)) None (conn s))
      as [w|w]; cbn [and_then]; [|reflexivity].
    rewrite Hauth by reflexivity. by destruct (Client.session client).
  - rewrite Hauth by reflexivity.
    destruct (Client.session client), (protocol s); reflexivity.
Qed.

Lemma close_if_last_frame (s : t) :
  clientSet (close_if_last s) = clientSet s /\ same_caches s (close_if_last s) /\
  Protocol.sent (conn (close_if_last s)) = Protocol.sent (conn s) /\
  Protocol.promises (conn (close_if_last s)) = Protocol.promises (conn s) /\
  Protocol.timers (conn (close_if_last s)) = Protocol.timers (conn s) /\
  Protocol.closed (conn (close_if_last s))
    = (if decide (clientSet s = ∅) then true else Protocol.closed (conn s)).
Proof.
  unfold close_if_last, same_caches.
  destruct (clients s) as [|c l] eqn:E.
  - apply ElectionFacts.clients_nil in E. by rewrite decide_True.
  - rewrite decide_False; [done|]. intros Hempty.
    apply ElectionFacts.clients_nil in Hempty. congruence.
Qed.

(** A payload sent without a promise, through a protocol that may have
    middlewares: whether the call returns or throws, no reply is awaited
    and the connection is not closed; without middlewares it returns, and
    the payload went out under a fresh id. *)
Lemma sendPayload_frame (p : Protocol.t) payload (w : Protocol.Runtime) :
  let w1 := state_of (Protocol.sendPayload p payload None w) in
  Protocol.promises w1 = Protocol.promises w /\
  Protocol.timers w1 = Protocol.timers w /\
  Protocol.closed w1 = Protocol.closed w /\
  (Protocol.middlewares p = [] ->
   Protocol.sendPayload p payload None w = Normal w1 /\
   Protocol.sent w1
   = (Protocol.sent w ++
      [Message.mk (Some (Protocol.UUID (Protocol.uuidCount w))) None payload])%list).
Proof.
  unfold Protocol.sendPayload, Protocol.sendMessage. cbn.
  split; [|split; [|split]].
  - destruct (Protocol.run_beforeSend _ _ _) as [m|]; [|done]. by destruct (Message.id m).
  - destruct (Protocol.run_beforeSend _ _ _) as [m|]; [|done]. by destruct (Message.id m).
  - destruct (Protocol.run_beforeSend _ _ _) as [m|]; [|done]. by destruct (Message.id m).
  - intros Hnone. by rewrite Hnone.
Qed.

(** The two shapes of the state after [leave]: the client is out of the set
    and the app connection is what a [user-left] payload left of it, if one
    was sent; the connection may then have been closed as well. *)
Lemma leave_shape clientId (s : t) :
  clients_keyed s ->
  exists w',
    (w' = conn s \/
     exists p userId,
       protocol s = Some p /\
       w' = state_of (Protocol.sendPayload p (user_left userId) None (conn s))) /\
    (leave clientId s = set_conn (fun _ => w') (set_clientSet (delete clientId) s) \/
     leave clientId s
     = close_if_last (set_conn (fun _ => w') (set_clientSet (delete clientId) s))).
Proof.
  intros Hkeyed. rewrite leave_unfold by done.
  assert (set_conn (fun _ => conn s) (set_clientSet (delete clientId) s)
          = set_clientSet (delete clientId) s) as Hsame by reflexivity.
  destruct (clientSet s !! clientId) as [client|].
  - destruct (Client.userId client) as [[|a u]|], (protocol s) as [p|] eqn:Hp;
      try (exists (conn s); rewrite Hsame; split; [by left|];
           destruct (Client.session client); first [by left|by right]).
    exists (state_of (Protocol.sendPayload p (user_left (String a u)) None (conn s))).
    split; [right; by exists p, (String a u)|].
    destruct (Protocol.sendPayload p (user_left (String a u)) None (conn s)) as [w|w];
      cbn [state_of]; [|by left].
    destruct (Client.session client); [by right|by left].
  - exists (conn s). rewrite Hsame. split; [by left|by right].
Qed.

(** X13. [leave] takes the client out of the client set and changes
    nothing else there: the other clients are as they were, no client
    is marked or re-elected, the sync caches and the protocol are
    untouched, and no reply is awaited from the app. *)
Theorem leave_removes_only_the_client (clientId : string) (s : t) :
  clients_keyed s ->
  clientSet (leave clientId s) = delete clientId (clientSet s) /\
  same_caches s (leave clientId s) /\
  Protocol.promises (conn (leave clientId s)) = Protocol.promises (conn s) /\
  Protocol.timers (conn (leave clientId s)) = Protocol.timers (conn s).
Proof.
  intros Hkeyed.
  destruct (leave_shape clientId s Hkeyed) as (w' & Hw' & Hleave).
  assert (Protocol.promises w' = Protocol.promises (conn s) /\
          Protocol.timers w' = Protocol.timers (conn s)) as [Hp Ht].
  { destruct Hw' as [->|(p & u & _ & ->)]; [done|].
    destruct (sendPayload_frame p (user_left u) (conn s)) as (? & ? & _). done. }
  destruct (close_if_last_frame
              (set_conn (fun _ => w') (set_clientSet (delete clientId) s)))
    as (Hc & Hs & _ & Hp2 & Ht2 & _).
  unfold same_caches in *.
  destruct Hleave as [-> | ->].
  - cbn. by rewrite Hp, Ht.
  - rewrite Hc, Hp2, Ht2. destruct Hs as (-> & -> & -> & -> & -> & ->).
    cbn. by rewrite Hp, Ht.
Qed.

(** X14. What [leave] tells the app.  When the leaving client had a
    user, exactly one message goes to the app, a [user-left] payload with
    that user's id under a fresh message id; for a client without a user,
    or an id the session does not know, nothing is sent. *)
Theorem leave_tells_app (clientId : string) (s : t) (p : Protocol.t) :
  clients_keyed s ->
  protocol s = Some p ->
  Protocol.middlewares p = [] ->
  Protocol.sent (conn (leave clientId s)) =
  (Protocol.sent (conn s) ++
   match clientSet s !! clientId ≫= Client.userId with
   | Some (String _ _ as userId) =>
       [Message.mk (Some (Protocol.UUID (Protocol.uuidCount (conn s)))) None
                   (user_left userId)]
   | _ => []
   end)%list.
Proof.
  intros Hkeyed Hp Hnone. rewrite leave_unfold by done. rewrite Hp.
  assert (forall s2, Protocol.sent (conn (close_if_last s2)) = Protocol.sent (conn s2))
    as Hlast by (intros s2; apply close_if_last_frame).
  destruct (clientSet s !! clientId) as [client|]; cbn [mbind option_bind];
    [|by rewrite Hlast, app_nil_r].
  destruct (Client.userId client) as [[|a u]|].
  - destruct (Client.session client); rewrite ?Hlast; by rewrite app_nil_r.
  - destruct (sendPayload_frame p (user_left (String a u)) (conn s))
      as (_ & _ & _ & Hsent).
    destruct (Hsent Hnone) as [Hnormal Hout]. rewrite Hnormal.
    destruct (Client.session client); rewrite ?Hlast; exact Hout.
  - destruct (Client.session client); rewrite ?Hlast; by rewrite app_nil_r.
Qed.

(** X15. The app connection is closed by [leave] for the last client
    and for no other: as long as another client remains, [leave] does not
    close it; when a client that still refers to the session (a join that
    failed) is the last to go, it does, provided telling the app did not
    throw (there is nothing to tell, or the protocol has no middleware);
    when telling the app throws, the connection is left open. *)
Theorem leave_closes_when_last (clientId : string) (s : t) :
  clients_keyed s ->
  (delete clientId (clientSet s) <> ∅ ->
   Protocol.closed (conn (leave clientId s)) = Protocol.closed (conn s)) /\
  (forall client p, clientSet s !! clientId = Some client ->
     delete clientId (clientSet s) = ∅ ->
     is_Some (Client.session client) ->
     protocol s = Some p -> Protocol.middlewares p = [] ->
     Protocol.closed (conn (leave clientId s)) = true) /\
  (forall client p a u w, clientSet s !! clientId = Some client ->
     Client.userId client = Some (String a u) ->
     protocol s = Some p ->
     Protocol.sendPayload p (user_left (String a u)) None (conn s) = Throw w ->
     Protocol.closed (conn (leave clientId s)) = Protocol.closed (conn s)).
Proof.
  intros Hkeyed. split; [|split].
  - intros Hrest.
    destruct (leave_shape clientId s Hkeyed) as (w' & Hw' & Hleave).
    assert (Protocol.closed w' = Protocol.closed (conn s)) as Hc.
    { destruct Hw' as [->|(p & u & _ & ->)]; [done|].
      by destruct (sendPayload_frame p (user_left u) (conn s)) as (_ & _ & ? & _). }
    destruct Hleave as [-> | ->]; [exact Hc|].
    destruct (close_if_last_frame
                (set_conn (fun _ => w') (set_clientSet (delete clientId) s)))
      as (_ & _ & _ & _ & _ & ->).
    cbn [clientSet conn set_conn set_clientSet]. by rewrite decide_False.
  - intros client p Hclient Hrest [sid Hsid] Hp Hnone.
    rewrite leave_unfold by done. rewrite Hclient, Hsid, Hp.
    assert (forall w', Protocol.closed (conn (close_if_last
                         (set_conn (fun _ => w') (set_clientSet (delete clientId) s))))
                       = true) as Hlast.
    { intros w'. destruct (close_if_last_frame
                (set_conn (fun _ => w') (set_clientSet (delete clientId) s)))
        as (_ & _ & _ & _ & _ & ->).
      cbn [clientSet conn set_conn set_clientSet]. by rewrite decide_True. }
    destruct (Client.userId client) as [[|a u]|]; try apply (Hlast (conn s)).
    destruct (sendPayload_frame p (user_left (String a u)) (conn s))
      as (_ & _ & _ & Hsent).
    destruct (Hsent Hnone) as [-> _]. apply Hlast.
  - intros client p a u w Hclient Hu Hp Hthrow.
    rewrite leave_unfold by done. rewrite Hclient, Hu, Hp, Hthrow.
    cbn [conn set_conn]. 
    destruct (sendPayload_frame p (user_left (String a u)) (conn s))
      as (_ & _ & Hc & _).
    by rewrite Hthrow in Hc.
Qed.

(** X16. The close of a client's connection never shuts the session
    down.  [Client.leave()] clears the client's session before it emits
    [close]; in the handler, [Session.leave] removes the client, then reads
    [client.authoritative], which throws on the missing session; the empty
    [catch] swallows it and the test for the last client is skipped.  So
    the client is removed, and the app connection stays open even when it
    was the last client. *)
Theorem client_close_keeps_app_connection (clientId : string) (s : t)
    (client : Client.t) :
  clients_keyed s ->
  clientSet s !! clientId = Some client ->
  clientSet (client_closed clientId s) = delete clientId (clientSet s) /\
  Protocol.closed (conn (client_closed clientId s)) = Protocol.closed (conn s).
Proof.
  intros Hkeyed Hclient. unfold client_closed.
  assert (clients_keyed (set_clientSet (alter Client.leave clientId) s)) as Hk2.
  { intros k c. cbn [clientSet set_clientSet]. rewrite lookup_alter.
    case_decide as Hk; [|apply Hkeyed]. subst k. rewrite Hclient.
    intros [= <-]. exact (Hkeyed _ _ Hclient). }
  rewrite leave_unfold by exact Hk2.
  cbn [clientSet set_clientSet protocol conn]. rewrite lookup_alter_eq, Hclient.
  cbn [fmap option_fmap option_map Client.leave Client.userId Client.session].
  assert (delete clientId (alter Client.leave clientId (clientSet s))
          = delete clientId (clientSet s)) as Hdel.
  { apply map_eq. intros k. rewrite !lookup_delete, lookup_alter.
    by repeat case_decide. }
  destruct (Client.userId client) as [[|a u]|], (protocol s) as [p|];
    cbn [clientSet conn set_conn set_clientSet]; try (split; [exact Hdel|reflexivity]).
  destruct (sendPayload_frame p (user_left (String a u)) (conn s))
    as (_ & _ & Hc & _).
  destruct (Protocol.sendPayload p (user_left (String a u)) None (conn s));
    cbn [clientSet conn set_conn set_clientSet state_of] in *; by split.
Qed.

End Leaving.

End MembershipFacts.

(** * More facts about the actor cache *)

Module ActorFacts.
Import Json JsonFacts Session.

#[local] Arguments deepmerge : simpl never.

(** [deepmerge({ message }, {})] copies: the copy has the members of the
    message. *)
Lemma clone_message_same (message : Message.t) : clone_message message = message.
Proof.
  unfold clone_message. rewrite deepmerge_empty_target. by destruct message.
Qed.

Lemma deepmerge_into_not_null (t : option value) (patch : value) :
  patch <> VNull -> deepmerge_into t patch <> VNull.
Proof.
  intros Hp. destruct t as [t|]; [|exact Hp]. cbn [deepmerge_into].
  destruct patch as [| | | | |ms];
    try (rewrite deepmerge_nonobj_source; [done|intros ? ?; discriminate]).
  by destruct (deepmerge_is_obj t ms) as [m ->].
Qed.

Lemma strip_transform_not_null patch merged actor :
  merged <> VNull -> strip_transform patch merged = Some actor -> actor <> VNull.
Proof.
  intros Hm. unfold strip_transform, strip_local, under.
  destruct merged as [| | | | |m]; try done;
    repeat case_match; intros [= <-]; discriminate.
Qed.

Lemma payload_actor_insert (actor : value) (payload : gmap string value)
    (message : Message.t) :
  actor <> VNull ->
  payload_actor (Message.set_payload (<["actor" := actor]> payload) message)
    = Some actor.
Proof.
  intros Hn. unfold payload_actor. cbn [Message.payload Message.set_payload].
  rewrite lookup_insert_eq. by destruct actor.
Qed.

Lemma payload_actor_not_null (message : Message.t) actor :
  payload_actor message = Some actor ->
  actor <> VNull /\ Message.payload message !! "actor" = Some actor.
Proof.
  unfold payload_actor.
  destruct (Message.payload message !! "actor") as [[| | | | |]|];
    intros [= <-]; done.
Qed.

(** X17. An actor update touches one thing: the [actor] member of the
    initialization payload of the actor it names.  It neither adds nor
    removes a cache entry (an update for an actor that is not cached is
    dropped); of the entry it changes, the bookkeeping, the message id and
    every other payload member, the [type] among them, stay; every other
    entry and the rest of the session stay. *)
Theorem cacheActorUpdateMessage_frame (message : Message.t) (s : t) :
  let s' := state_of (cacheActorUpdateMessage message s) in
  clientSet s' = clientSet s /\ assetSet s' = assetSet s /\
  assetCreatorSet s' = assetCreatorSet s /\ conn s' = conn s /\
  (forall k, actorSet s !! k = None -> actorSet s' !! k = None) /\
  (forall k a, actorSet s !! k = Some a ->
     exists a', actorSet s' !! k = Some a' /\
       actorId a' = actorId a /\ exclusiveToUser a' = exclusiveToUser a /\
       Message.id (initialization a') = Message.id (initialization a) /\
       (forall j, j <> "actor" ->
          Message.payload (initialization a') !! j
          = Message.payload (initialization a) !! j) /\
       ((forall patch, payload_actor message = Some patch ->
           key (get "id" patch) <> k) -> a' = a)).
Proof.
  unfold cacheActorUpdateMessage.
  destruct (payload_actor message) as [patch|]; cbn [state_of];
    [|repeat split; try done; intros k a Hk; exists a; repeat split; done].
  destruct (actorSet s !! key (get "id" patch)) as [syncActor|] eqn:Hcached;
    cbn [state_of];
    [|repeat split; try done; intros k a Hk; exists a; repeat split; done].
  assert (forall actor,
    let s' :=
      set_actorSet
        <[key (get "id" patch) :=
            set_initialization
              (Message.set_payload
                 (<["actor" := actor]> (Message.payload (initialization syncActor)))
                 (initialization syncActor)) syncActor]> s in
    clientSet s' = clientSet s /\ assetSet s' = assetSet s /\
    assetCreatorSet s' = assetCreatorSet s /\ conn s' = conn s /\
    (forall k, actorSet s !! k = None -> actorSet s' !! k = None) /\
    (forall k a, actorSet s !! k = Some a ->
       exists a', actorSet s' !! k = Some a' /\
         actorId a' = actorId a /\ exclusiveToUser a' = exclusiveToUser a /\
         Message.id (initialization a') = Message.id (initialization a) /\
         (forall j, j <> "actor" ->
            Message.payload (initialization a') !! j
            = Message.payload (initialization a) !! j) /\
         ((forall patch0, Some patch = Some patch0 ->
             key (get "id" patch0) <> k) -> a' = a))) as Hstore.
  { intros actor s'. subst s'. cbn [clientSet assetSet assetCreatorSet conn
      actorSet set_actorSet]. repeat split.
    - intros k Hk. rewrite lookup_insert_ne; [exact Hk|congruence].
    - intros k a Hk. destruct (decide (key (get "id" patch) = k)) as [<-|Hne].
      + rewrite Hcached in Hk. injection Hk as <-.
        eexists. split; [apply lookup_insert_eq|].
        cbn. repeat split.
        * intros j Hj. by rewrite lookup_insert_ne.
        * intros Hother. by destruct (Hother patch eq_refl).
      + exists a. rewrite lookup_insert_ne by done. repeat split; done. }
  destruct (strip_transform patch _) as [actor|]; apply Hstore.
Qed.

(** X18. The first initialize-actor message for an actor makes its
    cache entry: the message itself is stored, under the actor's id; the
    actor is exclusive to the user its cached parent is exclusive to, and
    only without such a parent to the user the message names.  A later
    initialize for the same actor is ignored, unless the first was a
    reservation. *)
Theorem cacheInitializeActorMessage_first (s : t) (message again : Message.t)
    (actor actor2 : value) :
  payload_actor message = Some actor ->
  actorSet s !! key (get "id" actor) = None ->
  payload_actor again = Some actor2 ->
  key (get "id" actor2) = key (get "id" actor) ->
  exists s1 syncActor,
    cacheInitializeActorMessage message s = Normal (s1, message) /\
    actorSet s1 !! key (get "id" actor) = Some syncActor /\
    (forall k, k <> key (get "id" actor) -> actorSet s1 !! k = actorSet s !! k) /\
    initialization syncActor = message /\
    actorId syncActor = get "id" actor /\
    (forall parent u,
       actorSet s !! key (get "parentId" actor) = Some parent ->
       exclusiveToUser parent = Some u -> truthy (Some u) = true ->
       exclusiveToUser syncActor = Some u) /\
    (truthy (actorSet s !! key (get "parentId" actor) ≫= exclusiveToUser) = false ->
     exclusiveToUser syncActor = get "exclusiveToUser" actor) /\
    (is_str (Message.type message) "x-reserve-actor" = false ->
     cacheInitializeActorMessage again s1 = Normal (s1, again)).
Proof.
  intros Hactor Hnew Hagain Hsame. unfold cacheInitializeActorMessage at 1.
  rewrite Hactor, Hnew, clone_message_same.
  eexists _, _. split; [reflexivity|].
  cbn [actorSet set_actorSet].
  split; [apply lookup_insert_eq|].
  split; [intros k Hk; by rewrite lookup_insert_ne|].
  split; [reflexivity|]. split; [reflexivity|].
  cbn [exclusiveToUser]. split; [|split].
  - intros parent u -> Hu Ht. cbn [mbind option_bind]. unfold js_or.
    by rewrite Hu, Ht.
  - intros Hfalsy. unfold js_or. by rewrite Hfalsy.
  - intros Hplain. unfold cacheInitializeActorMessage.
    rewrite Hagain, Hsame. cbn [actorSet set_actorSet].
    rewrite lookup_insert_eq. cbn [initialization]. by rewrite Hplain.
Qed.

(** X19. Updates that arrive for a reserved actor are not lost: the
    update is merged into the placeholder, which stays a reservation, and
    the initialize-actor message that comes later is cached with the
    placeholder's actor state, the update included. *)
Theorem reserved_update_then_initialize (s : t) (upd message : Message.t)
    (patch actor : value) (reserved : SyncActor) :
  payload_actor upd = Some patch ->
  payload_actor message = Some actor ->
  key (get "id" actor) = key (get "id" patch) ->
  actorSet s !! key (get "id" patch) = Some reserved ->
  is_str (Message.type (initialization reserved)) "x-reserve-actor" = true ->
  exists merged s2 message' syncActor,
    strip_transform patch (deepmerge_into (cached_actor reserved) patch)
      = Some merged /\
    cacheInitializeActorMessage message (state_of (cacheActorUpdateMessage upd s))
      = Normal (s2, message') /\
    actorSet s2 !! key (get "id" patch) = Some syncActor /\
    initialization syncActor = message' /\
    Message.payload message' !! "actor" = Some merged /\
    (forall j, j <> "actor" ->
       Message.payload message' !! j = Message.payload message !! j) /\
    Message.id message' = Message.id message.
Proof.
  intros Hpatch Hactor Hsame Hcached Hreserved.
  destruct (ActorCacheFacts.strip_transform_defined patch
              (deepmerge_into (cached_actor reserved) patch)
              (absorbs_merge_into _ _)) as [merged Hmerged].
  exists merged. unfold cacheActorUpdateMessage.
  rewrite Hpatch, Hcached. pose proof Hmerged as Hstrip.
  unfold cached_actor in Hstrip. rewrite Hstrip.
  cbn [state_of]. unfold cacheInitializeActorMessage.
  rewrite Hactor, Hsame. cbn [actorSet set_actorSet]. rewrite lookup_insert_eq.
  cbn [initialization set_initialization].
  assert (Message.type
            (Message.set_payload
               (<["actor" := merged]> (Message.payload (initialization reserved)))
               (initialization reserved))
          = Message.type (initialization reserved)) as ->.
  { unfold Message.type. cbn. by rewrite lookup_insert_ne. }
  rewrite Hreserved. eexists _, _, _. split; [exact Hmerged|].
  split; [reflexivity|]. split; [apply lookup_insert_eq|].
  split; [reflexivity|].
  cbn [Message.payload Message.set_payload Message.id].
  rewrite lookup_insert_eq. cbn [with_actor].
  split; [apply lookup_insert_eq|]. split; [|reflexivity].
  intros j Hj. by rewrite lookup_insert_ne.
Qed.

(** ** Along the runs of a session *)

Section Runs.
Context `{Externals} `{Protocol.UuidSource}.

Lemma setAuthoritativeClient_actorSet clientId (s : t) :
  actorSet (state_of (setAuthoritativeClient clientId s)) = actorSet s.
Proof.
  unfold setAuthoritativeClient. destruct (authoritativeClient s); [|done].
  by destruct (clientSet s !! clientId).
Qed.

Lemma leave_actorSet clientId (s : t) : actorSet (leave clientId s) = actorSet s.
Proof.
  unfold leave, leave_try.
  assert (forall (c : Completion t) f,
            actorSet (state_of c) = actorSet s ->
            (forall s2, actorSet (state_of (f s2)) = actorSet s2) ->
            actorSet (state_of (and_then c f)) = actorSet s) as Hstep.
  { intros [s2|s2] f Hc Hf; cbn [and_then state_of] in *; [by rewrite Hf|done]. }
  apply Hstep.
  - destruct (clientSet s !! clientId) as [client|]; [|done]. apply Hstep.
    + destruct (Client.userId client) as [[|a u]|]; try done.
      cbn [protocol set_clientSet]. destruct (protocol s); [|done].
      unfold on_conn. by destruct (Protocol.sendPayload _ _ _ _).
    + intros s2. destruct (authoritative s2 client) as [[|]|]; try done.
      destruct (find isJoined (clients s2)); [|done].
      apply setAuthoritativeClient_actorSet.
  - intros s2. by destruct (clients s2).
Qed.

Lemma join_resume_actorSet clientId (s : t) :
  actorSet (join_resume clientId s) = actorSet s.
Proof.
  unfold join_resume.
  destruct (authoritativeClient s) as [[c|]|]; [done| |apply leave_actorSet].
  pose proof (setAuthoritativeClient_actorSet clientId s) as Hset.
  destruct (setAuthoritativeClient clientId s) as [s2|s2]; [done|].
  cbn [state_of] in Hset. by rewrite leave_actorSet.
Qed.

(** Only the two actor events change the actor cache. *)
Lemma other_events_keep_actors (s : t) (e : event) :
  match e with
  | InitializeActor _ | ActorUpdate _ => True
  | _ => actorSet (apply_event s e) = actorSet s
  end.
Proof.
  destruct e; try exact I; cbn [apply_event]; try reflexivity.
  - apply join_resume_actorSet.
  - apply leave_actorSet.
  - unfold client_closed. by rewrite leave_actorSet.
  - unfold cacheAssetCreation.
    destruct (assetCreatorSet s !! creatorId) as [c|]; [|reflexivity].
    cbn [update set_creatorMessageId]. by destruct (is_str _ _).
  - unfold cacheAssetUpdate.
    destruct (payload_asset message) as [asset|]; [|reflexivity].
    cbn [assetCreatorSet set_assetSet].
    destruct (assetCreatorSet s !! _) as [c|];
      [destruct (is_str _ _); [reflexivity|]|];
      by destruct (update _).
  - apply AssetCacheFacts.cacheAssetUnload_others.
  - unfold sendToApp, on_conn. destruct (protocol s) as [p|]; [|reflexivity].
    by destruct (Protocol.sendMessage _ _ _ _ _).
Qed.

Lemma cacheInitializeActorMessage_keeps (message : Message.t) (s : t) k a :
  actorSet s !! k = Some a ->
  exists a', actorSet (state_of (cacheInitializeActorMessage message s)).1 !! k
               = Some a' /\
    actorId a' = actorId a /\ exclusiveToUser a' = exclusiveToUser a.
Proof.
  intros Hk. unfold cacheInitializeActorMessage.
  destruct (payload_actor message) as [actor|]; [|by exists a].
  destruct (actorSet s !! key (get "id" actor)) as [syncActor|] eqn:Hcached.
  - destruct (is_str _ _); [|by exists a]. cbn [state_of fst actorSet set_actorSet].
    destruct (decide (key (get "id" actor) = k)) as [<-|Hne].
    + rewrite Hcached in Hk. injection Hk as <-.
      eexists. split; [apply lookup_insert_eq|done].
    + exists a. by rewrite lookup_insert_ne.
  - cbn [state_of fst actorSet set_actorSet]. exists a.
    rewrite lookup_insert_ne; [done|congruence].
Qed.

Lemma cacheActorUpdateMessage_keeps (message : Message.t) (s : t) k a :
  actorSet s !! k = Some a ->
  exists a', actorSet (state_of (cacheActorUpdateMessage message s)) !! k = Some a' /\
    actorId a' = actorId a /\ exclusiveToUser a' = exclusiveToUser a.
Proof.
  intros Hk. unfold cacheActorUpdateMessage.
  destruct (payload_actor message) as [patch|]; [|by exists a].
  destruct (actorSet s !! key (get "id" patch)) as [syncActor|] eqn:Hcached;
    [|by exists a].
  destruct (decide (key (get "id" patch) = k)) as [<-|Hne].
  - rewrite Hcached in Hk. injection Hk as <-.
    destruct (strip_transform patch _); cbn [state_of actorSet set_actorSet];
      (eexists; split; [apply lookup_insert_eq|done]).
  - exists a.
    destruct (strip_transform patch _); cbn [state_of actorSet set_actorSet];
      by rewrite lookup_insert_ne.
Qed.

(** X20. The session core never un-caches an actor and never rewrites
    its bookkeeping: whatever happens to a session afterwards, an actor that
    is cached stays cached under the same key, with the [actorId] and the
    [exclusiveToUser] it was first given. *)
Theorem actor_bookkeeping_stable (events : list event) (s : t) (k : string)
    (a : SyncActor) :
  actorSet s !! k = Some a ->
  exists a', actorSet (run events s) !! k = Some a' /\
    actorId a' = actorId a /\ exclusiveToUser a' = exclusiveToUser a.
Proof.
  revert s a. induction events as [|e events IH]; intros s a Hk.
  - by exists a.
  - cbn [run foldl].
    assert (exists a1, actorSet (apply_event s e) !! k = Some a1 /\
              actorId a1 = actorId a /\ exclusiveToUser a1 = exclusiveToUser a)
      as (a1 & Hk1 & Hid & Hex).
    { pose proof (other_events_keep_actors s e) as Hkeep.
      destruct e; try (rewrite Hkeep; by exists a).
      - by apply cacheInitializeActorMessage_keeps.
      - by apply cacheActorUpdateMessage_keeps. }
    destruct (IH _ _ Hk1) as (a' & Hk' & Hid' & Hex'). exists a'.
    split; [exact Hk'|]. by rewrite Hid', Hex'.
Qed.

Lemma apply_event_formed (s : t) (e : event) :
  actors_formed s -> actors_formed (apply_event s e).
Proof.
  intros Hformed. pose proof (other_events_keep_actors s e) as Hkeep.
  unfold actors_formed in *.
  destruct e; try (by rewrite Hkeep); cbn [apply_event].
  - unfold cacheInitializeActorMessage.
    destruct (payload_actor message) as [actor|] eqn:Hactor; [|exact Hformed].
    destruct (actorSet s !! key (get "id" actor)) as [syncActor|] eqn:Hcached.
    + destruct (is_str _ _); [|exact Hformed].
      cbn [state_of fst actorSet set_actorSet].
      apply map_Forall_insert_2; [|exact Hformed].
      destruct (Hformed _ _ Hcached) as [Hkey [v Hv]].
      split; [exact Hkey|]. cbn [initialization set_initialization].
      apply payload_actor_not_null in Hv as [Hnn Hv]. rewrite Hv.
      cbn [with_actor]. rewrite payload_actor_insert by done. by eexists.
    + cbn [state_of fst actorSet set_actorSet].
      apply map_Forall_insert_2; [|exact Hformed].
      split; [reflexivity|]. cbn [initialization].
      rewrite clone_message_same, Hactor. by eexists.
  - unfold cacheActorUpdateMessage.
    destruct (payload_actor message) as [patch|] eqn:Hpatch; [|exact Hformed].
    destruct (actorSet s !! key (get "id" patch)) as [syncActor|] eqn:Hcached;
      [|exact Hformed].
    destruct (Hformed _ _ Hcached) as [Hkey _].
    apply payload_actor_not_null in Hpatch as [Hnn _].
    pose proof (deepmerge_into_not_null
                  (Message.payload (initialization syncActor) !! "actor") patch Hnn)
      as Hmerged.
    destruct (strip_transform patch _) as [actor|] eqn:Hstrip;
      cbn [state_of actorSet set_actorSet];
      (apply map_Forall_insert_2; [|exact Hformed]);
      (split; [exact Hkey|]); cbn [initialization set_initialization];
      rewrite payload_actor_insert; eauto.
    by eapply strip_transform_not_null.
Qed.

Lemma reachable_formed (s : t) : reachable s -> actors_formed s.
Proof.
  intros (sid & pa & events & ->). unfold run.
  assert (actors_formed (create sid pa)) as Hinit by apply map_Forall_empty.
  revert Hinit. generalize (create sid pa).
  induction events as [|e events IH]; intros s0 Hs0; [exact Hs0|].
  cbn [foldl]. by apply IH, apply_event_formed.
Qed.

End Runs.

Lemma filter_throwing_total {A} (f : A -> option bool) (g : A -> bool) (l : list A) :
  (forall x, x ∈ l -> f x = Some (g x)) ->
  filter_throwing f l = Some (filter (fun x => g x = true) l).
Proof.
  induction l as [|x l IH]; intros Hf; [reflexivity|].
  cbn [filter_throwing]. rewrite (Hf x) by apply list_elem_of_here.
  rewrite IH by (intros y Hy; by apply Hf, list_elem_of_further).
  destruct (g x) eqn:E.
  - by rewrite filter_cons_True.
  - rewrite filter_cons_False; [done|]. by rewrite E.
Qed.

Lemma elem_of_actors (s : t) a :
  a ∈ actors s <-> exists k, actorSet s !! k = Some a.
Proof.
  unfold actors. change (map snd ?l) with (snd <$> l).
  rewrite list_elem_of_fmap. split.
  - intros ([k a'] & -> & Hin). exists k. by apply elem_of_map_to_list in Hin.
  - intros [k Hk]. exists (k, a). split; [reflexivity|].
    by apply elem_of_map_to_list.
Qed.

Lemma parentId_formed (s : t) a :
  actors_formed s -> a ∈ actors s ->
  actorSet s !! key (actorId a) = Some a /\
  parentId a = Some (cached_actor a ≫= get "parentId").
Proof.
  intros Hformed [k Hk]%elem_of_actors.
  destruct (Hformed _ _ Hk) as [Hkey [act Hact]]. split; [by rewrite Hkey|].
  unfold parentId, cached_actor. rewrite Hact.
  by apply payload_actor_not_null in Hact as [_ ->].
Qed.

Section Views.
Context `{Externals} `{Protocol.UuidSource}.

(** X21. In every state a session can reach, the three views of the
    actor cache are defined (no property of a missing actor is read) and
    they sort the cached actors by [parentId]: [rootActors] are the actors
    without a (truthy) parent id, [childrenOf(p)] those whose parent id is
    [p], [creatableChildrenOf(p)] the children whose initialization has a
    payload type; no actor is both a root and the child of a named
    parent. *)
Theorem actor_views_defined (s : t) :
  reachable s ->
  exists roots,
    rootActors s = Some roots /\
    (forall a, a ∈ roots <->
       a ∈ actors s /\ truthy (cached_actor a ≫= get "parentId") = false) /\
    forall parent, exists kids creatable,
      childrenOf parent s = Some kids /\
      creatableChildrenOf parent s = Some creatable /\
      (forall a, a ∈ kids <->
         a ∈ actors s /\ cached_actor a ≫= get "parentId" = Some (VStr parent)) /\
      (forall a, a ∈ creatable <->
         a ∈ kids /\ truthy (Message.type (initialization a)) = true) /\
      (parent <> "" -> forall a, a ∈ kids -> a ∉ roots).
Proof.
  intros Hformed%reachable_formed.
  assert (forall o parent, is_str o parent = true <-> o = Some (VStr parent))
    as Hstr.
  { intros o parent. unfold is_str. destruct o as [[| | |x| |]|];
      rewrite ?bool_decide_eq_true; naive_solver. }
  eexists. split; [|split].
  - unfold rootActors.
    apply (filter_throwing_total _
             (fun a => negb (truthy (cached_actor a ≫= get "parentId")))).
    intros a Ha. destruct (parentId_formed s a Hformed Ha) as [-> ->]. reflexivity.
  - intros a. rewrite list_elem_of_filter, negb_true_iff. tauto.
  - intros parent. eexists _, _. split; [|split; [|split; [|split]]].
    + unfold childrenOf.
      apply (filter_throwing_total _
               (fun a => is_str (cached_actor a ≫= get "parentId") parent)).
      intros a Ha. by destruct (parentId_formed s a Hformed Ha) as [_ ->].
    + unfold creatableChildrenOf.
      apply (filter_throwing_total _
               (fun a => is_str (cached_actor a ≫= get "parentId") parent
                         && truthy (Message.type (initialization a)))).
      intros a Ha. by destruct (parentId_formed s a Hformed Ha) as [_ ->].
    + intros a. rewrite list_elem_of_filter, Hstr. tauto.
    + intros a. rewrite !list_elem_of_filter, andb_true_iff. tauto.
    + intros Hparent a [Hp _]%list_elem_of_filter [Hr _]%list_elem_of_filter.
      apply Hstr in Hp. rewrite Hp in Hr. by destruct parent.
Qed.

End Views.

End ActorFacts.

(** * More facts about the asset cache *)

Module AssetFacts.
Import Json JsonFacts Session.

#[local] Arguments deepmerge : simpl never.

Lemma filter_none {A} (P : A -> Prop) `{!forall x, Decision (P x)} (l : list A) :
  (forall x, x ∈ l -> ~ P x) -> filter P l = [].
Proof.
  induction l as [|x l IH]; intros Hno; [reflexivity|].
  rewrite filter_cons_False by apply Hno, list_elem_of_here.
  apply IH. intros y Hy. by apply Hno, list_elem_of_further.
Qed.

Section Assets.
Context `{Externals} `{Protocol.UuidSource}.

(** X22. Unloading a container twice is unloading it once: after the
    first unload no creator of the container is left, and the second finds
    nothing to remove. *)
Theorem cacheAssetUnload_idempotent (containerId : string) (s : t) :
  creators_keyed s -> assets_keyed s ->
  cacheAssetUnload containerId (cacheAssetUnload containerId s)
    = cacheAssetUnload containerId s.
Proof.
  intros Hck Hak. unfold cacheAssetUnload at 1.
  rewrite filter_none; [reflexivity|].
  intros c [k Hk]%AssetCacheFacts.elem_of_assetCreators.
  rewrite AssetCacheFacts.cacheAssetUnload_creators in Hk by done.
  destruct (assetCreatorSet s !! k) as [c'|]; [|discriminate].
  destruct (in_container containerId c') eqn:E; [discriminate|].
  injection Hk as <-. by rewrite E.
Qed.

(** X23. The reply to an asset creation whose request is not cached: the
    asset is stored before the creator is looked at, so the [TypeError] on
    the missing creator leaves an asset that points to no cached creator;
    the creators are as before, and no unload removes that asset as long as
    no request is cached under that id. *)
Theorem cacheAssetCreation_unknown_creator (assetId creatorId : string)
    (duration : option Z) (s : t) :
  creators_keyed s -> assets_keyed s ->
  assetCreatorSet s !! creatorId = None ->
  exists s1,
    cacheAssetCreation assetId creatorId duration s = Throw s1 /\
    assetSet s1 !! assetId
      = Some {| id := Some (VStr assetId); duration := duration;
                creatorMessageId := Some creatorId; update := None |} /\
    assetCreatorSet s1 = assetCreatorSet s /\
    forall containerId,
      assetSet (cacheAssetUnload containerId s1) !! assetId = assetSet s1 !! assetId.
Proof.
  intros Hck Hak Hnone. unfold cacheAssetCreation. rewrite Hnone.
  eexists. split; [reflexivity|].
  cbn [assetSet assetCreatorSet set_assetSet set_creatorMessageId].
  split; [apply lookup_insert_eq|]. split; [reflexivity|].
  intros containerId.
  rewrite AssetCacheFacts.cacheAssetUnload_assets.
  - cbn [assetSet set_assetSet]. rewrite lookup_insert_eq.
    destruct (created_by_any _ _) eqn:E; [|reflexivity].
    apply AssetCacheFacts.created_by_any_true in E as (c & Hin & Hc).
    apply AssetCacheFacts.elem_of_unloaded in Hin as [_ [k Hk]].
    cbn [assetCreatorSet set_assetSet creatorMessageId] in Hk, Hc.
    rewrite (Hck _ _ Hk) in Hc. injection Hc as ->. congruence.
  - intros k a. cbn [assetSet set_assetSet]. rewrite lookup_insert.
    case_decide as Hk; [|apply Hak]. intros [= <-]. by subst k.
Qed.

(** X24. Once an asset made by a [create-asset] request is cached, an
    update for it is folded into the request: the request's
    [payload.definition] becomes the merge of the update's asset into it,
    the rest of the request stays, and nothing is buffered on the asset. *)
Theorem update_after_creation (s : t) (creator upd : Message.t) (asset : value)
    (assetId i : string) (duration : option Z) :
  Message.id creator = Some i ->
  is_str (Message.type creator) "create-asset" = true ->
  payload_asset upd = Some asset ->
  key (get "id" asset) = assetId ->
  let s2 := state_of (cacheAssetCreation assetId i duration
                        (cacheAssetCreationRequest creator s)) in
  exists s3 creator',
    cacheAssetUpdate upd s2 = Normal s3 /\
    assetCreatorSet s3 !! i = Some creator' /\
    Message.payload creator' !! "definition"
      = Some (deepmerge_into (Message.payload creator !! "definition") asset) /\
    (forall j, j <> "definition" ->
       Message.payload creator' !! j = Message.payload creator !! j) /\
    Message.id creator' = Some i /\
    assetSet s3 !! assetId
      = Some {| id := Some (VStr assetId); duration := duration;
                creatorMessageId := Some i; update := None |} /\
    (forall k, k <> assetId -> assetSet s3 !! k = assetSet s !! k).
Proof.
  intros Hid Htype Hasset Hkey s2. subst s2.
  unfold cacheAssetCreationRequest. rewrite Hid. change (prop_key (Some i)) with i.
  unfold cacheAssetCreation. cbn [assetCreatorSet set_assetCreatorSet].
  rewrite lookup_insert_eq, Htype.
  cbn [update set_creatorMessageId state_of].
  unfold cacheAssetUpdate. rewrite Hasset, Hkey.
  cbn [assetSet set_assetSet assetCreatorSet set_assetCreatorSet].
  rewrite lookup_insert_eq. cbn [default creatorMessageId].
  change (prop_key (Some i)) with i. rewrite lookup_insert_eq, Htype.
  eexists _, _. split; [reflexivity|].
  cbn [assetCreatorSet set_assetCreatorSet assetSet set_assetSet].
  split; [apply lookup_insert_eq|].
  cbn [merge_definition Message.payload Message.set_payload Message.id].
  split; [apply lookup_insert_eq|].
  split; [intros j Hj; by rewrite lookup_insert_ne|].
  split; [exact Hid|].
  split; [by rewrite lookup_insert_eq|].
  intros k Hk. by rewrite !lookup_insert_ne.
Qed.

(** X25. Updates for an asset that is not cached yet are buffered on a
    placeholder: the first update message is kept as it came, and the next
    is merged into its [payload.asset]; the buffered message keeps the id
    and the other payload members of the first.  (No request is cached under
    the key that a missing [creatorMessageId] reads as.) *)
Theorem updates_buffer_and_merge (s : t) (first second : Message.t)
    (asset1 asset2 : value) (k : string) :
  payload_asset first = Some asset1 ->
  payload_asset second = Some asset2 ->
  key (get "id" asset1) = k -> key (get "id" asset2) = k ->
  assetSet s !! k = None ->
  assetCreatorSet s !! prop_key None = None ->
  exists s1 s2 buffered,
    cacheAssetUpdate first s = Normal s1 /\
    assetSet s1 !! k
      = Some {| id := get "id" asset1; duration := None;
                creatorMessageId := None; update := Some first |} /\
    cacheAssetUpdate second s1 = Normal s2 /\
    assetSet s2 !! k
      = Some {| id := get "id" asset1; duration := None;
                creatorMessageId := None; update := Some buffered |} /\
    Message.payload buffered !! "asset" = Some (deepmerge asset1 asset2) /\
    (forall j, j <> "asset" ->
       Message.payload buffered !! j = Message.payload first !! j) /\
    Message.id buffered = Message.id first /\
    assetCreatorSet s2 = assetCreatorSet s.
Proof.
  intros H1 H2 Hk1 Hk2 Hnew Hnone.
  assert (exists s1, cacheAssetUpdate first s = Normal s1 /\
            assetSet s1 !! k
              = Some {| id := get "id" asset1; duration := None;
                        creatorMessageId := None; update := Some first |} /\
            assetCreatorSet s1 = assetCreatorSet s) as (s1 & Hs1 & Hk & Hc).
  { unfold cacheAssetUpdate. rewrite H1, Hk1, Hnew.
    cbn [default creatorMessageId update assetCreatorSet set_assetSet].
    rewrite Hnone. eexists. split; [reflexivity|].
    cbn [assetSet set_assetSet assetCreatorSet]. by rewrite lookup_insert_eq. }
  exists s1. rewrite Hs1.
  unfold cacheAssetUpdate. rewrite H2, Hk2, Hk.
  cbn [default from_option Datatypes.id creatorMessageId update assetCreatorSet
       set_assetSet].
  rewrite Hc, Hnone. eexists _, _. split; [reflexivity|].
  split; [reflexivity|]. split; [reflexivity|].
  cbn [assetSet set_assetSet assetCreatorSet]. split; [by rewrite lookup_insert_eq|].
  cbn [Message.payload Message.set_payload Message.id].
  split; [|split; [|split]]; try done.
  - rewrite lookup_insert_eq. f_equal. unfold payload_asset in H1.
    destruct (Message.payload first !! "asset") as [[| | | | |]|];
      try discriminate; injection H1 as <-; reflexivity.
  - intros j Hj. by rewrite lookup_insert_ne.
Qed.

(** X26. The keying of the asset cache is kept by everything that can
    happen to a session: from a state where every creator is stored under
    its message id and every asset under its id, any run whose
    asset-creation requests carry their message id ends in such a state. *)
Theorem asset_cache_stays_keyed (events : list event) (s : t) :
  Forall identified events -> creators_keyed s -> assets_keyed s ->
  creators_keyed (run events s) /\ assets_keyed (run events s).
Proof.
  revert s. induction events as [|e events IH]; intros s Hev Hck Hak.
  - by split.
  - apply Forall_cons in Hev as [He Hev]. cbn [run foldl].
    destruct (RunFacts.apply_event_keyed s e He Hck Hak) as [Hck1 Hak1].
    by apply IH.
Qed.

End Assets.

End AssetFacts.

(** * More facts about routing *)

Module ForwardFacts.
Import Json Session.

Section Forward.
Context `{Externals} `{Protocol.UuidSource}.

(** X27. A message from a client of the session that no rule holds back
    goes to the app once, as it came, under its own id, and no reply is
    awaited for it; the client set and the caches are not touched.  While
    the session has no protocol (the app side is not connected), the
    forward throws and nothing changes. *)
Theorem client_message_forwarded (s : t) (client c : Client.t)
    (message : Message.t) :
  clientSet s !! Client.id client = Some c ->
  beforeReceiveFromClient (default MissingRule (Rules (key (Message.type message))))
    = None ->
  match protocol s with
  | None => recvFromClient client message s = Throw s
  | Some p =>
      Protocol.middlewares p = [] ->
      truthy (VStr <$> Message.id message) = true ->
      exists s', recvFromClient client message s = Normal s' /\
        Protocol.sent (conn s') = (Protocol.sent (conn s) ++ [message])%list /\
        Protocol.promises (conn s') = Protocol.promises (conn s) /\
        Protocol.timers (conn s') = Protocol.timers (conn s) /\
        Protocol.closed (conn s') = Protocol.closed (conn s) /\
        clientSet s' = clientSet s /\ same_caches s s'
  end.
Proof.
  intros Hc Hrule.
  assert (preprocessFromClient client message s = (s, Some message)) as Hpre.
  { unfold preprocessFromClient. rewrite Hc, Hrule. by destruct (_ && _). }
  unfold recvFromClient. rewrite Hpre. unfold sendToApp.
  destruct (protocol s) as [p|] eqn:Hp; [|reflexivity].
  intros Hnone Hid. unfold on_conn, Protocol.sendMessage, Protocol.ensure_id.
  destruct (Message.id message) as [[|a i]|] eqn:Hm; try discriminate.
  rewrite Hnone. cbn [Protocol.run_beforeSend]. rewrite Hm.
  eexists. split; [reflexivity|].
  cbn. unfold same_caches. cbn. by rewrite Hp.
Qed.

End Forward.

End ForwardFacts.

(** * More facts about the authoritative client *)

Module AuthorityFacts.
Import Json Session.

#[local] Open Scope Z_scope.

Section Authority.
Context `{Externals} `{Protocol.UuidSource}.

(** X28. A session with clients has exactly one authoritative client, the
    oldest: in every state a session can reach, [authoritativeClient] is the
    client of least [order], and [client.authoritative] is true of that
    client and false of every other client of the session.  Without
    clients there is none. *)
Theorem authority_is_oldest_client (s : t) :
  reachable s ->
  authoritativeClient s = Some (head (clients s)) /\
  forall h, head (clients s) = Some h ->
    (forall c, c ∈ clients s -> Client.order h <= Client.order c) /\
    (forall c, c ∈ clients s ->
       (authoritative s c = Some true <-> c = h) /\
       (authoritative s c = Some false <-> c <> h)).
Proof.
  intros Hreach. destruct (ElectionFacts.reachable_invariant s Hreach) as [Hkeyed Hatt].
  split; [by apply ElectionFacts.authoritativeClient_head|].
  intros h Hh. split.
  - intros c Hc. unfold clients in Hh.
    apply ElectionFacts.head_least in Hh as [_ Hleast].
    apply Hleast. by apply ElectionFacts.elem_of_sort_by_order.
  - intros c Hc. rewrite ElectionFacts.authoritative_head.
    destruct (clients s) as [|h' l] eqn:E; [discriminate|]. injection Hh as ->.
    assert (h ∈ clients s) as Hin by (rewrite E; apply list_elem_of_here).
    rewrite <- E in Hc.
    apply ElectionFacts.elem_of_clients in Hc as [k Hk].
    apply ElectionFacts.elem_of_clients in Hin as [kh Hkh].
    destruct (Hatt _ _ Hk) as [sid ->].
    assert (Client.id h = Client.id c <-> c = h) as Hsame.
    { split; [|by intros ->].
      intros Hid. rewrite (Hkeyed _ _ Hkh), (Hkeyed _ _ Hk) in Hid. congruence. }
    case_bool_decide as Hid; split; split; try done.
    + intros _. by apply Hsame.
    + intros Hne. destruct Hne. by apply Hsame.
    + intros ->. by destruct Hid.
    + intros _ ->. by destruct Hid.
Qed.

End Authority.

Lemma alter_leave_keyed clientId (s : t) :
  clients_keyed s -> clients_keyed (set_clientSet (alter Client.leave clientId) s).
Proof.
  intros Hkeyed k c. cbn [clientSet set_clientSet]. rewrite lookup_alter.
  case_decide as Hk; [|apply Hkeyed]. subst k.
  destruct (clientSet s !! clientId) as [c0|] eqn:E; [|discriminate].
  intros [= <-]. exact (Hkeyed _ _ E).
Qed.

(** One event does the same whatever [isJoined] and [setAuthoritative] are. *)
Lemma apply_event_independent (E1 E2 : Externals) (U : Protocol.UuidSource)
    (s : t) (e : event) :
  client_invariant s -> @apply_event E1 U s e = @apply_event E2 U s e.
Proof.
  intros [Hkeyed Hatt].
  assert (forall clientId s0, clients_keyed s0 ->
            @leave E1 U clientId s0 = @leave E2 U clientId s0) as Hleave.
  { intros clientId s0 Hk0.
    by rewrite (@MembershipFacts.leave_unfold E1 U), (@MembershipFacts.leave_unfold E2 U). }
  destruct e; cbn [apply_event]; try reflexivity.
  - unfold join_resume. rewrite (ElectionFacts.authoritativeClient_head _ Hatt).
    destruct (clients s) as [|h l] eqn:E; [|reflexivity]. cbn [head].
    unfold setAuthoritativeClient.
    rewrite (ElectionFacts.authoritativeClient_head _ Hatt).
    apply ElectionFacts.clients_nil in E. rewrite E, lookup_empty.
    by apply Hleave.
  - by apply Hleave.
  - unfold client_closed. by apply Hleave, alter_leave_keyed.
Qed.

(** X29. The election code is never executed.  [Session.leave] and
    [Session.join] call [c.isJoined()] and [client.setAuthoritative(...)],
    members the [Client] class does not define; in no run of a session are
    those calls reached: the state a run ends in is the same whatever these
    two members would do. *)
Theorem election_never_runs (E1 E2 : Externals) (U : Protocol.UuidSource)
    (events : list event) (sessionId : string) (peerAuthoritative : bool) :
  @run E1 U events (create sessionId peerAuthoritative)
  = @run E2 U events (create sessionId peerAuthoritative).
Proof.
  assert (client_invariant (create sessionId peerAuthoritative)) as Hinit.
  { split; intros k c; cbn; by rewrite lookup_empty. }
  revert Hinit. generalize (create sessionId peerAuthoritative).
  induction events as [|e events IH]; intros s Hinv; [reflexivity|].
  unfold run in *. cbn [foldl].
  rewrite (apply_event_independent E1 E2 U s e Hinv).
  apply IH. by apply (@ElectionFacts.apply_event_invariant E2 U).
Qed.

End AuthorityFacts.

(** * The further properties on sample data *)

Module MoreScenarios.
Import Json Session Fixtures Samples.

(** ** Protocol *)

Lemma send_then_reply_witness :
  let w2 := Protocol.handleReplyMessage handshake_reply awaiting_handshake in
  Protocol.promises w2 = ∅ /\ Protocol.timers w2 = ∅ /\
  Protocol.calls w2
    = [Protocol.Resolved (Protocol.Callback 1) (Message.payload handshake_reply)
         handshake_reply] /\
  Protocol.sent w2 = [handshake].
Proof.
  destruct (ReplyFacts.send_then_reply handshake_protocol handshake handshake
              handshake_reply handshake_promise (Some 5%Z) "h1" Protocol.initial)
    as (Hp & Ht & Hc & Hs & _).
  - reflexivity.
  - reflexivity.
  - reflexivity.
  - reflexivity.
  - intros h _. reflexivity.
  - repeat split; assumption.
Defined.

Lemma reply_or_timeout_once_witness :
  Protocol.fire_timer 0 (Protocol.handleReplyMessage handshake_reply awaiting_handshake)
    = Protocol.handleReplyMessage handshake_reply awaiting_handshake /\
  Protocol.handleReplyMessage handshake_reply (Protocol.fire_timer 0 awaiting_handshake)
    = Protocol.fire_timer 0 awaiting_handshake.
Proof.
  destruct (ReplyFacts.reply_or_timeout_once awaiting_handshake handshake_reply
              handshake handshake_promise (Protocol.Callback 2) 0 "ClientHandshake"
              "h1" 5000%Z)
    as [[_ Hreply] [_ Htimeout]].
  - vm_compute. reflexivity.
  - vm_compute. reflexivity.
  - reflexivity.
  - reflexivity.
  - reflexivity.
  - split; assumption.
Defined.

Lemma sendMessage_dropped_witness :
  let w1 := state_of (Protocol.sendMessage censoring_protocol secret
                        (Some handshake_promise) (Some 5%Z) Protocol.initial) in
  Protocol.sent w1 = [] /\ Protocol.promises w1 = ∅ /\ Protocol.timers w1 = ∅ /\
  Protocol.calls w1 = [Protocol.Rejected (Protocol.Callback 2) None].
Proof.
  destruct (ReplyFacts.sendMessage_dropped censoring_protocol [] [] censor
              (fun m _ => if is_str (Message.type m) "secret" then None else Some m)
              secret secret (Some handshake_promise) (Some 5%Z) Protocol.initial)
    as (Hs & Hp & Ht & _ & Hc & _).
  - reflexivity.
  - reflexivity.
  - reflexivity.
  - vm_compute. reflexivity.
  - repeat split; assumption.
Defined.

Lemma nothing_pending_after_close_witness :
  Protocol.fire_timer 0 (Protocol.onClose two_outstanding)
    = Protocol.onClose two_outstanding /\
  Protocol.handleReplyMessage handshake_reply (Protocol.onClose two_outstanding)
    = Protocol.onClose two_outstanding /\
  Protocol.closed (Protocol.onClose two_outstanding) = false.
Proof.
  destruct (ReplyFacts.nothing_pending_after_close two_outstanding "h1"
              {| Protocol.promise := handshake_promise; Protocol.timeout := Some 0 |}
              (Protocol.Callback 2) handshake_reply)
    as (Htimer & Hreply & Hclosed).
  - vm_compute. reflexivity.
  - reflexivity.
  - reflexivity.
  - split; [by apply Htimer|]. split; [exact Hreply|exact Hclosed].
Defined.

Lemma recvMessage_routes_witness :
  Protocol.recvMessage censoring_protocol heartbeat_only
    (Message.mk None None ∅) (awaiting_handshake, [])
    = Throw (awaiting_handshake, []) /\
  Protocol.recvMessage censoring_protocol heartbeat_only heartbeat
    (awaiting_handshake, [])
    = recv_heartbeat (Message.payload heartbeat) (awaiting_handshake, []) /\
  Protocol.recvMessage censoring_protocol heartbeat_only handshake_reply
    (awaiting_handshake, [])
    = Normal (Protocol.handleReplyMessage handshake_reply awaiting_handshake, []).
Proof.
  split; [|split].
  - by apply (ReplyFacts.recvMessage_routes censoring_protocol heartbeat_only
                (Message.mk None None ∅) awaiting_handshake []).
  - destruct (ReplyFacts.recvMessage_routes censoring_protocol heartbeat_only
                heartbeat awaiting_handshake []) as [_ Hroute].
    destruct (Hroute (ltac:(by eexists)))
      as [(m & handle & Hm & _ & _ & Hhandle & ->)|(w' & Hrecv & _)].
    + injection Hm as <-. by injection Hhandle as <-.
    + exfalso. clear -Hrecv. revert Hrecv. by intros [=].
  - destruct (ReplyFacts.recvMessage_routes censoring_protocol heartbeat_only
                handshake_reply awaiting_handshake []) as [_ Hroute].
    destruct (Hroute (ltac:(by eexists)))
      as [(m & handle & Hm & Hreply & _)|(w' & Hrecv & _ & _ & _ & _ & Hw')].
    + injection Hm as <-. discriminate Hreply.
    + destruct Hw' as [_|(m & Hm & _ & ->)]; [by vm_compute|].
      by injection Hm as <-.
Defined.

(** ** Queue and membership *)

Lemma queue_keeps_order_witness :
  (foldl (fun acc item =>
            ClientQueue.queueMessage (new_client "c0" 0)
              (ClientQueue.message item) (ClientQueue.promise item) acc.1 acc.2)
         (one_user, []) [queued "q1"; queued "q2"]
     = (one_user, [queued "q1"; queued "q2"]) /\
   ClientQueue.filterQueuedMessages (fun _ => true) [queued "q1"; queued "q2"]
     = ([queued "q1"; queued "q2"], [])) /\
  (exists tail,
     (foldl (fun acc item =>
               @ClientQueue.queueMessage plain_externals dropping_hooks
                 (new_client "c0" 0)
                 (ClientQueue.message item) (ClientQueue.promise item) acc.1 acc.2)
            (one_user, [queued "q0"]) [queued "q1"; queued "q2"; queued "q3"]).2
     = (queued "q0" :: tail) /\
     (ClientQueue.promise <$> tail) `sublist_of` [None; None; None]).
Proof.
  split.
  - destruct (QueueFacts.queue_keeps_order (new_client "c0" 0)
                [queued "q1"; queued "q2"] one_user []) as [_ Hplain].
    destruct Hplain as [Hqueued Htaken].
    + intros rule. reflexivity.
    + split; [exact Hqueued|]. rewrite Hqueued in Htaken. exact Htaken.
  - destruct (@QueueFacts.queue_keeps_order plain_externals dropping_hooks
                (new_client "c0" 0) [queued "q1"; queued "q2"; queued "q3"]
                one_user [queued "q0"]) as [Hkept _].
    apply Hkept. intros rule beforeQueue s client queuedMessages m pr [= <-].
    reflexivity.
Defined.

Lemma clients_in_construction_order_witness :
  clients (foldl (fun s c => join_begin c s) (create "session" true)
             [new_client "c" 2; new_client "b" 1; new_client "a" 0])
  = [Client.mk "a" 0 None (Some Client.ClientHandshake) (Some "session");
     Client.mk "b" 1 None (Some Client.ClientHandshake) (Some "session");
     Client.mk "c" 2 None (Some Client.ClientHandshake) (Some "session")].
Proof.
  apply (MembershipFacts.clients_in_construction_order ["a"; "b"; "c"] 0
           [new_client "c" 2; new_client "b" 1; new_client "a" 0] "session" true).
  - apply (bool_decide_unpack _). vm_compute. exact I.
  - apply (reverse_Permutation [new_client "a" 0; new_client "b" 1; new_client "c" 2]).
Defined.

Lemma two_users_keyed : clients_keyed two_users /\ clients_keyed one_user.
Proof.
  split.
  - change (map_Forall (fun k c => Client.id c = k) (clientSet two_users)).
    apply (bool_decide_unpack _). vm_compute. exact I.
  - change (map_Forall (fun k c => Client.id c = k) (clientSet one_user)).
    apply (bool_decide_unpack _). vm_compute. exact I.
Defined.

Lemma leave_removes_only_the_client_witness :
  clients_keyed two_users /\
  clientSet (leave "c1" two_users) = delete "c1" (clientSet two_users) /\
  actorSet (leave "c1" two_users) = actorSet two_users.
Proof.
  destruct two_users_keyed as [Hkeyed _].
  destruct (MembershipFacts.leave_removes_only_the_client "c1" two_users Hkeyed)
    as (Hclients & (Hactors & _) & _).
  split; [exact Hkeyed|]. split; [exact Hclients|exact Hactors].
Defined.

Lemma leave_tells_app_witness :
  Protocol.sent (conn (leave "c1" two_users))
  = [Message.mk (Some "uuid-0") None (user_left "U2")].
Proof.
  destruct two_users_keyed as [Hkeyed _].
  exact (MembershipFacts.leave_tells_app "c1" two_users execution_protocol
           Hkeyed eq_refl eq_refl).
Defined.

Lemma one_user_unidentified_keyed : clients_keyed one_user_unidentified.
Proof.
  change (map_Forall (fun k c => Client.id c = k) (clientSet one_user_unidentified)).
  apply (bool_decide_unpack _). vm_compute. exact I.
Defined.

Lemma leave_closes_when_last_witness :
  Protocol.closed (conn (leave "c1" two_users)) = false /\
  Protocol.closed (conn (leave "c0" one_user)) = true /\
  Protocol.closed (conn (leave "c0" one_user_unidentified)) = false.
Proof.
  destruct two_users_keyed as [Hk2 Hk1].
  destruct (MembershipFacts.leave_closes_when_last "c1" two_users Hk2)
    as [Hrest _].
  destruct (MembershipFacts.leave_closes_when_last "c0" one_user Hk1)
    as (_ & Hlast & _).
  destruct (MembershipFacts.leave_closes_when_last "c0" one_user_unidentified
              one_user_unidentified_keyed)
    as (_ & _ & Hthrow).
  split; [|split].
  - apply Hrest. intros Hempty.
    assert (delete "c1" (clientSet two_users) !! "c0" = None) as Hc0
      by (rewrite Hempty; reflexivity).
    vm_compute in Hc0. discriminate.
  - apply (Hlast (Client.mk "c0" 0 (Some "U1") (Some Client.ClientHandshake)
                    (Some "session")) execution_protocol).
    + vm_compute. reflexivity.
    + vm_compute. reflexivity.
    + by eexists.
    + reflexivity.
    + reflexivity.
  - eapply (Hthrow (Client.mk "c0" 0 (Some "U1") (Some Client.ClientHandshake)
                      (Some "session")) unidentifying_protocol).
    + vm_compute. reflexivity.
    + reflexivity.
    + reflexivity.
    + vm_compute. reflexivity.
Defined.

Lemma client_close_keeps_app_connection_witness :
  clientSet (client_closed "c0" one_user) = ∅ /\
  Protocol.closed (conn (client_closed "c0" one_user)) = false.
Proof.
  destruct two_users_keyed as [_ Hk1].
  destruct (MembershipFacts.client_close_keeps_app_connection "c0" one_user
              (Client.mk "c0" 0 (Some "U1") (Some Client.ClientHandshake)
                 (Some "session")) Hk1)
    as [Hset Hclosed].
  - vm_compute. reflexivity.
  - split; [|exact Hclosed]. rewrite Hset. vm_compute. reflexivity.
Defined.

(** ** The actor cache *)

Lemma cacheActorUpdateMessage_frame_witness :
  exists a',
    actorSet (state_of (cacheActorUpdateMessage update_A1 session_with_A1)) !! "A1"
      = Some a' /\
    actorId a' = Some (VStr "A1") /\
    Message.type (initialization a') = Some (VStr "create-actor").
Proof.
  destruct (ActorFacts.cacheActorUpdateMessage_frame update_A1 session_with_A1)
    as (_ & _ & _ & _ & _ & Hkeep).
  destruct (Hkeep "A1" cached_A1) as (a' & Hk & Hid & _ & _ & Hrest & _).
  - vm_compute. reflexivity.
  - exists a'. split; [exact Hk|]. split; [exact Hid|].
    unfold Message.type. rewrite Hrest by done. reflexivity.
Defined.

Lemma cacheInitializeActorMessage_first_witness :
  exists s1 syncActor,
    cacheInitializeActorMessage create_child session_with_reserved
      = Normal (s1, create_child) /\
    actorSet s1 !! "A2" = Some syncActor /\
    exclusiveToUser syncActor = Some (VStr "U1") /\
    cacheInitializeActorMessage create_child s1 = Normal (s1, create_child).
Proof.
  destruct (ActorFacts.cacheInitializeActorMessage_first session_with_reserved
              create_child create_child
              (obj [("id", VStr "A2"); ("parentId", VStr "A1")])
              (obj [("id", VStr "A2"); ("parentId", VStr "A1")]))
    as (s1 & syncActor & Hfirst & Hk & _ & _ & _ & Hinherit & _ & Hagain).
  - vm_compute. reflexivity.
  - vm_compute. reflexivity.
  - vm_compute. reflexivity.
  - reflexivity.
  - exists s1, syncActor. split; [exact Hfirst|]. split; [exact Hk|].
    split; [|by apply Hagain].
    apply (Hinherit reserved_A1 (VStr "U1")); vm_compute; reflexivity.
Defined.

Lemma reserved_update_then_initialize_witness :
  exists merged s2 message',
    cacheInitializeActorMessage create_A1
      (state_of (cacheActorUpdateMessage update_A1 session_with_reserved))
      = Normal (s2, message') /\
    Message.payload message' !! "actor" = Some merged /\
    path ["transform"; "app"; "position"; "x"] merged = Some (VNum 5) /\
    Message.type message' = Some (VStr "create-actor").
Proof.
  destruct (ActorFacts.reserved_update_then_initialize session_with_reserved
              update_A1 create_A1 patch_with_app
              (obj [("id", VStr "A1"); ("name", VStr "cube")]) reserved_A1)
    as (merged & s2 & message' & syncActor & Hmerged & Hinit & _ & _ & Hactor
        & Hrest & _).
  - vm_compute. reflexivity.
  - vm_compute. reflexivity.
  - reflexivity.
  - vm_compute. reflexivity.
  - vm_compute. reflexivity.
  - exists merged, s2, message'. split; [exact Hinit|]. split; [exact Hactor|].
    split.
    + vm_compute in Hmerged. injection Hmerged as <-. vm_compute. reflexivity.
    + unfold Message.type. rewrite Hrest by done. reflexivity.
Defined.

Lemma actor_bookkeeping_stable_witness :
  exists a',
    actorSet (run [ActorUpdate update_A1; InitializeActor create_A1;
                   AssetUnload "CT1"; ClientCloses "c0"] session_with_reserved)
      !! "A1" = Some a' /\
    exclusiveToUser a' = Some (VStr "U1").
Proof.
  destruct (ActorFacts.actor_bookkeeping_stable
              [ActorUpdate update_A1; InitializeActor create_A1;
               AssetUnload "CT1"; ClientCloses "c0"]
              session_with_reserved "A1" reserved_A1)
    as (a' & Hk & _ & Hex).
  - vm_compute. reflexivity.
  - exists a'. split; [exact Hk|exact Hex].
Defined.

Lemma actor_views_defined_witness :
  reachable family /\
  exists roots kids,
    rootActors family = Some roots /\ childrenOf "A1" family = Some kids /\
    forall a, a ∈ kids -> a ∉ roots.
Proof.
  assert (reachable family) as Hreach.
  { exists "session", true. eexists. reflexivity. }
  split; [exact Hreach|].
  destruct (ActorFacts.actor_views_defined family Hreach)
    as (roots & Hroots & _ & Hviews).
  destruct (Hviews "A1") as (kids & creatable & Hkids & _ & _ & _ & Hdisjoint).
  exists roots, kids. split; [exact Hroots|]. split; [exact Hkids|].
  by apply Hdisjoint.
Defined.

(** ** The asset cache *)

Lemma two_containers_keyed : creators_keyed two_containers /\ assets_keyed two_containers.
Proof.
  split; apply (bool_decide_unpack _); vm_compute; exact I.
Defined.

Lemma cacheAssetUnload_idempotent_witness :
  cacheAssetUnload "CT1" (cacheAssetUnload "CT1" two_containers)
    = cacheAssetUnload "CT1" two_containers.
Proof.
  destruct two_containers_keyed as [Hck Hak].
  exact (AssetFacts.cacheAssetUnload_idempotent "CT1" two_containers Hck Hak).
Defined.

Lemma cacheAssetCreation_unknown_creator_witness :
  exists s1,
    cacheAssetCreation "Z" "M9" None two_containers = Throw s1 /\
    creatorMessageId <$> assetSet s1 !! "Z" = Some (Some "M9") /\
    assetCreatorSet s1 !! "M9" = None /\
    is_Some (assetSet (cacheAssetUnload "CT1" s1) !! "Z").
Proof.
  destruct two_containers_keyed as [Hck Hak].
  destruct (AssetFacts.cacheAssetCreation_unknown_creator "Z" "M9" None
              two_containers Hck Hak)
    as (s1 & Hthrow & Hasset & Hcreators & Hstays).
  - vm_compute. reflexivity.
  - exists s1. split; [exact Hthrow|]. split; [by rewrite Hasset|].
    split; [rewrite Hcreators; vm_compute; reflexivity|].
    rewrite Hstays, Hasset. by eexists.
Defined.

Lemma update_after_creation_witness :
  exists s3 creator',
    cacheAssetUpdate update_X
      (state_of (cacheAssetCreation "X" "M1" None
                   (cacheAssetCreationRequest create_asset_M1 (create "session" true))))
      = Normal s3 /\
    assetCreatorSet s3 !! "M1" = Some creator' /\
    Message.payload creator' !! "definition"
      = Some (obj [("id", VStr "X"); ("name", VStr "steel")]) /\
    update <$> assetSet s3 !! "X" = Some None.
Proof.
  destruct (AssetFacts.update_after_creation (create "session" true)
              create_asset_M1 update_X
              (obj [("id", VStr "X"); ("name", VStr "steel")]) "X" "M1" None)
    as (s3 & creator' & Hupd & Hc & Hdef & _ & _ & Hasset & _).
  - reflexivity.
  - vm_compute. reflexivity.
  - vm_compute. reflexivity.
  - reflexivity.
  - exists s3, creator'. split; [exact Hupd|]. split; [exact Hc|].
    split; [|by rewrite Hasset].
    rewrite Hdef. vm_compute. reflexivity.
Defined.

Lemma updates_buffer_and_merge_witness :
  exists s1 s2 buffered,
    cacheAssetUpdate update_X (create "session" true) = Normal s1 /\
    cacheAssetUpdate update_X_colour s1 = Normal s2 /\
    update <$> assetSet s2 !! "X" = Some (Some buffered) /\
    Message.id buffered = Some "U1" /\
    Message.payload buffered !! "asset"
      = Some (obj [("id", VStr "X"); ("name", VStr "steel");
                   ("colour", VStr "red")]).
Proof.
  destruct (AssetFacts.updates_buffer_and_merge (create "session" true)
              update_X update_X_colour
              (obj [("id", VStr "X"); ("name", VStr "steel")])
              (obj [("id", VStr "X"); ("colour", VStr "red")]) "X")
    as (s1 & s2 & buffered & H1 & _ & H2 & Hk & Hasset & _ & Hid & _).
  - vm_compute. reflexivity.
  - vm_compute. reflexivity.
  - reflexivity.
  - reflexivity.
  - reflexivity.
  - reflexivity.
  - exists s1, s2, buffered. split; [exact H1|]. split; [exact H2|].
    split; [by rewrite Hk|]. split; [exact Hid|].
    rewrite Hasset. vm_compute. reflexivity.
Defined.

Lemma asset_cache_stays_keyed_witness :
  creators_keyed
    (run [AssetCreationRequest (loader "M4" "CT3"); AssetCreation "E" "M4" None;
          AssetUpdate update_X; AssetUnload "CT1"] two_containers) /\
  assets_keyed
    (run [AssetCreationRequest (loader "M4" "CT3"); AssetCreation "E" "M4" None;
          AssetUpdate update_X; AssetUnload "CT1"] two_containers).
Proof.
  destruct two_containers_keyed as [Hck Hak].
  apply (AssetFacts.asset_cache_stays_keyed
           [AssetCreationRequest (loader "M4" "CT3"); AssetCreation "E" "M4" None;
            AssetUpdate update_X; AssetUnload "CT1"] two_containers);
    [|exact Hck|exact Hak].
  repeat constructor; by eexists.
Defined.

(** ** Routing *)

Lemma client_message_forwarded_witness :
  exists s',
    recvFromClient (new_client "c0" 0) heartbeat one_user = Normal s' /\
    Protocol.sent (conn s') = [heartbeat] /\
    Protocol.promises (conn s') = ∅.
Proof.
  pose proof (ForwardFacts.client_message_forwarded one_user (new_client "c0" 0)
                (Client.mk "c0" 0 (Some "U1") (Some Client.ClientHandshake)
                   (Some "session"))
                heartbeat) as Hforward.
  change (protocol one_user) with (Some execution_protocol) in Hforward.
  cbv iota in Hforward.
  destruct Hforward as (s' & Hrecv & Hsent & Hpromises & _).
  - vm_compute. reflexivity.
  - reflexivity.
  - reflexivity.
  - reflexivity.
  - exists s'. split; [exact Hrecv|]. split; [exact Hsent|exact Hpromises].
Defined.

(** ** The authoritative client *)

Lemma authority_is_oldest_client_witness :
  reachable three_clients /\
  authoritativeClient three_clients
    = Some (Some (joined "c0" 0 Client.ClientExecution)) /\
  authoritative three_clients (joined "c1" 1 Client.ClientSync) = Some false.
Proof.
  assert (reachable three_clients) as Hreach.
  { exists "session", true. eexists. reflexivity. }
  destruct (AuthorityFacts.authority_is_oldest_client three_clients Hreach)
    as [Hauth Hone].
  split; [exact Hreach|]. split; [rewrite Hauth; vm_compute; reflexivity|].
  destruct (Hone (joined "c0" 0 Client.ClientExecution)) as [_ Hothers].
  - vm_compute. reflexivity.
  - destruct (Hothers (joined "c1" 1 Client.ClientSync)) as [_ [_ Hfalse]].
    + rewrite Scenarios.three_clients_sorted.
      apply list_elem_of_further, list_elem_of_here.
    + apply Hfalse. discriminate.
Defined.

End MoreScenarios.
